(** * LL(1) grammar analysis: FIRST, FOLLOW, table construction and the
      table-driven parser of [src/grammar.py], embedded in Rocq.

    Python sets and dicts are stdpp's [gset] and [gmap]; a set whose
    iteration order the code depends on ([non_terminals]) and the ordered
    dict [productions] are lists.  A production body is a Python [str], so a
    Rocq [string]; iterating over it yields one-character strings
    ([chars]).  Methods that mutate [self] are state-passing functions in a
    small state-and-exception monad; recursion and [while] loops that the
    source does not bound take a fuel argument, and the theorems show how
    much fuel always suffices. *)

From stdpp Require Import gmap strings list fin_maps fin_sets.

Open Scope string_scope.
Open Scope list_scope.
Open Scope nat_scope.
Set Warnings "-register-all,-clear-no-such-hyp".

(** ** Exceptions and the state/exception monad *)

Inductive syntax_error :=
| StackEmptied
| UnexpectedSymbol (current expected : string)
| NoRule (top current : string)
| InvalidStackSymbol (top : string)
| InputNotConsumed.

Inductive value_error :=
| TerminalsOverlap
| AxiomNotNonTerminal
| KeysMismatch
| NoProductionRules (nt : string)
| InvalidSymbol (s : string)
| NeitherTerminalNorNonTerminal (s : string)
| NotANonTerminal (s : string)
| CellRowUnknown
| CellColumnUnknown
| CellBodyUnknown.

Inductive exn :=
| ValueError (e : value_error)
| KeyError (k : string)
| IndexError
| RepeatedCellError (nt t : string)
| SyntaxError (e : syntax_error).

Inductive result (S A : Type) :=
| Ok (a : A) (s : S)
| Raise (e : exn) (s : S)
| OutOfFuel.
Arguments Ok {S A} a s.
Arguments Raise {S A} e s.
Arguments OutOfFuel {S A}.

Definition M (S A : Type) : Type := S → result S A.

Definition ret {S A} (a : A) : M S A := λ s, Ok a s.
Definition raise {S A} (e : exn) : M S A := λ s, Raise e s.
Definition bind {S A B} (m : M S A) (k : A → M S B) : M S B :=
  λ s, match m s with
       | Ok a s' => k a s'
       | Raise e s' => Raise e s'
       | OutOfFuel => OutOfFuel
       end.
Definition get {S} : M S S := λ s, Ok s s.
Definition put {S} (s : S) : M S unit := λ _, Ok tt s.

Notation "x <- m ;; k" := (bind m (λ x, k))
  (at level 100, m at next level, right associativity).
Notation "m ;;; k" := (bind m (λ _, k))
  (at level 100, right associativity).

(** [for x in l: body x] without [break]. *)
Fixpoint for_each {S A} (l : list A) (body : A → M S unit) : M S unit :=
  match l with
  | [] => ret tt
  | x :: l' => body x ;;; for_each l' body
  end.

(** The same loop when the body updates a local variable [b]. *)
Fixpoint for_fold {S A B} (l : list A) (body : A → B → M S B) (b : B)
  : M S B :=
  match l with
  | [] => ret b
  | x :: l' => b' <- body x b ;; for_fold l' body b'
  end.

(** Iterating over a Python [str] yields its characters as strings. *)
Fixpoint chars (s : string) : list string :=
  match s with
  | EmptyString => []
  | String c s' => String c EmptyString :: chars s'
  end.

(** [''.join(l)]. *)
Definition join (l : list string) : string := foldr String.append "" l.

(** ** Grammar *)

Abbreviation symset := (gset string).
Abbreviation cache := (gmap string (gset string)).

Record Grammar := {
  terminals : gset string;
  non_terminals : list string;
  productions : list (string * list string);
  axiom : string
}.

(** The two memoization dicts, the only mutable part of a [Grammar]. *)
Record caches := {
  first_cache : gmap string (gset string);
  follow_cache : gmap string (gset string)
}.

(** [{k: v for k in keys}] *)
Definition dict_fromkeys {V} (keys : list string) (v : V) : gmap string V :=
  gset_to_gmap v (list_to_set keys).

(** [d[k]] on the ordered dict [productions]. *)
Fixpoint getitem {V} (d : list (string * V)) (k : string) : option V :=
  match d with
  | [] => None
  | (k', v) :: d' => if decide (k' = k) then Some v else getitem d' k
  end.

(** The checks of [Grammar.__init__], in source order; [None] is success. *)
Fixpoint check_body (ts : gset string) (nts : list string) (body : list string)
  : option value_error :=
  match body with
  | [] => None
  | s :: body' =>
      if decide ((s ∉ nts) ∧ (s ∉ ts)) then Some (InvalidSymbol s)
      else check_body ts nts body'
  end.

Fixpoint check_rhs (ts : gset string) (nts : list string) (rhs : list string)
  : option value_error :=
  match rhs with
  | [] => None
  | r :: rhs' =>
      match check_body ts nts (chars r) with
      | Some e => Some e
      | None => check_rhs ts nts rhs'
      end
  end.

Fixpoint check_productions (ts : gset string) (nts : list string)
    (items : list (string * list string)) : option value_error :=
  match items with
  | [] => None
  | (nt, rhs) :: items' =>
      match rhs with
      | [] => Some (NoProductionRules nt)
      | _ =>
          match check_rhs ts nts rhs with
          | Some e => Some e
          | None => check_productions ts nts items'
          end
      end
  end.

Definition Grammar_init (ts : gset string) (nts : list string)
    (prods : list (string * list string)) (ax : string)
  : exn + (Grammar * caches) :=
  if decide (ts ∩ list_to_set nts ≠ ∅) then inl (ValueError TerminalsOverlap)
  else if decide (ax ∉ nts) then inl (ValueError AxiomNotNonTerminal)
  else if decide (list_to_set nts ≠@{gset string} list_to_set prods.*1)
  then inl (ValueError KeysMismatch)
  else match check_productions ts nts prods with
       | Some e => inl (ValueError e)
       | None =>
           inr ({| terminals := ts; non_terminals := nts;
                   productions := prods; axiom := ax |},
                {| first_cache := ∅;
                   follow_cache := dict_fromkeys nts ∅ |})
       end.

(** ** FIRST *)

Section First.
Variable g : Grammar.

Section Body.
(** The recursive call [_first(production)], at one level less. *)
Variable rec : list string → M cache (gset string).

(** [for production in self.productions[symbol]:
       self.first_cache[symbol].update(_first(production))].
    The set object [self.first_cache[symbol]] is updated in place, so
    the union is taken with its contents after the recursive call. *)
Fixpoint fill (symbol : string) (prods : list string) : M cache unit :=
  match prods with
  | [] => ret tt
  | production :: prods' =>
      r <- rec (chars production) ;;
      c <- get ;;
      match c !! symbol with
      | None => raise (KeyError symbol)
      | Some old => put (<[symbol := old ∪ r]> c)
      end ;;;
      fill symbol prods'
  end.

(** The [for i, symbol in enumerate(seq)] loop of [_first]; a [break]
    returns the set built so far, and [i == len(seq) - 1] is "no
    symbol is left". *)
Fixpoint scan (seq : list string) (first_set : gset string)
  : M cache (gset string) :=
  match seq with
  | [] => ret first_set
  | symbol :: rest =>
      if decide (symbol ∈ terminals g) then ret (first_set ∪ {[symbol]})
      else if decide (symbol ∈ non_terminals g) then
        c <- get ;;
        (if decide (symbol ∈ dom c) then ret tt
         else
           put (<[symbol := ∅]> c) ;;;
           match getitem (productions g) symbol with
           | None => raise (KeyError symbol)
           | Some prods => fill symbol prods
           end) ;;;
        c' <- get ;;
        match c' !! symbol with
        | None => raise (KeyError symbol)
        | Some fs =>
            let first_set := first_set ∪ (fs ∖ {[""]}) in
            if decide ("" ∉ fs) then ret first_set
            else
              match rest with
              | [] => ret (first_set ∪ {[""]})
              | _ => scan rest first_set
              end
        end
      else raise (ValueError (NeitherTerminalNorNonTerminal symbol))
  end.
End Body.

Fixpoint _first (fuel : nat) (seq : list string) : M cache (gset string) :=
  match fuel with
  | 0 => λ _, OutOfFuel
  | S fuel' =>
      match seq with
      | [] => ret {[""]}
      | _ => scan (_first fuel') seq ∅
      end
  end.

(** Run a computation on the FIRST cache inside the pair of caches. *)
Definition on_first_cache {A} (m : M cache A) : M caches A :=
  λ st, match m (first_cache st) with
        | Ok a c => Ok a {| first_cache := c; follow_cache := follow_cache st |}
        | Raise e c =>
            Raise e {| first_cache := c; follow_cache := follow_cache st |}
        | OutOfFuel => OutOfFuel
        end.

Definition compute_first (fuel : nat) (sentence : list string)
  : M caches (gset string) :=
  on_first_cache (_first fuel sentence).
End First.

(** ** FOLLOW *)

Definition set_follow_cache (f : cache) (st : caches) : caches :=
  {| first_cache := first_cache st; follow_cache := f |}.

Section Follow.
Variable g : Grammar.

(** FIRST*(ω) of [compute_follow]: the [for sym in omega] loop with its
    [else] branch; an empty [omega] gives the same [{''}]. *)
Fixpoint first_omega_loop (omega : list string) (first_omega : gset string)
  : M caches (gset string) :=
  match omega with
  | [] => ret (first_omega ∪ {[""]})
  | sym :: omega' =>
      if decide (sym ∈ non_terminals g) then
        st <- get ;;
        match first_cache st !! sym with
        | None => raise (KeyError sym)
        | Some fs =>
            let first_omega := first_omega ∪ (fs ∖ {[""]}) in
            if decide ("" ∉ fs) then ret first_omega
            else first_omega_loop omega' first_omega
        end
      else ret (first_omega ∪ {[sym]})
  end.

(** The body of [for i, A in enumerate(prod)], with [omega = prod[i+1:]];
    [changed] is the flag of the enclosing [while]. *)
Definition follow_at (head A : string) (omega : list string)
    (changed : bool) : M caches bool :=
  if decide (A ∉ non_terminals g) then ret changed
  else
    first_omega <- first_omega_loop omega ∅ ;;
    let to_add := first_omega ∖ {[""]} in
    st <- get ;;
    match follow_cache st !! A with
    | None => raise (KeyError A)
    | Some fA =>
        changed <-
          (if decide (to_add ⊆ fA) then ret changed
           else put (set_follow_cache (<[A := fA ∪ to_add]> (follow_cache st)) st) ;;;
                ret true) ;;
        if decide ("" ∈ first_omega) then
          st <- get ;;
          match follow_cache st !! head with
          | None => raise (KeyError head)
          | Some fH =>
              match follow_cache st !! A with
              | None => raise (KeyError A)
              | Some fA =>
                  if decide (fH ⊆ fA) then ret changed
                  else put (set_follow_cache
                              (<[A := fA ∪ fH]> (follow_cache st)) st) ;;;
                       ret true
              end
          end
        else ret changed
    end.

Fixpoint follow_prod (head : string) (prod : list string) (changed : bool)
  : M caches bool :=
  match prod with
  | [] => ret changed
  | A :: omega =>
      changed <- follow_at head A omega changed ;;
      follow_prod head omega changed
  end.

(** One pass of the [while changed] loop over all productions. *)
Definition follow_pass : M caches bool :=
  for_fold (productions g)
    (λ '(head, prods) changed,
       for_fold prods (λ prod changed, follow_prod head (chars prod) changed)
         changed)
    false.

Fixpoint follow_loop (fuel : nat) : M caches unit :=
  match fuel with
  | 0 => λ _, OutOfFuel
  | S fuel' =>
      changed <- follow_pass ;;
      if changed : bool then follow_loop fuel' else ret tt
  end.

Definition compute_follow (fuel : nat) (symbol : string)
  : M caches (gset string) :=
  for_each (non_terminals g)
    (λ nt, compute_first g fuel [nt] ;;; ret tt) ;;;
  if decide (symbol ∉ non_terminals g)
  then raise (ValueError (NotANonTerminal symbol))
  else
    st <- get ;;
    put (set_follow_cache (dict_fromkeys (non_terminals g) ∅) st) ;;;
    st <- get ;;
    match follow_cache st !! axiom g with
    | None => raise (KeyError (axiom g))
    | Some fA =>
        put (set_follow_cache
               (<[axiom g := fA ∪ {["$"]}]> (follow_cache st)) st) ;;;
        follow_loop fuel ;;;
        st <- get ;;
        match follow_cache st !! symbol with
        | None => raise (KeyError symbol)
        | Some fs => ret fs
        end
    end.
End Follow.

(** ** LL1Table *)

Record LL1Table := {
  table_terminals : gset string;
  table_non_terminals : gset string;
  cells : gmap string (gmap string (option string))
}.

Definition LL1Table_init (nts ts : gset string) : exn + LL1Table :=
  if decide (ts ∩ nts ≠ ∅) then inl (ValueError TerminalsOverlap)
  else inr {| table_terminals := ts; table_non_terminals := nts;
              cells := gset_to_gmap (gset_to_gmap None ts) nts |}.

Definition set_cell (nt t body : string) (self : LL1Table) : LL1Table :=
  {| table_terminals := table_terminals self;
     table_non_terminals := table_non_terminals self;
     cells := match cells self !! nt with
              | Some row => <[nt := <[t := Some body]> row]> (cells self)
              | None => cells self
              end |}.

Definition add_cell (non_terminal terminal cell_body : string)
  : M LL1Table unit :=
  self <- get ;;
  if decide (non_terminal ∉ table_non_terminals self)
  then raise (ValueError CellRowUnknown)
  else if decide (terminal ∉ table_terminals self)
  then raise (ValueError CellColumnUnknown)
  else if negb (forallb
                  (λ x, bool_decide
                          (x ∈ table_terminals self ∪ table_non_terminals self))
                  (chars cell_body))
  then raise (ValueError CellBodyUnknown)
  else
    match cells self !! non_terminal with
    | None => raise (KeyError non_terminal)
    | Some row =>
        match row !! terminal with
        | None => raise (KeyError terminal)
        | Some (Some _) => raise (RepeatedCellError non_terminal terminal)
        | Some None => put (set_cell non_terminal terminal cell_body self)
        end
    end.

(** ** Table construction *)

Section Table.
Variable g : Grammar.

(** [try: table.add_cell(...) except RepeatedCellError: return None] for
    each terminal of a set.  The local [table] is [Some] while the
    function is still running and [None] once it has returned [None]. *)
Fixpoint add_cells (head : string) (ts : list string) (body : string)
    (table : LL1Table) : exn + option LL1Table :=
  match ts with
  | [] => inr (Some table)
  | terminal :: ts' =>
      match add_cell head terminal body table with
      | Ok _ table' => add_cells head ts' body table'
      | Raise (RepeatedCellError _ _) _ => inr None
      | Raise e _ => inl e
      | OutOfFuel => inr None (* does not occur: [add_cell] has no loop *)
      end
  end.

Definition lift_table {S} (r : exn + option LL1Table)
  : M S (option LL1Table) :=
  match r with
  | inl e => raise e
  | inr t => ret t
  end.

Definition table_prod (fuel : nat) (head prod : string)
    (table : option LL1Table) : M caches (option LL1Table) :=
  match table with
  | None => ret None
  | Some table =>
      first_alpha <- compute_first g fuel (chars prod) ;;
      table <- lift_table
                 (add_cells head (elements (first_alpha ∖ {[""]}))
                    (join (chars prod)) table) ;;
      match table with
      | None => ret None
      | Some table =>
          if decide ("" ∈ first_alpha) then
            st <- get ;;
            match follow_cache st !! head with
            | None => raise (KeyError head)
            | Some fH =>
                lift_table
                  (add_cells head (elements fH) (join (chars prod)) table)
            end
          else ret (Some table)
      end
  end.

(** All symbols appearing in production bodies. *)
Definition body_symbols : list string :=
  mjoin ((λ '(_, prods), mjoin (chars <$> prods)) <$> productions g).

Definition get_ll1_table (fuel : nat) : M caches (option LL1Table) :=
  for_each (non_terminals g)
    (λ nt, compute_follow g fuel nt ;;; ret tt) ;;;
  let terminals :=
    (list_to_set body_symbols ∖ list_to_set (non_terminals g)) ∪ {["$"]} in
  match LL1Table_init (list_to_set (non_terminals g)) terminals with
  | inl e => raise e
  | inr table =>
      for_fold (productions g)
        (λ '(head, prods) table,
           for_fold prods (λ prod table, table_prod fuel head prod table)
             table)
        (Some table)
  end.

Definition is_ll1 (fuel : nat) : M caches bool :=
  t <- get_ll1_table fuel ;;
  ret (if t is Some _ then true else false).
End Table.

(** ** ParseTree and the table-driven parser *)

(** A [ParseTree] value, as [__eq__] and [__repr__] see it. *)
Inductive ParseTree := Node (root : string) (children : list ParseTree).

(** While [analyze] runs, nodes are objects that are shared between
    [tree_stack] and the [children] lists and are mutated through
    [current_tree.children = ...]: a store of nodes addressed by index.
    The list that is the default value of [children] is shared by all
    nodes, but [analyze] only rebinds the attribute and never mutates
    that list, so a new node has the value [[]]. *)
Record node := { node_root : string; node_children : list nat }.

Record locals := {
  stack : list string;
  tree_stack : list nat;
  i : nat;
  store : list node
}.

(** Read the tree below a node of the store. *)
Fixpoint tree_of (fuel : nat) (store : list node) (n : nat)
  : option ParseTree :=
  match fuel with
  | 0 => None
  | S fuel' =>
      nd ← store !! n;
      cs ← mapM (tree_of fuel' store) (node_children nd);
      Some (Node (node_root nd) cs)
  end.

(** [for symbol in reversed(production)]: push the symbol, allocate its
    node, push the node and [children.insert(0, child_tree)]. *)
Fixpoint push_symbols (symbols : list string) (l : locals)
    (children : list nat) : locals * list nat :=
  match symbols with
  | [] => (l, children)
  | symbol :: symbols' =>
      let child_tree := length (store l) in
      push_symbols symbols'
        {| stack := stack l ++ [symbol];
           tree_stack := tree_stack l ++ [child_tree];
           i := i l;
           store := store l ++ [{| node_root := symbol; node_children := [] |}] |}
        (child_tree :: children)
  end.

Definition set_children (n : nat) (children : list nat) (store : list node)
  : list node :=
  match store !! n with
  | Some nd =>
      <[n := {| node_root := node_root nd; node_children := children |}]> store
  | None => store
  end.

(** [self.cells.get(stackTop, {}).get(currentSymbol)] *)
Definition cell_get (self : LL1Table) (stackTop currentSymbol : string)
  : option string :=
  match cells self !! stackTop with
  | None => None
  | Some row =>
      match row !! currentSymbol with
      | None => None
      | Some v => v
      end
  end.

(** One iteration of the [while i < len(input_list)] loop. *)
Definition analyze_step (input_list : list string) (l : locals)
  : M LL1Table locals :=
  self <- get ;;
  match last (stack l) with
  | None => raise (SyntaxError StackEmptied)
  | Some stackTop =>
      match last (tree_stack l) with
      | None => raise IndexError
      | Some current_tree =>
          let rest_trees := removelast (tree_stack l) in
          match input_list !! i l with
          | None => raise IndexError
          | Some currentSymbol =>
              if decide (stackTop ∈ table_terminals self ∨ stackTop = "$") then
                if decide (stackTop = currentSymbol) then
                  ret {| stack := removelast (stack l);
                         tree_stack := rest_trees;
                         i := i l + 1;
                         store := store l |}
                else raise (SyntaxError
                              (UnexpectedSymbol currentSymbol stackTop))
              else if decide (stackTop ∈ table_non_terminals self) then
                match cell_get self stackTop currentSymbol with
                | None => raise (SyntaxError (NoRule stackTop currentSymbol))
                | Some production =>
                    let l1 := {| stack := removelast (stack l);
                                 tree_stack := rest_trees;
                                 i := i l;
                                 store := store l |} in
                    let '(l2, children) :=
                      if decide (production = "") then (l1, [])
                      else push_symbols (reverse (chars production)) l1 [] in
                    ret {| stack := stack l2;
                           tree_stack := tree_stack l2 ++ [current_tree];
                           i := i l2;
                           store := set_children current_tree children
                                      (store l2) |}
                end
              else raise (SyntaxError (InvalidStackSymbol stackTop))
          end
      end
  end.

Fixpoint analyze_loop (fuel : nat) (input_list : list string) (l : locals)
  : M LL1Table locals :=
  if decide (i l < length input_list) then
    match fuel with
    | 0 => λ _, OutOfFuel
    | S fuel' =>
        l' <- analyze_step input_list l ;;
        analyze_loop fuel' input_list l'
    end
  else ret l.

Definition analyze (fuel : nat) (input_string start : string)
  : M LL1Table ParseTree :=
  let l0 := {| stack := ["$"; start];
               tree_stack := [0; 1];
               i := 0;
               store := [{| node_root := "$"; node_children := [] |};
                         {| node_root := start; node_children := [] |}] |} in
  l <- analyze_loop fuel (chars input_string) l0 ;;
  if decide (stack l ≠ []) then raise (SyntaxError InputNotConsumed)
  else
    let final : nat * list node :=
      match tree_stack l with
      | n :: _ => (n, store l)
      | [] => (length (store l),
               store l ++ [{| node_root := start; node_children := [] |}])
      end in
    match tree_of (S (length final.2)) final.2 final.1 with
    | Some t => ret t
    | None => λ _, OutOfFuel
    end.

(** The leaves of a tree, left to right. *)
Fixpoint leaves (t : ParseTree) : list string :=
  match t with
  | Node root [] => [root]
  | Node _ children => mjoin (leaves <$> children)
  end.

(** [ParseTree.__eq__] on two trees: the roots are equal, the two lists of
    children have the same length, and [x.__eq__(y)] holds for all the
    pairs [(x, y)] of [zip(self.children, other.children)]; the local
    [all_eq] is [all] over that [zip]. *)
Fixpoint ParseTree_eq (self other : ParseTree) : bool :=
  match self, other with
  | Node root children, Node root' children' =>
      bool_decide (root = root')
      && (length children =? length children')
      && (fix all_eq (xs ys : list ParseTree) : bool :=
            match xs, ys with
            | x :: xs', y :: ys' => ParseTree_eq x y && all_eq xs' ys'
            | _, _ => true
            end) children children'
  end.

(** ** The grammars of the scenarios *)

(** E -> TX; X -> +E | ε; T -> iY | (E); Y -> *T | ε, with the set of
    non-terminals iterated in the order [nts]. *)
Definition expr_grammar_in (nts : list string) : Grammar :=
  {| terminals := {["+"; "*"; "i"; "("; ")"]};
     non_terminals := nts;
     productions := [("E", ["TX"]); ("X", ["+E"; ""]);
                     ("T", ["iY"; "(E)"]); ("Y", ["*T"; ""])];
     axiom := "E" |}.

Definition expr_grammar : Grammar := expr_grammar_in ["E"; "X"; "T"; "Y"].

(** S -> aB; B -> b. *)
Definition ab_grammar : Grammar :=
  {| terminals := {["a"; "b"]};
     non_terminals := ["S"; "B"];
     productions := [("S", ["aB"]); ("B", ["b"])];
     axiom := "S" |}.

(** The state of a newly constructed [Grammar]. *)
Definition fresh (g : Grammar) : caches :=
  {| first_cache := ∅; follow_cache := dict_fromkeys (non_terminals g) ∅ |}.

(** * Predicates and auxiliary definitions of the statements *)

(** The value returned by a call, if it returned. *)
Definition value {S A} (r : result S A) : option A :=
  match r with Ok a _ => Some a | _ => None end.

Definition is_inr {A B} (x : A + B) : bool :=
  if x is inr _ then true else false.

(** The invariants of the data model that [Grammar.__init__] checks. *)
Record valid (g : Grammar) : Prop := {
  valid_disjoint : ∀ s, s ∈ terminals g → s ∉ non_terminals g;
  valid_axiom : axiom g ∈ non_terminals g;
  valid_keys : ∀ s, s ∈ non_terminals g ↔ s ∈ (productions g).*1;
  valid_nonempty : ∀ nt rhs, (nt, rhs) ∈ productions g → rhs ≠ [];
  valid_bodies : ∀ nt rhs r s,
    (nt, rhs) ∈ productions g → r ∈ rhs → s ∈ chars r →
    s ∈ non_terminals g ∨ s ∈ terminals g
}.

(** The five ways in which the arguments of the constructor can be
    malformed. *)
Definition construction_error (ts : gset string) (nts : list string)
    (prods : list (string * list string)) (ax : string) : Prop :=
  (∃ s, s ∈ ts ∧ s ∈ nts)
  ∨ ax ∉ nts
  ∨ list_to_set nts ≠@{gset string} list_to_set prods.*1
  ∨ (∃ nt rhs r s,
       (nt, rhs) ∈ prods ∧ r ∈ rhs ∧ s ∈ chars r ∧ (s ∉ nts) ∧ (s ∉ ts))
  ∨ (∃ nt, nt ∈ nts ∧ (nt, []) ∈ prods).

(** The state of [self] after a call that returned or raised. *)
Definition state_of {S A} (r : result S A) : option S :=
  match r with
  | Ok _ s | Raise _ s => Some s
  | OutOfFuel => None
  end.

(** A node as [ParseTree(symbol)] creates it. *)
Definition new_node (symbol : string) : node :=
  {| node_root := symbol; node_children := [] |}.

(** The end-marker pushed first stays at the bottom of the symbol stack as
    long as no ['$'] has been read, and the stack of nodes is never shorter
    than the symbol stack. *)
Definition marker_at_bottom (l : locals) : Prop :=
  (∃ rest, stack l = "$" :: rest) ∧
  (length (stack l) ≤ length (tree_stack l))%nat.

(** A table whose only filled cell sends [A], on input [a], to [A] again. *)
Definition cyclic_table : LL1Table :=
  set_cell "A" "a" "A"
    {| table_terminals := {["a"]};
       table_non_terminals := {["A"]};
       cells := gset_to_gmap (gset_to_gmap None {["a"]}) {["A"]} |}.

(** Once a non-terminal has been expanded, the node of the end-marker stays
    at index 0 of [tree_stack], is never the node popped as
    [current_tree], and keeps its empty list of children. *)
Definition marker_node_kept (l : locals) : Prop :=
  ∃ rest, tree_stack l = 0 :: rest ∧ (0 ∉ rest) ∧
          store l !! 0 = Some (new_node "$") ∧
          (length (stack l) ≤ length rest)%nat.

(** What [_first] returns when every non-terminal it meets is already in
    the cache: the same scan, reading the cache only.  [None] means that a
    non-terminal is not cached; an exception is the [ValueError] of the
    scan. *)
Fixpoint scan_cached (g : Grammar) (c : cache) (seq : list string)
    (first_set : gset string) : option (exn + gset string) :=
  match seq with
  | [] => Some (inr first_set)
  | symbol :: rest =>
      if decide (symbol ∈ terminals g) then Some (inr (first_set ∪ {[symbol]}))
      else if decide (symbol ∈ non_terminals g) then
        match c !! symbol with
        | None => None
        | Some fs =>
            let first_set := first_set ∪ (fs ∖ {[""]}) in
            if decide ("" ∉ fs) then Some (inr first_set)
            else
              match rest with
              | [] => Some (inr (first_set ∪ {[""]}))
              | _ => scan_cached g c rest first_set
              end
        end
      else Some (inl (ValueError (NeitherTerminalNorNonTerminal symbol)))
  end.

Definition first_cached (g : Grammar) (c : cache) (seq : list string)
  : option (exn + gset string) :=
  match seq with
  | [] => Some (inr {[""]})
  | _ => scan_cached g c seq ∅
  end.

(** The outcome of a call: the value returned or the exception raised. *)
Definition outcome_of {S A} (r : result S A) : option (exn + A) :=
  match r with
  | Ok a _ => Some (inr a)
  | Raise e _ => Some (inl e)
  | OutOfFuel => None
  end.

(** Sequences all of whose symbols are declared. *)
Definition valid_seq (g : Grammar) (seq : list string) : Prop :=
  ∀ s, s ∈ seq → s ∈ non_terminals g ∨ s ∈ terminals g.

(** The number of non-terminals that are not yet in the FIRST cache: the
    depth that the recursion of [_first] can still reach. *)
Definition unseen (g : Grammar) (c : cache) : nat :=
  size (list_to_set (non_terminals g) ∖ dom c : gset string).

(** What is known of the recursive call, on the bodies of productions. *)
Definition rec_ok (g : Grammar) (n : nat)
  (rec : list string → M cache (gset string))
  : Prop :=
  ∀ seq (c : cache), valid_seq g seq →
    match rec seq c with
    | Ok _ c' => c ⊆ c'
    | Raise _ _ => False
    | OutOfFuel => n ≤ unseen g c
    end.

(** The terminals that occur in production bodies: the columns of the
    LL(1) table apart from ['$']. *)
Definition used_terminals (g : Grammar) : gset string :=
  list_to_set (body_symbols g) ∖ list_to_set (non_terminals g).

(** Every cached FIRST set holds only ε and terminals of the bodies. *)
Definition first_wf (g : Grammar) (c : cache) : Prop :=
  ∀ k s x, c !! k = Some s → x ∈ s → x = "" ∨ x ∈ used_terminals g.

Definition rec_wf (g : Grammar)
  (rec : list string → M cache (gset string)) : Prop :=
  ∀ seq (c : cache), first_wf g c → (∀ x, x ∈ seq → x ∈ body_symbols g) →
    match rec seq c with
    | Ok r c' => first_wf g c' ∧ ∀ x, x ∈ r → x = "" ∨ x ∈ used_terminals g
    | Raise _ c' => first_wf g c'
    | OutOfFuel => True
    end.

(** A dict of sets as the set of its (key, element) pairs: the fixed-point
    iteration grows this set. *)
Definition pairs (f : cache) : gset (string * string) :=
  ⋃ ((λ '(k, s), set_map (pair k) s) <$> map_to_list f).

(** The universe of the FOLLOW sets: terminals of the bodies and ['$']. *)
Definition follow_universe (g : Grammar) : gset string :=
  used_terminals g ∪ {["$"]}.

(** All pairs that the FOLLOW cache can ever hold. *)
Definition follow_bound (g : Grammar) : gset (string * string) :=
  pairs (dict_fromkeys (non_terminals g) (follow_universe g)).

(** Fuel that suffices for every method of [Grammar]. *)
Definition enough_fuel (g : Grammar) : nat :=
  S (length (non_terminals g) + size (follow_bound g)).

(** The invariant of the fixed-point iteration: the FIRST sets are those
    computed beforehand, every non-terminal has a FOLLOW set, and the
    FOLLOW sets stay inside the finite universe. *)
Definition follow_inv (g : Grammar) (fc : cache) (st : caches) : Prop :=
  first_cache st = fc ∧
  (∀ nt, nt ∈ non_terminals g → nt ∈ dom (follow_cache st)) ∧
  pairs (follow_cache st) ⊆ follow_bound g.

(** One piece of a pass: the FOLLOW sets only grow, and the flag
    [changed] is set exactly when a set has really grown. *)
Definition grows (g : Grammar) (fc : cache) (st : caches) (changed : bool)
  (st' : caches)
    (changed' : bool) : Prop :=
  follow_inv g fc st' ∧
  pairs (follow_cache st) ⊆ pairs (follow_cache st') ∧
  ((changed' = changed ∧ st' = st) ∨
   (changed' = true ∧ pairs (follow_cache st) ⊂ pairs (follow_cache st'))).

(** The number of pairs that can still be added. *)
Definition room (g : Grammar) (st : caches) : nat :=
  size (follow_bound g ∖ pairs (follow_cache st)).

(** The first loop of [compute_follow]: FIRST of every non-terminal. *)
Definition ensure_first (g : Grammar) (fuel : nat) (l : list string)
  : M caches unit :=
  for_each l (λ nt, compute_first g fuel [nt] ;;; ret tt).

(** The state in which the fixed-point iteration starts. *)
Definition follow_start (g : Grammar) (st : caches) : caches :=
  set_follow_cache
    (<[axiom g := ∅ ∪ {["$"]}]> (dict_fromkeys (non_terminals g) ∅)) st.

(** [compute_follow] after its first loop. *)
Definition follow_rest (g : Grammar) (fuel : nat) (symbol : string)
  : M caches (gset string) :=
  if decide (symbol ∉ non_terminals g)
  then raise (ValueError (NotANonTerminal symbol))
  else
    follow_loop g fuel ;;;
    st <- get ;;
    match follow_cache st !! symbol with
    | None => raise (KeyError symbol)
    | Some fs => ret fs
    end.

Definition first_full (g : Grammar) (c : cache) : Prop :=
  ∀ nt, nt ∈ non_terminals g → nt ∈ dom c.

(** [m'] behaves as [m] wherever [m] does not run out of fuel. *)
Definition refines {S A} (m m' : M S A) : Prop :=
  ∀ s, m s ≠ OutOfFuel → m' s = m s.

(** The four queries of the scenario, one after the other on the same
    [Grammar] instance. *)
Definition expr_queries (g : Grammar) (fuel : nat)
  : M caches (gset string * gset string * gset string * gset string) :=
  a <- compute_first g fuel ["E"] ;;
  b <- compute_first g fuel ["X"] ;;
  c <- compute_follow g fuel "E" ;;
  d <- compute_follow g fuel "X" ;;
  ret (a, b, c, d).

Definition expr_check (fuel : nat) (nts : list string) : bool :=
  let g := expr_grammar_in nts in
  bool_decide
    (value (compute_first g fuel ["E"] (fresh g)) = Some {["i"; "("]} ∧
     value (compute_first g fuel ["X"] (fresh g)) = Some {[""; "+"]} ∧
     value (compute_follow g fuel "E" (fresh g)) = Some {["$"; ")"]} ∧
     value (compute_follow g fuel "X" (fresh g)) = Some {["$"; ")"]} ∧
     value (expr_queries g fuel (fresh g)) =
       Some ({["i"; "("]}, {[""; "+"]}, {["$"; ")"]}, {["$"; ")"]})).

(** A state of the grammar S -> aB; B -> b in which the iteration starts:
    FIRST computed, FOLLOW(S) = {$}, FOLLOW(B) empty. *)
Definition ab_start : caches :=
  {| first_cache := {["S" := {["a"]}; "B" := {["b"]}]};
     follow_cache := {["S" := {["$"]}; "B" := ∅]} |}.

(** The LL(1) table of S -> aB; B -> b. *)
Definition ab_table : LL1Table :=
  set_cell "B" "b" "b"
    (set_cell "S" "a" "aB"
       {| table_terminals := {["a"; "b"; "$"]};
          table_non_terminals := {["S"; "B"]};
          cells := gset_to_gmap (gset_to_gmap None {["a"; "b"; "$"]})
                     {["S"; "B"]} |}).

(** The tree that the scenario expects for input [ab]. *)
Definition ab_tree : ParseTree :=
  Node "S" [Node "a" []; Node "B" [Node "b" []]].

(** The table as [get_ll1_table] creates it, before any cell is filled. *)
Definition empty_table (g : Grammar) : LL1Table :=
  {| table_terminals := follow_universe g;
     table_non_terminals := list_to_set (non_terminals g);
     cells := gset_to_gmap (gset_to_gmap None (follow_universe g))
                (list_to_set (non_terminals g)) |}.

(** A table of the grammar: its rows are the non-terminals, its columns the
    terminals of the bodies and ['$'], and every row has every column. *)
Definition table_ok (g : Grammar) (tb : LL1Table) : Prop :=
  table_terminals tb = follow_universe g ∧
  table_non_terminals tb = list_to_set (non_terminals g) ∧
  ∀ h, h ∈ non_terminals g →
    ∃ row, cells tb !! h = Some row ∧ dom row = follow_universe g.

(** Filling cells one after the other; [None] once a cell is met that is
    already filled. *)
Fixpoint assign (cs : list (string * string * string))
    (table : option LL1Table) : option LL1Table :=
  match cs, table with
  | [], _ => table
  | _, None => None
  | (h, t, b) :: cs', Some tb =>
      match cell_get tb h t with
      | Some _ => None
      | None => assign cs' (Some (set_cell h t b tb))
      end
  end.

(** The cells that one production body asks for, in the order of the two
    loops of [get_ll1_table]: FIRST, then FOLLOW if the body is nullable.
    The FIRST set is read from the cache, the FOLLOW set from
    [follow_cache]. *)
Definition prod_cells (g : Grammar) (st : caches) (head prod : string)
  : list (string * string * string) :=
  match first_cached g (first_cache st) (chars prod) with
  | Some (inr first_alpha) =>
      ((λ t, (head, t, prod)) <$> elements (first_alpha ∖ {[""]})) ++
      (if decide ("" ∈ first_alpha)
       then (λ t, (head, t, prod))
              <$> elements (default ∅ (follow_cache st !! head))
       else [])
  | _ => []
  end.

(** All the cell assignments of a grammar, in order. *)
Definition cell_assignments (g : Grammar) (st : caches)
  : list (string * string * string) :=
  '(head, prods) ← productions g;
  prod ← prods;
  prod_cells g st head prod.

(** The caches as the first loop of [get_ll1_table] leaves them: FIRST of
    every non-terminal cached, FOLLOW a fixed point of the pass. *)
Definition caches_complete (g : Grammar) (st : caches) : Prop :=
  first_full g (first_cache st) ∧ first_wf g (first_cache st) ∧
  follow_inv g (first_cache st) st ∧
  follow_pass g st = Ok false st.

(** The local [table] of [get_ll1_table], while there is one. *)
Definition table_ok_opt (g : Grammar) (t : option LL1Table) : Prop :=
  ∀ tb, t = Some tb → table_ok g tb.

(** The first loop of [get_ll1_table]. *)
Definition ensure_follow (g : Grammar) (fuel : nat) (l : list string)
  : M caches unit :=
  for_each l (λ nt, compute_follow g fuel nt ;;; ret tt).




(** ** Predicates of the further properties *)

(** A symbol that the FIRST cache records as deriving ε. *)
Definition nullable_in (g : Grammar) (c : cache) (s : string) : Prop :=
  (s ∉ terminals g) ∧ ∃ fs, c !! s = Some fs ∧ "" ∈ fs.

(** The FOLLOW rules at one occurrence of [A] in a body of [head], with
    [omega] the symbols after it: FOLLOW(A) has FIRST*(ω) without ε, and
    FOLLOW(head) as well when ω can derive ε. *)
Definition closed_at (g : Grammar) (st : caches) (head A : string)
    (omega : list string) : Prop :=
  A ∈ non_terminals g →
  ∃ fo fA,
    first_omega_loop g omega ∅ st = Ok fo st ∧
    follow_cache st !! A = Some fA ∧
    fo ∖ {[""]} ⊆ fA ∧
    ("" ∈ fo → ∃ fH, follow_cache st !! head = Some fH ∧ fH ⊆ fA).

(** S -> a; $ -> a: a grammar that the constructor accepts although it
    declares ['$'] as a non-terminal. *)
Definition marker_grammar : Grammar :=
  {| terminals := {["a"]};
     non_terminals := ["S"; "$"];
     productions := [("S", ["a"]); ("$", ["a"])];
     axiom := "S" |}.

(** The shape that the constructor of [LL1Table] gives to [cells] and
    that [add_cell] keeps: one row for each non-terminal, one column for
    each terminal in every row, no symbol on both sides, and in the filled
    cells only bodies made of symbols of the table. *)
Record table_inv (self : LL1Table) : Prop := {
  inv_disjoint : table_terminals self ∩ table_non_terminals self = ∅;
  inv_rows : dom (cells self) = table_non_terminals self;
  inv_columns : ∀ h row, cells self !! h = Some row →
                         dom row = table_terminals self;
  inv_bodies : ∀ h t b x,
    cell_get self h t = Some b → x ∈ chars b →
    x ∈ table_terminals self ∪ table_non_terminals self
}.

(** The third check of [add_cell]. *)
Definition body_declared (self : LL1Table) (cell_body : string) : Prop :=
  ∀ x, x ∈ chars cell_body →
       x ∈ table_terminals self ∪ table_non_terminals self.

(** Derivations: [derives rule ss xs] when the sentential form [xs] is
    obtained from [ss] by replacing, any number of times, one symbol [A]
    by the symbols of a body [b] with [rule A b]. *)
Inductive derives (rule : string → string → Prop) (ss : list string)
  : list string → Prop :=
| derives_refl : derives rule ss ss
| derives_step pre A b post :
    derives rule ss (pre ++ A :: post) → rule A b →
    derives rule ss (pre ++ chars b ++ post).

(** The rules that [analyze] applies: [A] is not handled as a terminal and
    some cell of its row holds [b]. *)
Definition table_rule (self : LL1Table) (A b : string) : Prop :=
  ¬ (A ∈ table_terminals self ∨ A = "$") ∧
  ∃ t, cell_get self A t = Some b.

(** The productions of a grammar. *)
Definition grammar_rule (g : Grammar) (A b : string) : Prop :=
  ∃ prods, (A, prods) ∈ productions g ∧ b ∈ prods.

(** Loop invariant of [analyze]: the input read so far, followed by the
    symbol stack from its top down to the end-marker, is a sentential form
    derived from [start]; once the end-marker at the bottom has been
    matched, the stack is empty and the input read ends with ['$']. *)
Definition sound_inv (self : LL1Table) (start : string)
    (input : list string) (l : locals) : Prop :=
  i l ≤ length input ∧
  (∀ x, x ∈ take (i l) input → x ∈ table_terminals self ∨ x = "$") ∧
  ((∃ rest, stack l = "$" :: rest ∧
            derives (table_rule self) [start]
              (take (i l) input ++ reverse rest))
   ∨ (stack l = [] ∧
      ∃ w, take (i l) input = w ++ ["$"] ∧
           derives (table_rule self) [start] w)).

(** Loop invariant of [analyze]: every symbol on the stack is a symbol of
    the table or the end-marker. *)
Definition stack_declared (self : LL1Table) (l : locals) : Prop :=
  ∀ x, x ∈ stack l →
       x ∈ table_terminals self ∪ table_non_terminals self ∨ x = "$".

(** Loop invariant of [analyze]: there is a node for every symbol of the
    stack. *)
Definition nodes_cover_stack (l : locals) : Prop :=
  length (stack l) ≤ length (tree_stack l).

(** FIRST, declaratively: [x] is ε and the sequence derives the empty
    word, or [x] is the first symbol of a sentential form that the
    sequence derives. *)
Definition first_of (g : Grammar) (seq : list string) (x : string) : Prop :=
  if decide (x = "") then derives (grammar_rule g) seq []
  else ∃ rest, derives (grammar_rule g) seq (x :: rest).

(** What justifies an element of the set that [compute_first] returns for
    a sentence: a derivation as in [first_of], or, when the empty string
    is itself declared as a terminal, a derivation of a sentential form
    that starts with that terminal (a set of strings cannot tell the two
    apart). *)
Definition first_of_sentence (g : Grammar) (seq : list string) (x : string)
  : Prop :=
  first_of g seq x
  ∨ ("" ∈ terminals g ∧ x = "" ∧
     ∃ rest, derives (grammar_rule g) seq ("" :: rest)).

(** Every element of a cached FIRST set is justified by a derivation. *)
Definition first_sound (g : Grammar) (c : cache) : Prop :=
  ∀ nt fs x, c !! nt = Some fs → x ∈ fs → first_of g [nt] x.

Definition rec_sound (g : Grammar)
  (rec : list string → M cache (gset string)) : Prop :=
  ∀ seq (c : cache), first_sound g c →
    match rec seq c with
    | Ok r c' => first_sound g c' ∧ ∀ x, x ∈ r → first_of_sentence g seq x
    | Raise _ c' => first_sound g c'
    | OutOfFuel => True
    end.

(** FOLLOW, declaratively: [x] is the end-marker and [A] ends a
    sentential form derived from the axiom, or [x] comes right after [A]
    in a sentential form derived from some non-terminal.  When ['$'] is
    itself a symbol of the grammar, it can be in FOLLOW(A) for the second
    reason alone. *)
Definition follow_of (g : Grammar) (A x : string) : Prop :=
  (x = "$" ∧ ∃ pre, derives (grammar_rule g) [axiom g] (pre ++ [A]))
  ∨ (∃ h pre post,
       h ∈ non_terminals g ∧
       derives (grammar_rule g) [h] (pre ++ A :: x :: post)).

(** Every element of every cached FIRST and FOLLOW set is justified by a
    derivation. *)
Definition caches_sound (g : Grammar) (st : caches) : Prop :=
  first_sound g (first_cache st) ∧
  ∀ A fs x, follow_cache st !! A = Some fs → x ∈ fs → follow_of g A x.

(** * Lemmas and theorems *)

(** ** Grammar construction *)

Lemma check_body_None ts nts body :
  check_body ts nts body = None ↔ ∀ s, s ∈ body → s ∈ nts ∨ s ∈ ts.
Proof.
  induction body as [|s body IH]; simpl.
  - split; [intros _ s Hs; inversion Hs | done].
  - case_decide as Hd.
    + split; [done | intros H]. destruct (H s) as [?|?]; [left | | ]; tauto.
    + rewrite IH. split.
      * intros H x [Heq|Hx]%elem_of_cons; [subst x|by apply H].
        destruct (decide (s ∈ nts)); [by left |].
        destruct (decide (s ∈ ts)); [by right | tauto].
      * intros H x Hx. apply H. by right.
Qed.

Lemma check_rhs_None ts nts rhs :
  check_rhs ts nts rhs = None ↔
  ∀ r s, r ∈ rhs → s ∈ chars r → s ∈ nts ∨ s ∈ ts.
Proof.
  induction rhs as [|r rhs IH]; simpl.
  - split; [intros _ r s Hr; inversion Hr | done].
  - destruct (check_body ts nts (chars r)) eqn:Hb.
    + split; [done | intros H].
      assert (check_body ts nts (chars r) = None) as Hn; [|congruence].
      apply check_body_None. intros s Hs. apply (H r); [by left | done].
    + rewrite IH. rewrite check_body_None in Hb. split.
      * intros H r' s [Heq|Hr]%elem_of_cons Hs;
          [subst r'; by apply Hb | by apply (H r')].
      * intros H r' s Hr Hs. apply (H r'); [by right | done].
Qed.

Lemma check_productions_None ts nts items :
  check_productions ts nts items = None ↔
  ∀ nt rhs, (nt, rhs) ∈ items →
    rhs ≠ [] ∧ ∀ r s, r ∈ rhs → s ∈ chars r → s ∈ nts ∨ s ∈ ts.
Proof.
  induction items as [|[nt rhs] items IH]; simpl.
  - split; [intros _ nt rhs H; inversion H | done].
  - destruct rhs as [|r0 rhs0].
    + split; [done | intros H]. destruct (H nt []) as [? _]; [by left | done].
    + destruct (check_rhs ts nts (r0 :: rhs0)) eqn:Hc.
      * split; [done | intros H].
        assert (check_rhs ts nts (r0 :: rhs0) = None) as Hn; [|congruence].
        apply check_rhs_None. apply (H nt (r0 :: rhs0)). by left.
      * rewrite IH. rewrite check_rhs_None in Hc. split.
        -- intros H nt' rhs' [Heq|Hin]%elem_of_cons; [|by apply (H nt')].
           inversion Heq; subst. by split.
        -- intros H nt' rhs' Hin. apply (H nt'). by right.
Qed.

Lemma Grammar_init_inr ts nts prods ax g st :
  Grammar_init ts nts prods ax = inr (g, st) →
  g = {| terminals := ts; non_terminals := nts;
         productions := prods; axiom := ax |} ∧
  st = {| first_cache := ∅; follow_cache := dict_fromkeys nts ∅ |} ∧
  valid g.
Proof.
  unfold Grammar_init. intros H.
  repeat case_decide; try done.
  destruct (check_productions ts nts prods) eqn:Hc; [done|].
  inversion H; subst. split; [done|]. split; [done|].
  rewrite check_productions_None in Hc.
  constructor; simpl.
  - intros s Hs Hn. set_solver.
  - done.
  - intros s. rewrite <- (elem_of_list_to_set (C:=gset string)).
    rewrite <- (elem_of_list_to_set (C:=gset string) _ prods.*1). set_solver.
  - intros nt rhs Hin. by destruct (Hc nt rhs Hin).
  - intros nt rhs r s Hin. destruct (Hc nt rhs Hin) as [_ H']. apply H'.
Qed.

Lemma valid_Grammar_init g :
  valid g →
  Grammar_init (terminals g) (non_terminals g) (productions g) (axiom g)
  = inr (g, {| first_cache := ∅;
               follow_cache := dict_fromkeys (non_terminals g) ∅ |}).
Proof.
  intros [Hd Ha Hk Hn Hb]. unfold Grammar_init.
  case_decide as H1. { exfalso. apply H1. set_solver. }
  case_decide as H2; [done|].
  case_decide as H3. { exfalso. apply H3. set_solver. }
  destruct (check_productions _ _ _) eqn:Hc.
  - assert (check_productions (terminals g) (non_terminals g) (productions g) = None)
      as Hnone; [|congruence].
    apply check_productions_None. intros nt rhs Hin. split; [by eapply Hn|].
    intros r s. by apply (Hb nt rhs).
  - by destruct g.
Qed.

(** A grammar that passes the constructor's checks is valid; the checks
    compute, so this settles validity of a concrete grammar. *)
Lemma init_valid g :
  is_inr (Grammar_init (terminals g) (non_terminals g) (productions g) (axiom g))
  = true →
  valid g.
Proof.
  destruct (Grammar_init _ _ _ _) as [|[g' st]] eqn:H; [done|]. intros _.
  apply Grammar_init_inr in H as (-> & _ & H). by destruct g.
Qed.

Lemma check_body_Some ts nts body e :
  check_body ts nts body = Some e →
  ∃ s, s ∈ body ∧ (s ∉ nts) ∧ (s ∉ ts).
Proof.
  induction body as [|s body IH]; simpl; [done|].
  case_decide as Hd.
  - intros _. exists s. split; [by left | tauto].
  - intros (x & Hx & ?)%IH. exists x. split; [by right | done].
Qed.

Lemma check_rhs_Some ts nts rhs e :
  check_rhs ts nts rhs = Some e →
  ∃ r s, r ∈ rhs ∧ s ∈ chars r ∧ (s ∉ nts) ∧ (s ∉ ts).
Proof.
  induction rhs as [|r rhs IH]; simpl; [done|].
  destruct (check_body ts nts (chars r)) eqn:Hb.
  - intros _. apply check_body_Some in Hb as (s & ? & ?).
    exists r, s. split; [by left | done].
  - intros (r' & s & ? & ?)%IH. exists r', s. split; [by right | done].
Qed.

Lemma check_productions_Some ts nts items e :
  check_productions ts nts items = Some e →
  (∃ nt, (nt, []) ∈ items) ∨
  (∃ nt rhs r s, (nt, rhs) ∈ items ∧ r ∈ rhs ∧ s ∈ chars r ∧ (s ∉ nts) ∧ (s ∉ ts)).
Proof.
  induction items as [|[nt rhs] items IH]; simpl; [done|].
  destruct rhs as [|r0 rhs0].
  - intros _. left. exists nt. by left.
  - destruct (check_rhs ts nts (r0 :: rhs0)) eqn:Hc.
    + intros _. right. apply check_rhs_Some in Hc as (r & s & ? & ?).
      exists nt, (r0 :: rhs0), r, s. split; [by left | done].
    + intros [[nt' ?]|(nt' & rhs' & r & s & ? & ?)]%IH.
      * left. exists nt'. by right.
      * right. exists nt', rhs', r, s. split; [by right | done].
Qed.

(** C8: the constructor raises [ValueError] exactly when the terminals and
    non-terminals overlap, or the axiom is not a non-terminal, or the keys of
    the production map are not the non-terminals, or a body uses an
    undeclared symbol, or a non-terminal has no bodies; otherwise it builds
    the grammar from its four arguments, with empty caches. *)
Theorem Grammar_init_raises_iff ts nts prods ax :
  ((∃ e, Grammar_init ts nts prods ax = inl (ValueError e)) ↔
   construction_error ts nts prods ax) ∧
  (¬ construction_error ts nts prods ax →
   Grammar_init ts nts prods ax =
   inr ({| terminals := ts; non_terminals := nts;
           productions := prods; axiom := ax |},
        {| first_cache := ∅; follow_cache := dict_fromkeys nts ∅ |})).
Proof.
  assert (construction_error ts nts prods ax →
          ∀ p, Grammar_init ts nts prods ax ≠ inr p) as Hno.
  { intros Hc [g st] (-> & _ & [Hd Ha Hk Hn Hb])%Grammar_init_inr.
    simpl in *.
    destruct Hc as [(s & ? & ?)|[?|[Hne|[(nt & rhs & r & s & ? & ? & ? & ? & ?)|(nt & ? & ?)]]]].
    - by apply (Hd s).
    - done.
    - apply Hne. apply set_eq. intros s.
      rewrite !elem_of_list_to_set. apply Hk.
    - destruct (Hb nt rhs r s); done.
    - by apply (Hn nt []). }
  assert ((∃ e, Grammar_init ts nts prods ax = inl (ValueError e)) →
          construction_error ts nts prods ax) as Hyes.
  { intros [e He]. unfold Grammar_init in He. unfold construction_error.
    case_decide as H1.
    { left. apply set_choose_L in H1 as [s Hs]. exists s.
      apply elem_of_intersection in Hs as [? ?%elem_of_list_to_set]. done. }
    case_decide as H2; [by right; left|].
    case_decide as H3; [by right; right; left|].
    destruct (check_productions ts nts prods) eqn:Hc; [|done].
    apply check_productions_Some in Hc as [[nt Hnt]|Hbad].
    - right; right; right; right. exists nt. split; [|done].
      assert (nt ∈ prods.*1) as Hk.
      { apply list_elem_of_fmap. by exists (nt, []). }
      rewrite <- (elem_of_list_to_set (C:=gset string)) in Hk.
      rewrite <- H3 in Hk. by apply elem_of_list_to_set in Hk.
    - by right; right; right; left. }
  split; [split; [done|]|].
  - intros Hc. specialize (Hno Hc).
    unfold Grammar_init in *. repeat case_decide; eauto.
    destruct (check_productions ts nts prods); eauto.
    by destruct (Hno _ eq_refl).
  - intros Hc. unfold Grammar_init in *.
    repeat case_decide; try (destruct Hc; apply Hyes; eauto; fail).
    destruct (check_productions ts nts prods) eqn:Hcp; [|done].
    destruct Hc; apply Hyes; eauto.
Qed.

(** ** The table-driven parser *)

(** [analyze] only reads [self]. *)
Lemma analyze_step_frame input l self s :
  state_of (analyze_step input l self) = Some s → s = self.
Proof.
  unfold analyze_step, bind, get, ret, raise.
  repeat (case_match || case_decide); simpl; congruence.
Qed.

Lemma analyze_loop_frame fuel input l self s :
  state_of (analyze_loop fuel input l self) = Some s → s = self.
Proof.
  revert l. induction fuel as [|fuel IH]; intros l; simpl;
    case_decide; unfold ret; simpl; try congruence.
  unfold bind. destruct (analyze_step input l self) as [l' s'| e s' |] eqn:Hs;
    simpl; try done.
  - assert (s' = self) as -> by (eapply analyze_step_frame; by rewrite Hs).
    apply IH.
  - intros [= <-]. eapply analyze_step_frame. by rewrite Hs.
Qed.

Lemma analyze_frame fuel input start self s :
  state_of (analyze fuel input start self) = Some s → s = self.
Proof.
  unfold analyze, bind.
  destruct (analyze_loop _ _ _ self) as [l' s'| e s' |] eqn:Hl; simpl; try done.
  - assert (s' = self) as -> by (eapply analyze_loop_frame; by rewrite Hl).
    unfold raise, ret. repeat (case_match || case_decide); simpl; congruence.
  - intros [= <-]. eapply analyze_loop_frame. by rewrite Hl.
Qed.

Lemma push_symbols_spec syms l cs :
  let ids := seq (length (store l)) (length syms) in
  push_symbols syms l cs =
  ({| stack := stack l ++ syms;
      tree_stack := tree_stack l ++ ids;
      i := i l;
      store := store l ++ (new_node <$> syms) |},
   reverse ids ++ cs).
Proof.
  revert l cs. induction syms as [|sym syms IH]; intros l cs; simpl.
  - rewrite !app_nil_r. by destruct l.
  - rewrite IH. simpl. rewrite length_app. simpl.
    rewrite Nat.add_1_r, reverse_cons, <- !app_assoc. done.
Qed.

(** What a successful iteration does to the local variables: it either
    matches the top of the stack against the current symbol, or replaces a
    non-terminal by the body found in the table. *)
Lemma analyze_step_Ok input l self l' s :
  analyze_step input l self = Ok l' s →
  ∃ stackTop current currentSymbol,
    last (stack l) = Some stackTop ∧
    last (tree_stack l) = Some current ∧
    input !! i l = Some currentSymbol ∧
    (((stackTop ∈ table_terminals self ∨ stackTop = "$") ∧
      stackTop = currentSymbol ∧
      stack l' = removelast (stack l) ∧
      tree_stack l' = removelast (tree_stack l) ∧
      i l' = i l + 1 ∧
      store l' = store l)
     ∨
     (¬ (stackTop ∈ table_terminals self ∨ stackTop = "$") ∧
      ∃ production,
        let syms := reverse (chars production) in
        let ids := seq (length (store l)) (length syms) in
        cell_get self stackTop currentSymbol = Some production ∧
        stack l' = removelast (stack l) ++ syms ∧
        tree_stack l' = removelast (tree_stack l) ++ ids ++ [current] ∧
        i l' = i l ∧
        store l' = set_children current (reverse ids)
                     (store l ++ (new_node <$> syms)))).
Proof.
  unfold analyze_step, bind, get, ret, raise.
  destruct (last (stack l)) as [stackTop|]; [|done].
  destruct (last (tree_stack l)) as [current|]; [|done].
  destruct (input !! i l) as [cur|]; [|done].
  intros H. exists stackTop, current, cur. do 3 (split; [done|]).
  case_decide as Ht.
  - case_decide; [|done]. inversion H; subst. left. simpl. done.
  - case_decide; [|done].
    destruct (cell_get self stackTop cur) as [production|]; [|done].
    right. split; [done|]. exists production. simpl.
    assert ((if decide (production = "")
             then ({| stack := removelast (stack l);
                      tree_stack := removelast (tree_stack l);
                      i := i l; store := store l |}, [])
             else push_symbols (reverse (chars production))
                    {| stack := removelast (stack l);
                       tree_stack := removelast (tree_stack l);
                       i := i l; store := store l |} [])
            = push_symbols (reverse (chars production))
                {| stack := removelast (stack l);
                   tree_stack := removelast (tree_stack l);
                   i := i l; store := store l |} []) as Hp.
    { case_decide as He; [|done]. by rewrite He. }
    rewrite Hp, push_symbols_spec in H. simpl in H.
    inversion H; subst; simpl. rewrite app_nil_r, <- app_assoc. done.
Qed.

Lemma analyze_step_Raise input l self e s :
  analyze_step input l self = Raise e s →
  (∃ se, e = SyntaxError se) ∨
  (e = IndexError ∧
   ((stack l ≠ [] ∧ tree_stack l = []) ∨ (length input ≤ i l)%nat)).
Proof.
  unfold analyze_step, bind, get, ret, raise.
  destruct (last (stack l)) as [stackTop|] eqn:Hs; [|intros [= <- <-]; eauto].
  destruct (last (tree_stack l)) as [current|] eqn:Ht.
  - destruct (input !! i l) as [cur|] eqn:Hi.
    + repeat (case_match || case_decide); intros [= <- <-]; eauto.
    + intros [= <- <-]. right. split; [done|]. right.
      by apply lookup_ge_None.
  - intros [= <- <-]. right. split; [done|]. left.
    apply last_None in Ht. split; [|done]. intros Hn. by rewrite Hn in Hs.
Qed.

(** Loop invariants of the [while] loop. *)
Section LoopInvariant.
Variables (P : locals → Prop) (input : list string) (self : LL1Table).
Hypothesis step_preserves : ∀ l l' s,
  P l → i l < length input → analyze_step input l self = Ok l' s → P l'.

Lemma analyze_loop_Ok fuel l l' s :
  P l → analyze_loop fuel input l self = Ok l' s →
  P l' ∧ (length input ≤ i l')%nat.
Proof using step_preserves.
  revert l. induction fuel as [|fuel IH]; intros l Hl; simpl;
    case_decide as Hi; unfold ret; try done;
    try (intros [= <- <-]; split; [done | lia]).
  unfold bind.
  destruct (analyze_step input l self) as [l1 s1| |] eqn:Hs; try done.
  assert (s1 = self) as -> by (eapply analyze_step_frame; by rewrite Hs).
  apply IH. by eapply step_preserves.
Qed.

Lemma analyze_loop_Raise fuel l e s :
  P l → analyze_loop fuel input l self = Raise e s →
  ∃ l0, P l0 ∧ i l0 < length input ∧ analyze_step input l0 self = Raise e s.
Proof using step_preserves.
  revert l. induction fuel as [|fuel IH]; intros l Hl; simpl;
    case_decide as Hi; unfold ret; try done.
  unfold bind.
  destruct (analyze_step input l self) as [l1 s1|e1 s1|] eqn:Hs; try done.
  - assert (s1 = self) as -> by (eapply analyze_step_frame; by rewrite Hs).
    apply IH. by eapply step_preserves.
  - intros [= <- <-]. by exists l.
Qed.
End LoopInvariant.

Lemma marker_at_bottom_step input self l l' s :
  "$" ∉ input →
  marker_at_bottom l → i l < length input →
  analyze_step input l self = Ok l' s → marker_at_bottom l'.
Proof.
  intros Hin [[rest Hst] Hlen] _ Hstep.
  apply analyze_step_Ok in Hstep
    as (top & cur & sym & Htop & Hcur & Hsym & Hcase).
  apply last_Some in Htop as [s0 Hs0]. apply last_Some in Hcur as [t0 Ht0].
  assert (top ≠ "$" → ∃ s1, s0 = "$" :: s1) as Hbottom.
  { intros Hne. rewrite Hs0 in Hst. destruct s0 as [|x s0]; simpl in Hst.
    - by inversion Hst.
    - inversion Hst; subst. eauto. }
  rewrite Hs0, Ht0, !length_app in Hlen. simpl in Hlen.
  destruct Hcase as [(_ & -> & Hs & Ht & _ & _)|(Hnt & prod & _ & Hs & Ht & _ & _)].
  - rewrite Hs0, removelast_last in Hs. rewrite Ht0, removelast_last in Ht.
    destruct Hbottom as [s1 ->].
    { intros ->. apply Hin. by eapply list_elem_of_lookup_2. }
    split; [rewrite Hs; eauto|]. rewrite Hs, Ht. simpl in *. lia.
  - rewrite Hs0, removelast_last in Hs. rewrite Ht0, removelast_last in Ht.
    destruct Hbottom as [s1 ->]; [tauto|].
    split; [rewrite Hs; simpl; eauto|].
    rewrite Hs, Ht, !length_app, length_seq. simpl in *. lia.
Qed.

(** A run on an input without ['$'] never returns a tree, and whenever it
    stops it stops with [SyntaxError]. *)
Lemma analyze_without_marker fuel input start self :
  "$" ∉ chars input →
  analyze fuel input start self = OutOfFuel ∨
  ∃ e, analyze fuel input start self = Raise (SyntaxError e) self.
Proof.
  intros Hin. unfold analyze, bind.
  set (l0 := {| stack := ["$"; start] |}).
  assert (marker_at_bottom l0) as H0.
  { split; [by exists [start] | simpl; lia]. }
  destruct (analyze_loop fuel (chars input) l0 self) as [l s|e s|] eqn:Hl;
    [| |by left]; right.
  - assert (s = self) as -> by (eapply analyze_loop_frame; by rewrite Hl).
    eapply (analyze_loop_Ok marker_at_bottom) in Hl as [[[rest Hst] _] _];
      [|intros; by eapply marker_at_bottom_step|done].
    case_decide as Hne; [by eexists|]. by rewrite Hst in Hne.
  - assert (s = self) as -> by (eapply analyze_loop_frame; by rewrite Hl).
    eapply (analyze_loop_Raise marker_at_bottom) in Hl
      as (l1 & [[rest Hst] Hlen] & Hi & Hstep);
      [|intros; by eapply marker_at_bottom_step|done].
    apply analyze_step_Raise in Hstep as [[se ->]|[_ [[_ Ht]|Hge]]].
    + by eexists.
    + rewrite Hst, Ht in Hlen. simpl in Hlen. lia.
    + lia.
Qed.

Lemma cyclic_table_built :
  match LL1Table_init {["A"]} {["a"]} with
  | inr t => add_cell "A" "a" "A" t = Ok tt cyclic_table
  | inl _ => False
  end.
Proof. vm_compute. reflexivity. Qed.

Lemma cyclic_step l :
  stack l = ["$"; "A"] → i l = 0 → tree_stack l ≠ [] →
  ∃ l', analyze_step ["a"] l cyclic_table = Ok l' cyclic_table ∧
        stack l' = ["$"; "A"] ∧ i l' = 0 ∧ tree_stack l' ≠ [].
Proof.
  intros Hs Hi Ht. unfold analyze_step, bind, get, ret.
  rewrite Hs, Hi. simpl.
  destruct (last (tree_stack l)) as [cur|] eqn:Hl.
  2:{ by apply last_None in Hl. }
  eexists. split; [reflexivity|]. simpl. split; [done|]. split; [done|].
  intros Hn. by apply app_eq_nil in Hn as [_ ?].
Qed.

Lemma cyclic_loop fuel l :
  stack l = ["$"; "A"] → i l = 0 → tree_stack l ≠ [] →
  analyze_loop fuel ["a"] l cyclic_table = OutOfFuel.
Proof.
  revert l. induction fuel as [|fuel IH]; intros l Hs Hi Ht; simpl;
    (case_decide as Hlt; [|simpl in Hlt; lia]); [done|].
  destruct (cyclic_step l Hs Hi Ht) as (l' & Hstep & ? & ? & ?).
  unfold bind. rewrite Hstep. by apply IH.
Qed.

Lemma set_children_lookup_ne n m cs st :
  n ≠ m → set_children n cs st !! m = st !! m.
Proof.
  intros Hne. unfold set_children. destruct (st !! n); [|done].
  by apply list_lookup_insert_ne.
Qed.

Lemma zero_not_in_seq a n : 0 < a → 0 ∉ seq a n.
Proof. intros Ha Hin. apply elem_of_seq in Hin. lia. Qed.

Lemma marker_node_kept_step input self l l' s :
  marker_node_kept l → analyze_step input l self = Ok l' s →
  marker_node_kept l'.
Proof.
  intros (rest & Ht & Hnotin & Hroot & Hlen) Hstep.
  apply analyze_step_Ok in Hstep
    as (top & cur & sym & Htop & Hcur & Hsym & Hcase).
  apply last_Some in Htop as [s0 Hs0]. apply last_Some in Hcur as [t0 Ht0].
  rewrite Hs0, length_app in Hlen. simpl in Hlen.
  assert (∃ r0, t0 = 0 :: r0 ∧ rest = r0 ++ [cur]) as (r0 & -> & ->).
  { rewrite Ht0 in Ht. destruct t0 as [|x t0]; simpl in Ht.
    - inversion Ht; subst. simpl in Hlen. lia.
    - inversion Ht; subst. eauto. }
  rewrite length_app in Hlen. simpl in Hlen.
  assert (cur ≠ 0) as Hcur0.
  { intros ->. apply Hnotin. apply elem_of_app. right. by left. }
  assert (0 ∉ r0) as Hr0.
  { intros Hin. apply Hnotin. apply elem_of_app. by left. }
  assert (0 < length (store l)) as Hpos.
  { by eapply lookup_lt_Some. }
  rewrite Hs0, Ht0, !removelast_last in Hcase.
  destruct Hcase as [(_ & _ & Hs & Htr & _ & Hst)|(_ & prod & _ & Hs & Htr & _ & Hst)].
  - exists r0. rewrite Hst, Hs. repeat split; try done. lia.
  - exists (r0 ++ seq (length (store l)) (length (reverse (chars prod))) ++ [cur]).
    split; [by rewrite Htr|]. split; [|split].
    + rewrite !elem_of_app, list_elem_of_singleton.
      intros [?|[Hin|?]]; [done| |done]. by eapply zero_not_in_seq.
    + rewrite Hst, set_children_lookup_ne by done.
      by rewrite lookup_app_l.
    + rewrite Hs, !length_app, length_seq. simpl. lia.
Qed.

(** Whenever [analyze] is started on a symbol that is neither a table
    terminal nor ['$'] and returns, the tree it returns is the bare node of
    the end-marker: [tree_stack[0]] is the node pushed for ['$'], not the
    one pushed for [start]. *)
Lemma analyze_returns_marker_node fuel input start self t s :
  start ∉ table_terminals self → start ≠ "$" →
  analyze fuel input start self = Ok t s →
  t = Node "$" [].
Proof.
  intros Hnt Hne. unfold analyze, bind.
  set (l0 := {| stack := ["$"; start] |}).
  destruct (analyze_loop fuel (chars input) l0 self) as [l s1| |] eqn:Hl;
    [|done..].
  assert (stack l = [] → marker_node_kept l) as Hkept.
  { destruct fuel as [|fuel]; simpl in Hl; case_decide as Hi.
    - done.
    - unfold ret in Hl. by inversion Hl; subst.
    - unfold bind in Hl.
      destruct (analyze_step (chars input) l0 self) as [l1 s2| |] eqn:Hs;
        [|done..].
      assert (s2 = self) as -> by (eapply analyze_step_frame; by rewrite Hs).
      eapply (analyze_loop_Ok marker_node_kept) in Hl as [? _]; [done| |].
      { intros; by eapply marker_node_kept_step. }
      apply analyze_step_Ok in Hs
        as (top & cur & sym & Htop & Hcur & Hsym & Hcase).
      simpl in Htop, Hcur. inversion Htop; inversion Hcur; subst.
      destruct Hcase as [([?|?] & _)|(_ & prod & _ & Hs & Htr & _ & Hst)];
        [done..|].
      simpl in *.
      exists (seq 2 (length (reverse (chars prod))) ++ [1]).
      split; [done|]. split; [|split].
      + rewrite elem_of_app, list_elem_of_singleton.
        intros [Hin|?]; [|done]. eapply zero_not_in_seq; [|done]. lia.
      + rewrite Hst, set_children_lookup_ne by done. done.
      + rewrite Hs, !length_app, length_seq. simpl. lia.
    - unfold ret in Hl. by inversion Hl; subst. }
  case_decide as Hstack; [done|].
  destruct Hkept as (rest & Ht & _ & Hroot & _).
  { by destruct (stack l). }
  rewrite Ht. simpl. rewrite Hroot. simpl. unfold ret. congruence.
Qed.

(** ** FIRST *)

Lemma unseen_mono g (c c' : cache) : dom c ⊆ dom c' → unseen g c' ≤ unseen g c.
Proof. intros H. apply subseteq_size. set_solver. Qed.

Lemma unseen_insert g (c : cache) symbol v :
  symbol ∈ non_terminals g → symbol ∉ dom c →
  unseen g (<[symbol := v]> c) < unseen g c.
Proof.
  intros Hin Hnot. apply subset_size. rewrite dom_insert_L.
  split; [set_solver|]. intros Hsub. specialize (Hsub symbol). set_solver.
Qed.

Lemma size_list_to_set_le (l : list string) :
  size (list_to_set l : gset string) ≤ length l.
Proof.
  induction l as [|x l IH].
  - by rewrite list_to_set_nil, size_empty.
  - rewrite list_to_set_cons, size_union_alt, size_singleton. simpl.
    apply le_n_S. etrans; [|apply IH]. apply subseteq_size. set_solver.
Qed.

Lemma unseen_le g (c : cache) : unseen g c ≤ length (non_terminals g).
Proof.
  unfold unseen. etrans; [|apply size_list_to_set_le].
  apply subseteq_size. set_solver.
Qed.

Lemma getitem_Some {V} (d : list (string * V)) k v :
  getitem d k = Some v → (k, v) ∈ d.
Proof.
  induction d as [|[k' v'] d IH]; simpl; [done|].
  case_decide as Hk.
  - intros [= ->]. subst. by left.
  - intros H. right. by apply IH.
Qed.

Lemma getitem_is_Some {V} (d : list (string * V)) k :
  k ∈ d.*1 → is_Some (getitem d k).
Proof.
  induction d as [|[k' v'] d IH]; simpl.
  - intros H. inversion H.
  - intros [->|H]%elem_of_cons; case_decide; eauto. done.
Qed.

Lemma scan_cached_mono g (c c' : cache) seq fs o :
  c ⊆ c' → scan_cached g c seq fs = Some o → scan_cached g c' seq fs = Some o.
Proof.
  intros Hsub. revert fs. induction seq as [|symbol rest IH]; intros fs; simpl;
    [done|].
  repeat case_decide; try done.
  destruct (c !! symbol) as [v|] eqn:Hc; [|done].
  rewrite (lookup_weaken _ _ _ _ Hc Hsub).
  case_decide; [done|]. destruct rest; [done|]. apply IH.
Qed.

Lemma first_cached_mono g (c c' : cache) seq o :
  c ⊆ c' → first_cached g c seq = Some o → first_cached g c' seq = Some o.
Proof. destruct seq; [done|]. apply scan_cached_mono. Qed.

Lemma scan_cached_invalid g c seq fs e :
  scan_cached g c seq fs = Some (inl e) → ¬ valid_seq g seq.
Proof.
  revert fs. induction seq as [|symbol rest IH]; intros fs; simpl; [done|].
  repeat case_decide; try done.
  - destruct (c !! symbol); [|done]. case_decide; [done|].
    destruct rest as [|s rest]; [done|]. intros Hsc Hv. eapply IH; [done|].
    intros x Hx. apply Hv. by right.
  - intros _ Hv. destruct (Hv symbol); [by left|done..].
Qed.

(** With every symbol cached, [scan] only reads the cache. *)
Lemma scan_of_cached g rec c seq fs o :
  scan_cached g c seq fs = Some o →
  scan g rec seq fs c =
    match o with inr r => Ok r c | inl e => Raise e c end.
Proof.
  revert fs. induction seq as [|symbol rest IH]; intros fs; simpl.
  - by intros [= <-].
  - case_decide; [by intros [= <-]|].
    case_decide; [|by intros [= <-]].
    destruct (c !! symbol) as [v|] eqn:Hc; [|done].
    unfold bind, get, ret. destruct (decide (symbol ∈ dom c)) as [Hd|Hd].
    2:{ exfalso. apply Hd. apply elem_of_dom. eauto. }
    rewrite Hc. case_decide; [by intros [= <-]|].
    destruct rest; [by intros [= <-]|]. apply IH.
Qed.

Lemma first_of_cached g fuel c seq o :
  first_cached g c seq = Some o →
  _first g (S fuel) seq c =
    match o with inr r => Ok r c | inl e => Raise e c end.
Proof.
  destruct seq as [|s seq]; simpl.
  - by intros [= <-].
  - apply (scan_of_cached g (_first g fuel) c (s :: seq)).
Qed.

Section FirstSpec.
Variable g : Grammar.
Hypothesis g_valid : valid g.

Lemma fill_spec n rec symbol prods (c : cache) :
  rec_ok g n rec →
  (∀ r, r ∈ prods → valid_seq g (chars r)) →
  symbol ∈ dom c →
  match fill rec symbol prods c with
  | Ok _ c' =>
      dom c ⊆ dom c' ∧
      ∀ k v, k ≠ symbol → c !! k = Some v → c' !! k = Some v
  | Raise _ _ => False
  | OutOfFuel => n ≤ unseen g c
  end.
Proof.
  intros Hrec. revert c.
  induction prods as [|p prods IH]; intros c Hv Hdom; simpl.
  - done.
  - unfold bind, get.
    specialize (Hrec (chars p) c (Hv p ltac:(by left))).
    destruct (rec (chars p) c) as [r c1| |]; [|done..].
    assert (dom c ⊆ dom c1) as Hd1 by by apply subseteq_dom.
    destruct (c1 !! symbol) as [old|] eqn:Hold.
    2:{ apply not_elem_of_dom in Hold. set_solver. }
    unfold put.
    specialize (IH (<[symbol := old ∪ r]> c1)
                  (λ r Hr, Hv r ltac:(by right))).
    destruct (fill rec symbol prods _) as [[] c2| |].
    + destruct IH as [Hd2 Hk]; [set_solver|]. split.
      * rewrite dom_insert_L in Hd2. set_solver.
      * intros k v Hne Hkv. apply Hk; [done|].
        rewrite lookup_insert_ne by done. by eapply lookup_weaken.
    + apply IH. set_solver.
    + etrans; [apply IH; set_solver|]. apply unseen_mono.
      rewrite dom_insert_L. set_solver.
Qed.

Lemma scan_spec n seq fs (c : cache) :
  rec_ok g n (_first g n) →
  match scan g (_first g n) seq fs c with
  | Ok r c' => c ⊆ c' ∧ scan_cached g c' seq fs = Some (inr r)
  | Raise e c' => c ⊆ c' ∧ scan_cached g c' seq fs = Some (inl e)
  | OutOfFuel => S n ≤ unseen g c
  end.
Proof.
  intros Hrec. revert fs c.
  induction seq as [|symbol rest IH]; intros fs c; simpl.
  - done.
  - destruct (decide (symbol ∈ terminals g)); [done|].
    destruct (decide (symbol ∈ non_terminals g)) as [Hnt|]; [|done].
    unfold bind, get.
    (* the cache after [symbol] has been looked up or computed *)
    assert (match (if decide (symbol ∈ dom c) then ret tt
                   else bind (put (<[symbol := ∅]> c))
                          (λ _, match getitem (productions g) symbol with
                                | None => raise (KeyError symbol)
                                | Some prods => fill (_first g n) symbol prods
                                end)) c with
            | Ok _ c1 => c ⊆ c1 ∧ symbol ∈ dom c1
            | Raise _ _ => False
            | OutOfFuel => S n ≤ unseen g c
            end) as Hfill.
    { destruct (decide (symbol ∈ dom c)) as [Hd|Hd]; [done|].
      unfold bind, put.
      destruct (getitem_is_Some (productions g) symbol) as [prods Hp].
      { by apply (valid_keys g g_valid). }
      rewrite Hp. apply getitem_Some in Hp.
      pose proof (fill_spec n (_first g n) symbol prods (<[symbol := ∅]> c)
                    Hrec) as Hf.
      destruct (fill _ symbol prods _) as [[] c1| |].
      - destruct Hf as [Hd1 Hk].
        { intros r Hr x Hx. by eapply (valid_bodies g g_valid). }
        { set_solver. }
        split; [|rewrite dom_insert_L in Hd1; set_solver].
        apply map_subseteq_spec. intros k v Hkv. apply Hk.
        + intros ->. apply Hd. apply elem_of_dom. eauto.
        + rewrite lookup_insert_ne; [done|].
          intros ->. apply Hd. apply elem_of_dom. eauto.
      - apply Hf; [|set_solver].
        intros r Hr x Hx. by eapply (valid_bodies g g_valid).
      - apply Nat.le_succ_l. eapply Nat.le_lt_trans.
        + apply Hf; [|set_solver].
          intros r Hr x Hx. by eapply (valid_bodies g g_valid).
        + by apply unseen_insert. }
    unfold bind in Hfill.
    match type of Hfill with
    | match ?t with _ => _ end => destruct t as [[] c1| |]; [|done..]
    end.
    destruct Hfill as [Hsub Hdom].
    apply elem_of_dom in Hdom as [v Hv]. rewrite Hv.
    destruct (decide ("" ∉ v)) as [Hnull|Hnull].
    { unfold ret. rewrite Hv. by rewrite decide_True. }
    destruct rest as [|s rest].
    { unfold ret. rewrite Hv. by rewrite decide_False. }
    specialize (IH (fs ∪ v ∖ {[""]}) c1).
    destruct (scan g (_first g n) (s :: rest) _ c1) as [r c2|e c2|].
    + destruct IH as [Hsub2 Hsc]. split; [by etrans|].
      rewrite (lookup_weaken _ _ _ _ Hv Hsub2). by rewrite decide_False.
    + destruct IH as [Hsub2 Hsc]. split; [by etrans|].
      rewrite (lookup_weaken _ _ _ _ Hv Hsub2). by rewrite decide_False.
    + etrans; [apply IH|]. apply unseen_mono. by apply subseteq_dom.
Qed.

(** The main fact on [_first]: it only extends the cache, afterwards the
    cache alone determines the outcome, and it can run out of fuel only
    when the fuel does not exceed the number of uncached
    non-terminals. *)
Lemma first_spec fuel seq (c : cache) :
  match _first g fuel seq c with
  | Ok r c' => c ⊆ c' ∧ first_cached g c' seq = Some (inr r)
  | Raise e c' => c ⊆ c' ∧ first_cached g c' seq = Some (inl e)
  | OutOfFuel => fuel ≤ unseen g c
  end.
Proof.
  revert seq c. induction fuel as [|n IH]; intros seq c; simpl.
  - lia.
  - destruct seq as [|s seq]; [done|].
    apply scan_spec. intros seq' c' Hv. specialize (IH seq' c').
    destruct (_first g n seq' c') as [r c1|e c1|]; [tauto| |done].
    destruct IH as [_ He]. destruct seq' as [|s' seq']; [done|].
    by eapply scan_cached_invalid.
Qed.
End FirstSpec.

(** Consequences of [first_spec]. *)
Lemma first_terminates g fuel seq (c : cache) :
  valid g → length (non_terminals g) < fuel →
  _first g fuel seq c ≠ OutOfFuel.
Proof.
  intros Hv Hf Hout. pose proof (first_spec g Hv fuel seq c) as H.
  rewrite Hout in H. pose proof (unseen_le g c). lia.
Qed.

Lemma first_valid_seq_Ok g fuel seq (c : cache) :
  valid g → length (non_terminals g) < fuel → valid_seq g seq →
  ∃ r c', _first g fuel seq c = Ok r c' ∧ c ⊆ c' ∧
          first_cached g c' seq = Some (inr r).
Proof.
  intros Hv Hf Hs. pose proof (first_spec g Hv fuel seq c) as H.
  pose proof (first_terminates g fuel seq c Hv Hf) as Ht.
  destruct (_first g fuel seq c) as [r c'|e c'|]; [by eauto| |done].
  destruct H as [_ H]. destruct seq; [done|].
  by apply scan_cached_invalid in H.
Qed.

Lemma elem_of_body_symbols g nt prods r x :
  (nt, prods) ∈ productions g → r ∈ prods → x ∈ chars r →
  x ∈ body_symbols g.
Proof.
  intros Hp Hr Hx. unfold body_symbols. apply list_elem_of_join.
  exists (mjoin (chars <$> prods)). split.
  - apply list_elem_of_join. exists (chars r). split; [done|].
    apply list_elem_of_fmap. eauto.
  - apply list_elem_of_fmap. by exists (nt, prods).
Qed.

Lemma elem_of_body_symbols_inv g x :
  x ∈ body_symbols g →
  ∃ nt prods r, (nt, prods) ∈ productions g ∧ r ∈ prods ∧ x ∈ chars r.
Proof.
  unfold body_symbols.
  intros (l & Hx & ([nt prods] & -> & Hp)%list_elem_of_fmap)%list_elem_of_join.
  apply list_elem_of_join in Hx as (l' & Hx & (r & -> & Hr)%list_elem_of_fmap).
  eauto 10.
Qed.

Lemma used_terminal g x :
  valid g → x ∈ body_symbols g → x ∈ terminals g → x ∈ used_terminals g.
Proof.
  intros Hv Hb Ht. unfold used_terminals.
  apply elem_of_difference. rewrite !elem_of_list_to_set. split; [done|].
  by apply (valid_disjoint g Hv).
Qed.

Lemma used_terminals_terminals g x :
  valid g → x ∈ used_terminals g → x ∈ terminals g.
Proof.
  intros Hv [Hb Hn]%elem_of_difference.
  rewrite elem_of_list_to_set in Hb, Hn.
  apply elem_of_body_symbols_inv in Hb as (nt & prods & r & ? & ? & ?).
  destruct (valid_bodies g Hv nt prods r x); done.
Qed.

Lemma scan_cached_bound g (c : cache) seq fs r :
  first_wf g c → scan_cached g c seq fs = Some (inr r) →
  ∀ x, x ∈ r →
    x ∈ fs ∨ x = "" ∨ x ∈ used_terminals g ∨ (x ∈ seq ∧ x ∈ terminals g).
Proof.
  intros Hwf. revert fs. induction seq as [|symbol rest IH]; intros fs; simpl.
  - intros [= <-] x Hx. by left.
  - destruct (decide (symbol ∈ terminals g)).
    { intros [= <-] x [?|Hx%elem_of_singleton]%elem_of_union; [by left|].
      subst x. do 3 right. split; [by left | done]. }
    destruct (decide (symbol ∈ non_terminals g)); [|done].
    destruct (c !! symbol) as [v|] eqn:Hc; [|done].
    assert (∀ x, x ∈ fs ∪ v ∖ {[""]} → x ∈ fs ∨ x ∈ used_terminals g) as Hacc.
    { intros x [?|[Hx Hne]%elem_of_difference]%elem_of_union; [by left|].
      right. destruct (Hwf symbol v x Hc Hx) as [->|?]; [set_solver|done]. }
    destruct (decide ("" ∉ v)).
    { intros [= <-] x Hx. destruct (Hacc x Hx); auto. }
    destruct rest as [|s rest].
    { intros [= <-] x [Hx|Hx%elem_of_singleton]%elem_of_union; [|auto].
      destruct (Hacc x Hx); auto. }
    intros Hsc x Hx. destruct (IH _ Hsc x Hx) as [Hx'|[?|[?|[? ?]]]]; auto.
    + destruct (Hacc x Hx'); auto.
    + do 3 right. split; [by right | done].
Qed.

Lemma first_cached_bound g (c : cache) seq r :
  valid g → first_wf g c → (∀ x, x ∈ seq → x ∈ body_symbols g) →
  first_cached g c seq = Some (inr r) →
  ∀ x, x ∈ r → x = "" ∨ x ∈ used_terminals g.
Proof.
  intros Hv Hwf Hseq. destruct seq as [|s seq]; simpl.
  - intros [= <-] x Hx%elem_of_singleton. by left.
  - intros Hsc x Hx.
    destruct (scan_cached_bound g c (s :: seq) ∅ r Hwf Hsc x Hx)
      as [?|[?|[?|[? ?]]]]; auto; [set_solver|].
    right. apply used_terminal; auto.
Qed.

Lemma first_wf_insert g (c : cache) k s :
  first_wf g c → (∀ x, x ∈ s → x = "" ∨ x ∈ used_terminals g) →
  first_wf g (<[k := s]> c).
Proof.
  intros Hwf Hs k' s' x. rewrite lookup_insert. case_decide.
  - intros [= <-]. apply Hs.
  - apply Hwf.
Qed.

Section FirstWf.
Variable g : Grammar.
Hypothesis g_valid : valid g.

Lemma fill_wf rec symbol prods (c : cache) :
  rec_wf g rec → first_wf g c →
  (∀ r x, r ∈ prods → x ∈ chars r → x ∈ body_symbols g) →
  match fill rec symbol prods c with
  | Ok _ c' | Raise _ c' => first_wf g c'
  | OutOfFuel => True
  end.
Proof.
  intros Hrec. revert c.
  induction prods as [|p prods IH]; intros c Hwf Hb; simpl; [done|].
  unfold bind, get.
  specialize (Hrec (chars p) c Hwf (λ x, Hb p x ltac:(by left))).
  destruct (rec (chars p) c) as [r c1|e c1|]; [|done..].
  destruct Hrec as [Hwf1 Hr].
  destruct (c1 !! symbol) as [old|] eqn:Hold; [|done].
  unfold put. apply IH.
  - apply first_wf_insert; [done|].
    intros x [Hx|Hx]%elem_of_union; [by eapply Hwf1 | by apply Hr].
  - intros r' x Hr'. apply Hb. by right.
Qed.

Lemma scan_wf rec seq fs (c : cache) :
  rec_wf g rec → first_wf g c →
  match scan g rec seq fs c with
  | Ok _ c' | Raise _ c' => first_wf g c'
  | OutOfFuel => True
  end.
Proof.
  intros Hrec. revert fs c.
  induction seq as [|symbol rest IH]; intros fs c Hwf; simpl; [done|].
  destruct (decide (symbol ∈ terminals g)); [done|].
  destruct (decide (symbol ∈ non_terminals g)); [|done].
  unfold bind, get.
  assert (match (if decide (symbol ∈ dom c) then ret tt
                 else bind (put (<[symbol := ∅]> c))
                        (λ _, match getitem (productions g) symbol with
                              | None => raise (KeyError symbol)
                              | Some prods => fill rec symbol prods
                              end)) c with
          | Ok _ c1 | Raise _ c1 => first_wf g c1
          | OutOfFuel => True
          end) as Hfill.
  { destruct (decide (symbol ∈ dom c)); [done|]. unfold bind, put.
    assert (first_wf g (<[symbol := ∅]> c)) as Hwf1.
    { apply first_wf_insert; [done|]. set_solver. }
    destruct (getitem (productions g) symbol) as [prods|] eqn:Hp; [|done].
    apply getitem_Some in Hp. apply fill_wf; [done..|].
    intros r x Hr Hx. by eapply elem_of_body_symbols. }
  unfold bind in Hfill.
  match type of Hfill with
  | match ?t with _ => _ end => destruct t as [[] c1| |]; [|done..]
  end.
  destruct (c1 !! symbol) as [v|]; [|done].
  destruct (decide ("" ∉ v)); [done|].
  destruct rest as [|s rest]; [done|]. by apply IH.
Qed.

Lemma first_wf_spec fuel seq (c : cache) :
  first_wf g c →
  match _first g fuel seq c with
  | Ok _ c' | Raise _ c' => first_wf g c'
  | OutOfFuel => True
  end.
Proof.
  revert seq c. induction fuel as [|n IH]; intros seq c Hwf; simpl; [done|].
  destruct seq as [|s seq]; [done|].
  apply scan_wf; [|done].
  intros seq' c' Hwf' Hb. specialize (IH seq' c' Hwf').
  pose proof (first_spec g g_valid n seq' c') as Hs.
  destruct (_first g n seq' c') as [r c1|e c1|]; [|done..].
  split; [done|]. destruct Hs as [_ Hs].
  exact (first_cached_bound g c1 seq' r g_valid IH Hb Hs).
Qed.
End FirstWf.

(** ** FOLLOW *)

Lemma elem_of_pairs (f : cache) k x :
  (k, x) ∈ pairs f ↔ ∃ s, f !! k = Some s ∧ x ∈ s.
Proof.
  unfold pairs. rewrite elem_of_union_list. split.
  - intros (X & ([k' s] & -> & Hks)%list_elem_of_fmap & Hx).
    apply elem_of_map_to_list in Hks.
    apply elem_of_map in Hx as (y & [= -> ->] & Hy). eauto.
  - intros (s & Hs & Hx). exists (set_map (pair k) s). split.
    + apply list_elem_of_fmap. exists (k, s). split; [done|].
      by apply elem_of_map_to_list.
    + apply elem_of_map. eauto.
Qed.

Lemma elem_of_follow_bound g k x :
  (k, x) ∈ follow_bound g ↔ k ∈ non_terminals g ∧ x ∈ follow_universe g.
Proof.
  unfold follow_bound, dict_fromkeys. rewrite elem_of_pairs. split.
  - intros (s & [Hk <-]%lookup_gset_to_gmap_Some & Hx).
    by rewrite elem_of_list_to_set in Hk.
  - intros [Hk Hx]. exists (follow_universe g). split; [|done].
    apply lookup_gset_to_gmap_Some. by rewrite elem_of_list_to_set.
Qed.

Lemma pairs_insert_union (f : cache) A fA X :
  f !! A = Some fA →
  pairs (<[A := fA ∪ X]> f) = pairs f ∪ set_map (pair A) X.
Proof.
  intros HA. apply set_eq. intros [k x].
  rewrite elem_of_union, !elem_of_pairs, elem_of_map. split.
  - intros (s & Hs & Hx). rewrite lookup_insert in Hs. case_decide.
    + inversion Hs; subst. apply elem_of_union in Hx as [?|?]; eauto.
    + eauto.
  - intros [(s & Hs & Hx)|(y & [= -> ->] & Hy)].
    + destruct (decide (A = k)) as [->|Hne].
      * exists (fA ∪ X). rewrite lookup_insert_eq. split; [done|].
        rewrite HA in Hs. inversion Hs; subst. set_solver.
      * exists s. by rewrite lookup_insert_ne.
    + exists (fA ∪ X). rewrite lookup_insert_eq. split; [done|]. set_solver.
Qed.

Section FollowSpec.
Variable g : Grammar.
Variable fc : cache.
Hypothesis g_valid : valid g.
Hypothesis fc_full : ∀ nt, nt ∈ non_terminals g → nt ∈ dom fc.
Hypothesis fc_wf : first_wf g fc.

Lemma grows_refl st changed : follow_inv g fc st → grows g fc st changed st changed.
Proof. intros H. split; [done|]. split; [done|]. by left. Qed.

Lemma grows_trans st1 c1 st2 c2 st3 c3 :
  grows g fc st1 c1 st2 c2 → grows g fc st2 c2 st3 c3 → grows g fc st1 c1 st3 c3.
Proof.
  intros (_ & Hs1 & H1) (Hi & Hs2 & H2). split; [done|].
  split; [by etrans|].
  destruct H1 as [[-> ->]|[-> H1]], H2 as [[-> ->]|[-> H2]]; auto.
  - right. split; [done|]. eapply strict_trans_l; [done|].
    by apply strict_include.
Qed.

Lemma follow_update st changed A fA X :
  follow_inv g fc st → A ∈ non_terminals g →
  follow_cache st !! A = Some fA →
  X ⊆ follow_universe g → ¬ X ⊆ fA →
  grows g fc st changed
    (set_follow_cache (<[A := fA ∪ X]> (follow_cache st)) st) true.
Proof.
  intros (Hfc & Hdom & Hb) HA HfA HX Hnew.
  assert (pairs (follow_cache st) ⊂
          pairs (<[A := fA ∪ X]> (follow_cache st))) as Hstrict.
  { rewrite (pairs_insert_union _ _ _ _ HfA). split; [set_solver|].
    intros Hsub. apply Hnew. intros x Hx.
    assert ((A, x) ∈ pairs (follow_cache st)) as Hin.
    { apply Hsub, elem_of_union. right. apply elem_of_map. eauto. }
    apply elem_of_pairs in Hin as (s & Hs & ?). congruence. }
  split; [|split; [by apply strict_include | by right]].
  split; [done|]. simpl. split.
  - intros nt Hnt. rewrite dom_insert_L. specialize (Hdom nt Hnt).
    set_solver.
  - rewrite (pairs_insert_union _ _ _ _ HfA).
    intros [k x] [?|(y & [= -> ->] & Hy)%elem_of_map]%elem_of_union;
      [by apply Hb|].
    apply elem_of_follow_bound. split; [done | by apply HX].
Qed.

Lemma first_omega_loop_spec omega acc st :
  first_cache st = fc →
  (∀ x, x ∈ omega → x ∈ body_symbols g) →
  (∀ x, x ∈ acc → x ∈ follow_universe g) →
  ∃ r, first_omega_loop g omega acc st = Ok r st ∧
       ∀ x, x ∈ r → x = "" ∨ x ∈ follow_universe g.
Proof.
  intros Hfc. revert acc.
  induction omega as [|sym omega IH]; intros acc Hb Hacc; simpl.
  - eexists. split; [done|].
    intros x [?|Hx%elem_of_singleton]%elem_of_union; auto.
  - destruct (decide (sym ∈ non_terminals g)) as [Hnt|Hnt].
    + unfold bind, get. rewrite Hfc.
      pose proof (fc_full sym Hnt) as Hd.
      apply elem_of_dom in Hd as [fs Hfs]. rewrite Hfs.
      assert (∀ x, x ∈ acc ∪ fs ∖ {[""]} → x ∈ follow_universe g) as Hacc'.
      { intros x [?|[Hx Hne]%elem_of_difference]%elem_of_union; [auto|].
        destruct (fc_wf sym fs x Hfs Hx) as [->|?]; [set_solver|].
        unfold follow_universe. set_solver. }
      destruct (decide ("" ∉ fs)).
      * eexists. split; [done|]. auto.
      * apply IH; [|done]. intros x Hx. apply Hb. by right.
    + eexists. split; [done|].
      intros x [?|Hx%elem_of_singleton]%elem_of_union; [auto|]. subst x.
      right. unfold follow_universe, used_terminals.
      assert (sym ∈ body_symbols g) by (apply Hb; by left).
      rewrite elem_of_union, elem_of_difference, !elem_of_list_to_set. auto.
Qed.

Lemma follow_add st changed A X fA :
  follow_inv g fc st → A ∈ non_terminals g → X ⊆ follow_universe g →
  follow_cache st !! A = Some fA →
  ∃ changed' st',
    (if decide (X ⊆ fA) then ret changed
     else put (set_follow_cache (<[A := fA ∪ X]> (follow_cache st)) st) ;;;
          ret true) st = Ok changed' st' ∧
    grows g fc st changed st' changed'.
Proof.
  intros Hinv HA HX HfA. destruct (decide (X ⊆ fA)).
  - exists changed, st. split; [done|]. by apply grows_refl.
  - eexists _, _. split; [done|]. by apply follow_update.
Qed.

Lemma follow_inv_lookup st nt :
  follow_inv g fc st → nt ∈ non_terminals g →
  ∃ s, follow_cache st !! nt = Some s ∧ s ⊆ follow_universe g.
Proof.
  intros (_ & Hdom & Hb) Hnt.
  pose proof (Hdom nt Hnt) as Hd. apply elem_of_dom in Hd as [s Hs].
  exists s. split; [done|].
  intros x Hx. eapply elem_of_follow_bound, Hb, elem_of_pairs. eauto.
Qed.

Lemma follow_at_spec head A omega changed st :
  head ∈ non_terminals g →
  (∀ x, x ∈ omega → x ∈ body_symbols g) →
  follow_inv g fc st →
  ∃ changed' st',
    follow_at g head A omega changed st = Ok changed' st' ∧
    grows g fc st changed st' changed'.
Proof.
  intros Hhead Hb Hinv. unfold follow_at.
  destruct (decide (A ∉ non_terminals g)) as [|HA].
  { exists changed, st. split; [done|]. by apply grows_refl. }
  apply dec_stable in HA.
  destruct (first_omega_loop_spec omega ∅ st) as (r & Hr & Hru);
    [apply Hinv | done | set_solver |].
  unfold bind at 1. rewrite Hr. unfold bind at 1, get at 1.
  destruct (follow_inv_lookup st A Hinv HA) as (fA & HfA & _).
  rewrite HfA. unfold bind at 1.
  destruct (follow_add st changed A (r ∖ {[""]}) fA Hinv HA)
    as (ch1 & st1 & Hadd & Hg1); [|done|].
  { intros x [Hx Hne]%elem_of_difference. destruct (Hru x Hx); set_solver. }
  rewrite Hadd. destruct (decide ("" ∈ r)).
  2:{ exists ch1, st1. done. }
  unfold bind at 1, get at 1.
  assert (follow_inv g fc st1) as Hinv1 by apply Hg1.
  destruct (follow_inv_lookup st1 head Hinv1 Hhead) as (fH & HfH & HfHu).
  destruct (follow_inv_lookup st1 A Hinv1 HA) as (fA1 & HfA1 & _).
  rewrite HfH, HfA1.
  destruct (follow_add st1 ch1 A fH fA1 Hinv1 HA HfHu HfA1)
    as (ch2 & st2 & Hadd2 & Hg2).
  rewrite Hadd2. exists ch2, st2. split; [done|]. by eapply grows_trans.
Qed.

Lemma follow_prod_spec head prod changed st :
  head ∈ non_terminals g →
  (∀ x, x ∈ prod → x ∈ body_symbols g) →
  follow_inv g fc st →
  ∃ changed' st',
    follow_prod g head prod changed st = Ok changed' st' ∧
    grows g fc st changed st' changed'.
Proof.
  intros Hhead. revert changed st.
  induction prod as [|A omega IH]; intros changed st Hb Hinv; simpl.
  - exists changed, st. split; [done|]. by apply grows_refl.
  - destruct (follow_at_spec head A omega changed st)
      as (ch1 & st1 & Hat & Hg1); [done| |done|].
    { intros x Hx. apply Hb. by right. }
    unfold bind. rewrite Hat.
    destruct (IH ch1 st1) as (ch2 & st2 & Hp & Hg2); [|apply Hg1|].
    { intros x Hx. apply Hb. by right. }
    exists ch2, st2. split; [done|]. by eapply grows_trans.
Qed.

(** A [for] loop whose body satisfies [grows] satisfies it as a whole. *)
Lemma for_fold_grows {A} (l : list A) (body : A → bool → M caches bool)
    changed st :
  (∀ x changed st, x ∈ l → follow_inv g fc st →
     ∃ changed' st', body x changed st = Ok changed' st' ∧
                     grows g fc st changed st' changed') →
  follow_inv g fc st →
  ∃ changed' st',
    for_fold l body changed st = Ok changed' st' ∧
    grows g fc st changed st' changed'.
Proof.
  revert changed st.
  induction l as [|x l IH]; intros changed st Hbody Hinv; simpl.
  - exists changed, st. split; [done|]. by apply grows_refl.
  - destruct (Hbody x changed st) as (ch1 & st1 & Hx & Hg1);
      [by left | done |].
    unfold bind. rewrite Hx.
    destruct (IH ch1 st1) as (ch2 & st2 & Hl & Hg2); [|apply Hg1|].
    { intros y ch' st' Hy. apply Hbody. by right. }
    exists ch2, st2. split; [done|]. by eapply grows_trans.
Qed.

(** One pass: a pass always completes, the FOLLOW sets only grow
    inside the universe, and the pass reports [changed] exactly when it
    has added a symbol to some set; otherwise it leaves the caches as
    they are. *)
Lemma follow_pass_spec st :
  follow_inv g fc st →
  ∃ changed st',
    follow_pass g st = Ok changed st' ∧ grows g fc st false st' changed.
Proof.
  intros Hinv. unfold follow_pass. apply for_fold_grows; [|done].
  intros [head prods] ch1 st1 Hhp Hinv1.
  apply for_fold_grows; [|done].
  intros prod ch2 st2 Hprod Hinv2. apply follow_prod_spec; [|
    intros x Hx; by eapply elem_of_body_symbols | done].
  apply (valid_keys g g_valid). apply list_elem_of_fmap.
  by exists (head, prods).
Qed.

Lemma follow_loop_spec fuel st :
  follow_inv g fc st → room g st < fuel →
  ∃ st', follow_loop g fuel st = Ok tt st' ∧
         follow_inv g fc st' ∧
         pairs (follow_cache st) ⊆ pairs (follow_cache st') ∧
         follow_pass g st' = Ok false st'.
Proof.
  revert st. induction fuel as [|fuel IH]; intros st Hinv Hroom; [lia|].
  simpl. unfold bind.
  destruct (follow_pass_spec st Hinv) as (ch & st1 & Hpass & Hinv1 & Hsub & Hch).
  rewrite Hpass. destruct Hch as [[-> ->]|[-> Hstrict]].
  - exists st. done.
  - destruct (IH st1) as (st2 & Hl & Hinv2 & Hsub2 & Hfix); [done| |].
    + assert (room g st1 < room g st); [|lia].
      unfold room. apply subset_size. destruct Hinv1 as (_ & _ & Hb1).
      destruct Hinv as (_ & _ & Hb). destruct Hstrict as [Hs Hns].
      split; [set_solver|]. intros H. apply Hns. intros p Hp.
      destruct (decide (p ∈ pairs (follow_cache st))); [done|].
      assert (p ∈ follow_bound g ∖ pairs (follow_cache st)) as Hin by set_solver.
      apply H in Hin. set_solver.
    + exists st2. split; [done|]. split; [done|]. split; [by etrans|done].
Qed.
End FollowSpec.

(** ** The whole of [compute_follow] *)

Lemma compute_follow_unfold g fuel symbol st :
  valid g →
  compute_follow g fuel symbol st =
  match ensure_first g fuel (non_terminals g) st with
  | Ok _ st1 =>
      if decide (symbol ∉ non_terminals g)
      then Raise (ValueError (NotANonTerminal symbol)) st1
      else follow_rest g fuel symbol (follow_start g st1)
  | Raise e st1 => Raise e st1
  | OutOfFuel => OutOfFuel
  end.
Proof.
  intros Hv. unfold compute_follow, ensure_first, follow_rest, bind.
  destruct (for_each _ _ st) as [[] st1| |]; [|done..].
  destruct (decide (symbol ∉ non_terminals g)); [done|].
  unfold get, put, follow_start. simpl.
  unfold dict_fromkeys. rewrite lookup_gset_to_gmap.
  rewrite option_guard_True; [done|].
  apply elem_of_list_to_set. apply (valid_axiom g Hv).
Qed.

Lemma compute_first_Ok g fuel seq st :
  valid g → length (non_terminals g) < fuel → valid_seq g seq →
  first_wf g (first_cache st) →
  ∃ r c', compute_first g fuel seq st =
            Ok r {| first_cache := c'; follow_cache := follow_cache st |} ∧
          first_cache st ⊆ c' ∧ first_wf g c' ∧
          first_cached g c' seq = Some (inr r).
Proof.
  intros Hv Hf Hs Hwf. unfold compute_first, on_first_cache.
  destruct (first_valid_seq_Ok g fuel seq (first_cache st) Hv Hf Hs)
    as (r & c' & Hr & Hsub & Hc).
  pose proof (first_wf_spec g Hv fuel seq (first_cache st) Hwf) as Hwf'.
  rewrite Hr in *. eauto 10.
Qed.

Lemma ensure_first_cons g fuel nt l st :
  ensure_first g fuel (nt :: l) st =
  match compute_first g fuel [nt] st with
  | Ok _ st' => ensure_first g fuel l st'
  | Raise e st' => Raise e st'
  | OutOfFuel => OutOfFuel
  end.
Proof.
  unfold ensure_first. simpl. unfold bind.
  by destruct (compute_first g fuel [nt] st).
Qed.

Lemma ensure_first_spec g fuel l st :
  valid g → length (non_terminals g) < fuel →
  (∀ nt, nt ∈ l → nt ∈ non_terminals g) →
  first_wf g (first_cache st) →
  ∃ c', ensure_first g fuel l st =
          Ok tt {| first_cache := c'; follow_cache := follow_cache st |} ∧
        first_cache st ⊆ c' ∧ first_wf g c' ∧
        ∀ nt, nt ∈ l → nt ∈ dom c'.
Proof.
  intros Hv Hf. revert st.
  induction l as [|nt l IH]; intros st Hl Hwf; simpl.
  - exists (first_cache st). destruct st. split; [done|]. split; [done|].
    split; [done|]. intros nt Hnt. inversion Hnt.
  - rewrite ensure_first_cons.
    destruct (compute_first_Ok g fuel [nt] st Hv Hf) as (r & c1 & Hr & Hsub & Hwf1 & Hc);
      [|done|].
    { intros x Hx%list_elem_of_singleton. subst x. left. apply Hl. by left. }
    rewrite Hr.
    destruct (IH {| first_cache := c1; follow_cache := follow_cache st |})
      as (c2 & Hl2 & Hsub2 & Hwf2 & Hdom2); [|done|].
    { intros x Hx. apply Hl. by right. }
    rewrite Hl2. simpl.
    exists c2. split; [done|]. split; [by etrans|]. split; [done|].
    intros x [Hx|Hx]%elem_of_cons; [subst x|by apply Hdom2].
    assert (nt ∈ dom c1) as Hd; [|by apply (subseteq_dom _ _ Hsub2)].
    simpl in Hc. destruct (decide (nt ∈ terminals g)) as [Ht|_].
    { exfalso. apply (valid_disjoint g Hv nt Ht). apply Hl. by left. }
    destruct (decide (nt ∈ non_terminals g)); [|done].
    apply elem_of_dom. destruct (c1 !! nt); [eauto|done].
Qed.

(** When every non-terminal is cached, the first loop changes nothing. *)
Lemma ensure_first_full g fuel l st :
  0 < fuel →
  (∀ nt, nt ∈ l → nt ∈ non_terminals g ∧ nt ∈ dom (first_cache st)) →
  ensure_first g fuel l st = Ok tt st.
Proof.
  intros Hf. destruct fuel as [|fuel]; [lia|].
  induction l as [|nt l IH]; intros Hl; [done|].
  rewrite ensure_first_cons. unfold compute_first, on_first_cache.
  destruct (Hl nt) as [Hnt Hd]; [by left|]. apply elem_of_dom in Hd as [v Hv].
  assert (∃ r, first_cached g (first_cache st) [nt] = Some (inr r)) as [r Hr].
  { simpl. destruct (decide (nt ∈ terminals g)); [by eauto|].
    rewrite decide_True by done. rewrite Hv.
    destruct (decide ("" ∉ v)); eauto. }
  rewrite (first_of_cached g fuel _ _ _ Hr).
  destruct st as [c f]. simpl. apply IH. intros x Hx. apply Hl. by right.
Qed.

Lemma follow_start_inv g st :
  valid g →
  follow_inv g (first_cache st) (follow_start g st) ∧
  ∃ s, follow_cache (follow_start g st) !! axiom g = Some s ∧ "$" ∈ s.
Proof.
  intros Hv. split; [|simpl; rewrite lookup_insert_eq; set_solver].
  split; [done|]. simpl. split.
  - intros nt Hnt. rewrite dom_insert_L. unfold dict_fromkeys.
    rewrite dom_gset_to_gmap. set_solver.
  - intros [k x] (s & Hs & Hx)%elem_of_pairs.
    rewrite lookup_insert in Hs. case_decide as Hk.
    + inversion Hs; subst. apply elem_of_follow_bound.
      split; [apply (valid_axiom g Hv)|]. unfold follow_universe. set_solver.
    + unfold dict_fromkeys in Hs.
      apply lookup_gset_to_gmap_Some in Hs as [_ <-]. set_solver.
Qed.

Lemma room_lt_enough g st fuel :
  enough_fuel g ≤ fuel → room g st < fuel.
Proof.
  unfold enough_fuel, room. intros Hf.
  assert (size (follow_bound g ∖ pairs (follow_cache st))
          ≤ size (follow_bound g)); [|lia].
  apply subseteq_size. set_solver.
Qed.

(** [pairs] after the iteration still has what it had at the start. *)
Lemma compute_follow_spec g fuel symbol st :
  valid g → enough_fuel g ≤ fuel → first_wf g (first_cache st) →
  ∃ st1 : caches,
    first_full g (first_cache st1) ∧ first_wf g (first_cache st1) ∧
    first_cache st ⊆ first_cache st1 ∧
    ensure_first g fuel (non_terminals g) st =
      Ok tt {| first_cache := first_cache st1;
               follow_cache := follow_cache st |} ∧
    if decide (symbol ∈ non_terminals g) then
      ∃ r, compute_follow g fuel symbol st = Ok r st1 ∧
           follow_cache st1 !! symbol = Some r ∧
           follow_inv g (first_cache st1) st1 ∧
           follow_loop g fuel (follow_start g st1) = Ok tt st1 ∧
           follow_pass g st1 = Ok false st1 ∧
           ∃ s, follow_cache st1 !! axiom g = Some s ∧ "$" ∈ s
    else
      follow_cache st1 = follow_cache st ∧
      compute_follow g fuel symbol st =
        Raise (ValueError (NotANonTerminal symbol)) st1.
Proof.
  intros Hv Hf Hwf. rewrite compute_follow_unfold by done.
  destruct (ensure_first_spec g fuel (non_terminals g) st Hv)
    as (c1 & He & Hsub & Hwf1 & Hfull); [unfold enough_fuel in Hf; lia|done..|].
  rewrite He.
  set (st1 := {| first_cache := c1; follow_cache := follow_cache st |}).
  destruct (decide (symbol ∈ non_terminals g)) as [Hs|Hs].
  - rewrite decide_False by (by intros ?).
    destruct (follow_start_inv g st1 Hv) as [Hinv (s & Hax & Hd)].
    destruct (follow_loop_spec g c1 Hv Hfull Hwf1 fuel (follow_start g st1) Hinv)
      as (st2 & Hloop & Hinv2 & Hsub2 & Hfix); [by apply room_lt_enough|].
    assert (first_cache st2 = c1) as Hc2 by apply Hinv2.
    exists st2. rewrite Hc2. do 3 (split; [done|]). split; [done|].
    destruct (follow_inv_lookup g c1 st2 symbol Hinv2 Hs) as (r & Hr & _).
    exists r. unfold follow_rest. rewrite decide_False by (by intros ?).
    unfold bind, get. rewrite Hloop, Hr.
    assert (follow_start g st2 = follow_start g st1) as ->.
    { unfold follow_start, set_follow_cache. by rewrite Hc2. }
    do 5 (split; [done|]).
    assert ((axiom g, "$") ∈ pairs (follow_cache st2)) as Hp.
    { apply Hsub2. apply elem_of_pairs. eauto. }
    by apply elem_of_pairs in Hp.
  - exists st1. rewrite decide_True by done. done.
Qed.

(** ** Fuel *)

Lemma refines_refl {S A} (m : M S A) : refines m m.
Proof. by intros s _. Qed.

Lemma refines_trans {S A} (m1 m2 m3 : M S A) :
  refines m1 m2 → refines m2 m3 → refines m1 m3.
Proof.
  intros H12 H23 s Hs. rewrite H23; [by apply H12|]. by rewrite H12.
Qed.

Lemma refines_bind {S A B} (m m' : M S A) (k k' : A → M S B) :
  refines m m' → (∀ a, refines (k a) (k' a)) →
  refines (bind m k) (bind m' k').
Proof.
  intros Hm Hk s. unfold bind. intros Hs.
  rewrite Hm by (by destruct (m s)).
  destruct (m s) as [a s1| |]; [|done..]. by apply Hk.
Qed.

Lemma refines_for_each {S A} (l : list A) (body body' : A → M S unit) :
  (∀ x, refines (body x) (body' x)) →
  refines (for_each l body) (for_each l body').
Proof.
  intros Hb. induction l as [|x l IH]; simpl; [apply refines_refl|].
  apply refines_bind; [apply Hb | by intros _].
Qed.

Lemma refines_for_fold {S A B} (l : list A) (body body' : A → B → M S B) b :
  (∀ x b, refines (body x b) (body' x b)) →
  refines (for_fold l body b) (for_fold l body' b).
Proof.
  intros Hb. revert b. induction l as [|x l IH]; intros b; simpl;
    [apply refines_refl|].
  apply refines_bind; [apply Hb | apply IH].
Qed.

Section FuelMono.
Variable g : Grammar.

Lemma fill_refines rec rec' symbol prods :
  (∀ seq, refines (rec seq) (rec' seq)) →
  refines (fill rec symbol prods) (fill rec' symbol prods).
Proof.
  intros Hrec. induction prods as [|p prods IH]; simpl;
    [apply refines_refl|].
  apply refines_bind; [apply Hrec|]. intros r.
  apply refines_bind; [apply refines_refl|]. intros c.
  apply refines_bind; [apply refines_refl | by intros _].
Qed.

Lemma scan_refines rec rec' seq fs :
  (∀ seq, refines (rec seq) (rec' seq)) →
  refines (scan g rec seq fs) (scan g rec' seq fs).
Proof.
  intros Hrec. revert fs. induction seq as [|symbol rest IH]; intros fs;
    simpl; [apply refines_refl|].
  destruct (decide (symbol ∈ terminals g)); [apply refines_refl|].
  destruct (decide (symbol ∈ non_terminals g)); [|apply refines_refl].
  apply refines_bind; [apply refines_refl|]. intros c.
  apply refines_bind.
  - destruct (decide (symbol ∈ dom c)); [apply refines_refl|].
    apply refines_bind; [apply refines_refl|]. intros _.
    destruct (getitem (productions g) symbol); [|apply refines_refl].
    by apply fill_refines.
  - intros _. apply refines_bind; [apply refines_refl|]. intros c'.
    destruct (c' !! symbol) as [v|]; [|apply refines_refl].
    destruct (decide ("" ∉ v)); [apply refines_refl|].
    destruct rest; [apply refines_refl | apply IH].
Qed.

Lemma first_refines_S fuel seq :
  refines (_first g fuel seq) (_first g (S fuel) seq).
Proof.
  revert seq. induction fuel as [|n IH]; intros seq; [by intros s|].
  change (_first g (S (S n)) seq) with
    (match seq with
     | [] => ret {[""]}
     | _ => scan g (_first g (S n)) seq ∅
     end).
  change (_first g (S n) seq) with
    (match seq with
     | [] => ret {[""]}
     | _ => scan g (_first g n) seq ∅
     end).
  destruct seq; [apply refines_refl|]. by apply scan_refines.
Qed.

Lemma first_refines fuel fuel' seq :
  fuel ≤ fuel' → refines (_first g fuel seq) (_first g fuel' seq).
Proof.
  induction 1 as [|fuel' _ IH]; [apply refines_refl|].
  eapply refines_trans; [apply IH | apply first_refines_S].
Qed.

Lemma compute_first_refines fuel fuel' seq :
  fuel ≤ fuel' →
  refines (compute_first g fuel seq) (compute_first g fuel' seq).
Proof.
  intros Hle st. unfold compute_first, on_first_cache. intros Hs.
  rewrite (first_refines fuel fuel' seq Hle); [done|].
  by destruct (_first g fuel seq (first_cache st)).
Qed.

Lemma follow_loop_refines fuel fuel' :
  fuel ≤ fuel' → refines (follow_loop g fuel) (follow_loop g fuel').
Proof.
  revert fuel'. induction fuel as [|n IH]; intros fuel' Hle; [by intros s|].
  destruct fuel' as [|n']; [lia|]. simpl.
  apply refines_bind; [apply refines_refl|]. intros [|]; [|apply refines_refl].
  apply IH. lia.
Qed.

Lemma compute_follow_refines fuel fuel' symbol :
  fuel ≤ fuel' →
  refines (compute_follow g fuel symbol) (compute_follow g fuel' symbol).
Proof.
  intros Hle. unfold compute_follow. apply refines_bind.
  - apply refines_for_each. intros nt.
    apply refines_bind; [by apply compute_first_refines | by intros _].
  - intros _. destruct (decide (symbol ∉ non_terminals g));
      [apply refines_refl|].
    apply refines_bind; [apply refines_refl|]. intros st.
    apply refines_bind; [apply refines_refl|]. intros _.
    apply refines_bind; [apply refines_refl|]. intros st'.
    destruct (follow_cache st' !! axiom g); [|apply refines_refl].
    apply refines_bind; [apply refines_refl|]. intros _.
    apply refines_bind; [by apply follow_loop_refines | by intros _].
Qed.

Lemma get_ll1_table_refines fuel fuel' :
  fuel ≤ fuel' → refines (get_ll1_table g fuel) (get_ll1_table g fuel').
Proof.
  intros Hle. unfold get_ll1_table. apply refines_bind.
  - apply refines_for_each. intros nt.
    apply refines_bind; [by apply compute_follow_refines | by intros _].
  - intros _. destruct (LL1Table_init _ _); [apply refines_refl|].
    apply refines_for_fold. intros [head prods] t.
    apply refines_for_fold. intros prod [t'|]; [|apply refines_refl].
    unfold table_prod.
    apply refines_bind; [by apply compute_first_refines|].
    intros fa. apply refines_refl.
Qed.
End FuelMono.



Lemma analyze_loop_refines fuel fuel' input l :
  fuel ≤ fuel' →
  refines (analyze_loop fuel input l) (analyze_loop fuel' input l).
Proof.
  revert fuel' l. induction fuel as [|n IH]; intros fuel' l Hle.
  - unfold refines. intros s. destruct fuel' as [|n']; simpl;
      case_decide; done.
  - destruct fuel' as [|n']; [lia|]. simpl.
    destruct (decide (i l < length input)); [|apply refines_refl].
    apply refines_bind; [apply refines_refl|]. intros l'. apply IH. lia.
Qed.

Lemma analyze_refines fuel fuel' input start :
  fuel ≤ fuel' →
  refines (analyze fuel input start) (analyze fuel' input start).
Proof.
  intros Hle. unfold analyze.
  apply refines_bind; [by apply analyze_loop_refines|].
  intros l. apply refines_refl.
Qed.

(** ** The scenarios and the properties of the specification *)

Lemma expr_check_all :
  forallb (expr_check 29) (permutations ["E"; "X"; "T"; "Y"]) = true.
Proof. vm_compute. reflexivity. Qed.

Lemma value_refines {S A} (m m' : M S A) s a :
  refines m m' → value (m s) = Some a → value (m' s) = Some a.
Proof.
  intros Hr Hv. rewrite Hr; [done|]. by destruct (m s).
Qed.



Lemma forallb_elem {A} (f : A → bool) (l : list A) x :
  forallb f l = true → x ∈ l → f x = true.
Proof.
  induction l as [|y l IH]; simpl; intros Hf Hx; [by inversion Hx|].
  apply andb_true_iff in Hf as [Hy Hl].
  apply elem_of_cons in Hx as [->|Hx]; auto.
Qed.

(** C4: on the expression grammar, whatever the order in which Python
    iterates over the set of non-terminals and for every sufficient fuel,
    FIRST(E) = {i, (}, FIRST(X) = {ε, +}, FOLLOW(E) = {$, )} and
    FOLLOW(X) = {$, )}, on a new instance and also when the four queries
    follow each other on one instance. *)
Theorem expr_grammar_first_follow nts fuel :
  nts ≡ₚ ["E"; "X"; "T"; "Y"] → 29 ≤ fuel →
  let g := expr_grammar_in nts in
  value (compute_first g fuel ["E"] (fresh g)) = Some {["i"; "("]} ∧
  value (compute_first g fuel ["X"] (fresh g)) = Some {[""; "+"]} ∧
  value (compute_follow g fuel "E" (fresh g)) = Some {["$"; ")"]} ∧
  value (compute_follow g fuel "X" (fresh g)) = Some {["$"; ")"]} ∧
  value (expr_queries g fuel (fresh g)) =
    Some ({["i"; "("]}, {[""; "+"]}, {["$"; ")"]}, {["$"; ")"]}).
Proof.
  intros Hperm Hfuel g.
  assert (expr_check 29 nts = true) as Hc.
  { apply (forallb_elem (expr_check 29) (permutations ["E"; "X"; "T"; "Y"])
             nts expr_check_all).
    by apply permutations_Permutation. }
  apply bool_decide_eq_true in Hc as (H1 & H2 & H3 & H4 & H5).
  split; [|split; [|split; [|split]]].
  - eapply value_refines; [by apply compute_first_refines|exact H1].
  - eapply value_refines; [by apply compute_first_refines|exact H2].
  - eapply value_refines; [by apply compute_follow_refines|exact H3].
  - eapply value_refines; [by apply compute_follow_refines|exact H4].
  - eapply value_refines; [|exact H5]. unfold expr_queries.
    apply refines_bind; [by apply compute_first_refines|]. intros a.
    apply refines_bind; [by apply compute_first_refines|]. intros b.
    apply refines_bind; [by apply compute_follow_refines|]. intros c.
    apply refines_bind; [by apply compute_follow_refines|]. intros d.
    apply refines_refl.
Qed.

Lemma expr_grammar_first_follow_witness :
  let g := expr_grammar_in ["E"; "X"; "T"; "Y"] in
  value (compute_first g 29 ["E"] (fresh g)) = Some {["i"; "("]} ∧
  value (compute_first g 29 ["X"] (fresh g)) = Some {[""; "+"]} ∧
  value (compute_follow g 29 "E" (fresh g)) = Some {["$"; ")"]} ∧
  value (compute_follow g 29 "X" (fresh g)) = Some {["$"; ")"]} ∧
  value (expr_queries g 29 (fresh g)) =
    Some ({["i"; "("]}, {[""; "+"]}, {["$"; ")"]}, {["$"; ")"]}).
Proof.
  apply (expr_grammar_first_follow ["E"; "X"; "T"; "Y"] 29);
    [apply Permutation_refl | lia].
Defined.

(** Checks that compute, for concrete grammars and states. *)
Lemma first_wf_check g (c : cache) :
  bool_decide (map_Forall (λ _ s, s ⊆ {[""]} ∪ used_terminals g) c) = true →
  first_wf g c.
Proof.
  intros H%bool_decide_eq_true k s x Hk Hx.
  specialize (H k s Hk x Hx). set_solver.
Qed.

Lemma first_full_check g (c : cache) :
  bool_decide (Forall (λ nt, nt ∈ dom c) (non_terminals g)) = true →
  first_full g c.
Proof.
  intros H%bool_decide_eq_true nt Hnt. by eapply Forall_forall in H.
Qed.

Lemma bounded_check g (f : cache) :
  bool_decide (pairs f ⊆ follow_bound g) = true → pairs f ⊆ follow_bound g.
Proof. apply bool_decide_eq_true_1. Qed.

(** C5: on a valid grammar [compute_follow] of the axiom returns, and the
    set it returns contains ['$']; a call for whatever non-terminal
    returns, and after every call that returns the cached FOLLOW set of
    the axiom contains ['$'].  A call on a symbol that is not a
    non-terminal does not return: it raises [ValueError] and leaves the
    FOLLOW cache as it found it, so that FOLLOW of the axiom then has
    ['$'] only if it had it before. *)
Theorem follow_axiom_has_end_marker g fuel st :
  valid g → first_wf g (first_cache st) → enough_fuel g ≤ fuel →
  (∃ r st', compute_follow g fuel (axiom g) st = Ok r st' ∧ "$" ∈ r) ∧
  (∀ symbol, symbol ∈ non_terminals g →
     ∃ r st', compute_follow g fuel symbol st = Ok r st' ∧
              ∃ s, follow_cache st' !! axiom g = Some s ∧ "$" ∈ s) ∧
  (∀ symbol r st', compute_follow g fuel symbol st = Ok r st' →
     ∃ s, follow_cache st' !! axiom g = Some s ∧ "$" ∈ s) ∧
  (∀ symbol, symbol ∉ non_terminals g →
     ∃ st', compute_follow g fuel symbol st =
              Raise (ValueError (NotANonTerminal symbol)) st' ∧
            follow_cache st' = follow_cache st).
Proof.
  intros Hv Hwf Hf.
  assert (∀ symbol, symbol ∈ non_terminals g →
     ∃ r st', compute_follow g fuel symbol st = Ok r st' ∧
              follow_cache st' !! symbol = Some r ∧
              ∃ s, follow_cache st' !! axiom g = Some s ∧ "$" ∈ s) as Hall.
  { intros symbol Hs.
    destruct (compute_follow_spec g fuel symbol st Hv Hf Hwf)
      as (st1 & _ & _ & _ & _ & H).
    rewrite decide_True in H by done.
    destruct H as (r & Hr & Hc & _ & _ & _ & Hax). eauto 10. }
  split; [|split; [|split]].
  - destruct (Hall (axiom g) (valid_axiom g Hv))
      as (r & st' & Hr & Hc & s & Hs & Hd).
    exists r, st'. split; [done|]. congruence.
  - intros symbol Hs. destruct (Hall symbol Hs) as (r & st' & Hr & _ & Hax).
    eauto.
  - intros symbol r st' Hr.
    destruct (decide (symbol ∈ non_terminals g)) as [Hs|Hs].
    + destruct (Hall symbol Hs) as (r' & st'' & Hr' & _ & Hax).
      rewrite Hr in Hr'. by inversion Hr'; subst.
    + destruct (compute_follow_spec g fuel symbol st Hv Hf Hwf)
        as (st1 & _ & _ & _ & _ & H).
      rewrite decide_False in H by done. destruct H as [_ H]. congruence.
  - intros symbol Hs.
    destruct (compute_follow_spec g fuel symbol st Hv Hf Hwf)
      as (st1 & _ & _ & _ & _ & H).
    rewrite decide_False in H by done. destruct H as [Hfc H]. eauto.
Qed.

Lemma follow_axiom_has_end_marker_witness :
  (∃ r st', compute_follow ab_grammar 12 (axiom ab_grammar) (fresh ab_grammar)
            = Ok r st' ∧ "$" ∈ r) ∧
  (∀ symbol, symbol ∈ non_terminals ab_grammar →
     ∃ r st', compute_follow ab_grammar 12 symbol (fresh ab_grammar)
              = Ok r st' ∧
              ∃ s, follow_cache st' !! axiom ab_grammar = Some s ∧ "$" ∈ s) ∧
  (∀ symbol r st',
     compute_follow ab_grammar 12 symbol (fresh ab_grammar) = Ok r st' →
     ∃ s, follow_cache st' !! axiom ab_grammar = Some s ∧ "$" ∈ s) ∧
  (∀ symbol, symbol ∉ non_terminals ab_grammar →
     ∃ st', compute_follow ab_grammar 12 symbol (fresh ab_grammar) =
              Raise (ValueError (NotANonTerminal symbol)) st' ∧
            follow_cache st' = follow_cache (fresh ab_grammar)).
Proof.
  apply (follow_axiom_has_end_marker ab_grammar 12 (fresh ab_grammar)).
  - apply init_valid. vm_compute. reflexivity.
  - apply first_wf_check. vm_compute. reflexivity.
  - vm_compute. lia.
Defined.

(** C5 as stated fails: on a new instance of the grammar S -> aB; B -> b,
    a call of [compute_follow] on the terminal [a] raises [ValueError]
    before the FOLLOW cache is rebuilt, and after that call the cached
    FOLLOW set of the axiom is still empty: it does not contain ['$']. *)
Lemma follow_axiom_empty_after_raise :
  is_inr (Grammar_init {["a"; "b"]} ["S"; "B"] [("S", ["aB"]); ("B", ["b"])]
            "S") = true ∧
  ∀ fuel, 12 ≤ fuel →
    ∃ st', compute_follow ab_grammar fuel "a" (fresh ab_grammar) =
             Raise (ValueError (NotANonTerminal "a")) st' ∧
           follow_cache st' !! axiom ab_grammar = Some ∅ ∧
           ¬ ∃ s, follow_cache st' !! axiom ab_grammar = Some s ∧ "$" ∈ s.
Proof.
  split; [vm_compute; reflexivity|]. intros fuel Hf.
  assert (valid ab_grammar) as Hv.
  { apply init_valid. vm_compute. reflexivity. }
  assert (first_wf ab_grammar (first_cache (fresh ab_grammar))) as Hwf.
  { apply first_wf_check. vm_compute. reflexivity. }
  assert (enough_fuel ab_grammar ≤ fuel) as Hf'.
  { assert (enough_fuel ab_grammar ≤ 12) as H12 by (vm_compute; lia). lia. }
  destruct (compute_follow_spec ab_grammar fuel "a" (fresh ab_grammar)
              Hv Hf' Hwf) as (st1 & _ & _ & _ & _ & H).
  rewrite decide_False in H.
  2:{ apply (bool_decide_eq_false_1 ("a" ∈ non_terminals ab_grammar)).
      vm_compute. reflexivity. }
  destruct H as [Hfc H]. exists st1. split; [done|].
  assert (follow_cache st1 !! axiom ab_grammar = Some ∅) as He.
  { rewrite Hfc. vm_compute. reflexivity. }
  split; [done|]. intros (s & Hs & Hd). rewrite He in Hs.
  inversion Hs; subst. set_solver.
Qed.

(** C6: with the FIRST set of every non-terminal cached, each pass of the
    [while] loop completes; it keeps every FOLLOW set inside the finite
    universe (non-terminals paired with terminals of the bodies or ['$']),
    never removes a symbol, and either adds a symbol to some set (and
    reports [changed]) or leaves everything as it is, in which case it is
    the last pass.  Hence the loop stops after at most as many passes as
    the universe has pairs, plus one, at a fixed point of the pass. *)
Theorem follow_iteration_terminates g st :
  valid g →
  first_full g (first_cache st) → first_wf g (first_cache st) →
  first_full g (follow_cache st) →
  pairs (follow_cache st) ⊆ follow_bound g →
  (∃ changed st',
     follow_pass g st = Ok changed st' ∧
     first_cache st' = first_cache st ∧
     first_full g (follow_cache st') ∧
     pairs (follow_cache st) ⊆ pairs (follow_cache st') ∧
     pairs (follow_cache st') ⊆ follow_bound g ∧
     (changed = true →
      pairs (follow_cache st) ⊂ pairs (follow_cache st')) ∧
     (changed = false → st' = st)) ∧
  (∀ fuel, size (follow_bound g) < fuel →
     ∃ st', follow_loop g fuel st = Ok tt st' ∧
            first_cache st' = first_cache st ∧
            pairs (follow_cache st) ⊆ pairs (follow_cache st') ∧
            pairs (follow_cache st') ⊆ follow_bound g ∧
            follow_pass g st' = Ok false st').
Proof.
  intros Hv Hfull Hwf Hdom Hb.
  assert (follow_inv g (first_cache st) st) as Hinv by done.
  split.
  - destruct (follow_pass_spec g (first_cache st) Hv Hfull Hwf st Hinv)
      as (ch & st' & Hp & (Hfc & Hd' & Hb') & Hsub & Hch).
    exists ch, st'. do 5 (split; [done|]).
    destruct Hch as [[-> ->]|[-> Hs]]; split; intros; done.
  - intros fuel Hfuel.
    destruct (follow_loop_spec g (first_cache st) Hv Hfull Hwf fuel st Hinv)
      as (st' & Hl & (Hfc & Hd' & Hb') & Hsub & Hfix).
    { unfold room. eapply Nat.le_lt_trans; [|done].
      apply subseteq_size. set_solver. }
    exists st'. done.
Qed.

Lemma follow_iteration_terminates_witness :
  (∃ changed st',
     follow_pass ab_grammar ab_start = Ok changed st' ∧
     first_cache st' = first_cache ab_start ∧
     first_full ab_grammar (follow_cache st') ∧
     pairs (follow_cache ab_start) ⊆ pairs (follow_cache st') ∧
     pairs (follow_cache st') ⊆ follow_bound ab_grammar ∧
     (changed = true →
      pairs (follow_cache ab_start) ⊂ pairs (follow_cache st')) ∧
     (changed = false → st' = ab_start)) ∧
  (∀ fuel, size (follow_bound ab_grammar) < fuel →
     ∃ st', follow_loop ab_grammar fuel ab_start = Ok tt st' ∧
            first_cache st' = first_cache ab_start ∧
            pairs (follow_cache ab_start) ⊆ pairs (follow_cache st') ∧
            pairs (follow_cache st') ⊆ follow_bound ab_grammar ∧
            follow_pass ab_grammar st' = Ok false st').
Proof.
  apply (follow_iteration_terminates ab_grammar ab_start).
  - apply init_valid. vm_compute. reflexivity.
  - apply first_full_check. vm_compute. reflexivity.
  - apply first_wf_check. vm_compute. reflexivity.
  - apply first_full_check. vm_compute. reflexivity.
  - apply bounded_check. vm_compute. reflexivity.
Defined.

(** C7: on a valid grammar, [compute_first] called twice with the same
    sentence and [compute_follow] called twice with the same symbol, on
    the same instance, end the same way both times: the same set is
    returned, or the same exception raised. *)
Theorem first_follow_idempotent g fuel st :
  valid g → first_wf g (first_cache st) → enough_fuel g ≤ fuel →
  (∀ sentence, ∃ o st1,
     outcome_of (compute_first g fuel sentence st) = Some o ∧
     state_of (compute_first g fuel sentence st) = Some st1 ∧
     outcome_of (compute_first g fuel sentence st1) = Some o) ∧
  (∀ symbol, ∃ o st1,
     outcome_of (compute_follow g fuel symbol st) = Some o ∧
     state_of (compute_follow g fuel symbol st) = Some st1 ∧
     outcome_of (compute_follow g fuel symbol st1) = Some o).
Proof.
  intros Hv Hwf Hf.
  assert (length (non_terminals g) < fuel) as Hlen
    by (unfold enough_fuel in Hf; lia).
  split.
  - intros sentence. unfold compute_first, on_first_cache.
    pose proof (first_spec g Hv fuel sentence (first_cache st)) as Hs.
    pose proof (first_terminates g fuel sentence (first_cache st) Hv Hlen) as Ht.
    destruct fuel as [|n]; [lia|].
    destruct (_first g (S n) sentence (first_cache st)) as [r c'|e c'|];
      [| |done]; destruct Hs as [_ Hc]; eexists _, _;
      (split; [done|]); (split; [done|]); cbn [first_cache];
      by rewrite (first_of_cached g n _ _ _ Hc).
  - intros symbol.
    destruct (compute_follow_spec g fuel symbol st Hv Hf Hwf)
      as (st1 & Hfull & Hwf1 & Hsub & He & H).
    assert (ensure_first g fuel (non_terminals g) st1 = Ok tt st1) as He1.
    { apply ensure_first_full; [lia|]. intros nt Hnt. split; [done|].
      by apply Hfull. }
    destruct (decide (symbol ∈ non_terminals g)) as [Hs|Hs].
    + destruct H as (r & Hr & _). exists (inr r), st1. rewrite Hr.
      split; [done|]. split; [done|].
      rewrite compute_follow_unfold in Hr by done.
      rewrite He in Hr. rewrite decide_False in Hr by (by intros ?).
      rewrite compute_follow_unfold by done.
      rewrite He1. rewrite decide_False by (by intros ?).
      assert (follow_start g st1 =
              follow_start g {| first_cache := first_cache st1;
                                follow_cache := follow_cache st |}) as ->
        by done.
      by rewrite Hr.
    + destruct H as [_ Hr]. eexists _, st1. rewrite Hr.
      split; [done|]. split; [done|].
      rewrite compute_follow_unfold by done.
      rewrite He1. by rewrite decide_True.
Qed.

Lemma first_follow_idempotent_witness :
  (∀ sentence, ∃ o st1,
     outcome_of (compute_first ab_grammar 12 sentence (fresh ab_grammar))
       = Some o ∧
     state_of (compute_first ab_grammar 12 sentence (fresh ab_grammar))
       = Some st1 ∧
     outcome_of (compute_first ab_grammar 12 sentence st1) = Some o) ∧
  (∀ symbol, ∃ o st1,
     outcome_of (compute_follow ab_grammar 12 symbol (fresh ab_grammar))
       = Some o ∧
     state_of (compute_follow ab_grammar 12 symbol (fresh ab_grammar))
       = Some st1 ∧
     outcome_of (compute_follow ab_grammar 12 symbol st1) = Some o).
Proof.
  apply (first_follow_idempotent ab_grammar 12 (fresh ab_grammar)).
  - apply init_valid. vm_compute. reflexivity.
  - apply first_wf_check. vm_compute. reflexivity.
  - vm_compute. lia.
Defined.

(** ** The parser *)

Lemma ab_table_built fuel :
  value (get_ll1_table ab_grammar (12 + fuel) (fresh ab_grammar))
  = Some (Some ab_table).
Proof.
  eapply (value_refines (get_ll1_table ab_grammar 12));
    [apply get_ll1_table_refines; lia|].
  vm_compute. reflexivity.
Qed.

(** C1 (the code departs from it): on the table of S -> aB; B -> b, the
    input [ab] followed by the end-marker is accepted from [S], but the
    value returned is the bare node of ['$'], not the tree S(a, B(b)):
    [tree_stack[0]] is the node pushed for the end-marker. *)
Theorem analyze_ab_returns_marker fuel :
  analyze (5 + fuel) "ab$" "S" ab_table = Ok (Node "$" []) ab_table ∧
  Node "$" [] ≠ ab_tree.
Proof.
  split; [|done].
  rewrite (analyze_refines 5 (5 + fuel) "ab$" "S"); [|lia|];
    vm_compute; [reflexivity | discriminate].
Qed.

(** C2 (the code departs from it): the leaves of the tree returned for the
    accepted input [ab$] are the single symbol ['$'], which is neither the
    input nor the input without its end-marker. *)
Theorem analyze_ab_leaves fuel :
  ∃ t, analyze (5 + fuel) "ab$" "S" ab_table = Ok t ab_table ∧
       leaves t = ["$"] ∧
       leaves t ≠ chars "ab$" ∧ leaves t ≠ chars "ab".
Proof.
  exists (Node "$" []). split; [|done].
  rewrite (analyze_refines 5 (5 + fuel) "ab$" "S"); [|lia|];
    vm_compute; [reflexivity | discriminate].
Qed.

(** C9: a call of [analyze] that returns or raises leaves the table as it
    was, so that any later call on it behaves as on the original table. *)
Theorem analyze_keeps_table fuel input start self self' :
  state_of (analyze fuel input start self) = Some self' →
  self' = self ∧
  cells self' = cells self ∧
  table_terminals self' = table_terminals self ∧
  table_non_terminals self' = table_non_terminals self ∧
  ∀ fuel2 input2 start2,
    analyze fuel2 input2 start2 self' = analyze fuel2 input2 start2 self.
Proof.
  intros H. apply analyze_frame in H. by subst.
Qed.

Lemma analyze_keeps_table_witness :
  state_of (analyze 4 "ba$" "S" ab_table) = Some ab_table ∧
  (ab_table = ab_table ∧
   cells ab_table = cells ab_table ∧
   table_terminals ab_table = table_terminals ab_table ∧
   table_non_terminals ab_table = table_non_terminals ab_table ∧
   ∀ fuel2 input2 start2,
     analyze fuel2 input2 start2 ab_table
     = analyze fuel2 input2 start2 ab_table).
Proof.
  assert (state_of (analyze 4 "ba$" "S" ab_table) = Some ab_table) as H
    by (vm_compute; reflexivity).
  split; [exact H|].
  exact (analyze_keeps_table 4 "ba$" "S" ab_table ab_table H).
Defined.

(** C10, as the code has it: on an input without ['$'], [analyze] never
    returns a tree; whenever it stops, it stops with [SyntaxError].  (It
    need not stop, as the table [cyclic_table] shows.) *)
Theorem analyze_needs_end_marker fuel input start self :
  "$" ∉ chars input →
  (∀ t s, analyze fuel input start self ≠ Ok t s) ∧
  (analyze fuel input start self = OutOfFuel ∨
   ∃ e, analyze fuel input start self = Raise (SyntaxError e) self) ∧
  (input = "" →
   analyze fuel input start self = Raise (SyntaxError InputNotConsumed) self).
Proof.
  intros Hin. split; [|split].
  - destruct (analyze_without_marker fuel input start self Hin) as [H|[e H]];
      rewrite H; done.
  - apply analyze_without_marker, Hin.
  - intros ->. by destruct fuel.
Qed.

Lemma analyze_needs_end_marker_witness :
  ("$" ∉ chars "ab") ∧
  (∀ t s, analyze 4 "ab" "S" ab_table ≠ Ok t s) ∧
  (analyze 4 "ab" "S" ab_table = OutOfFuel ∨
   ∃ e, analyze 4 "ab" "S" ab_table = Raise (SyntaxError e) ab_table) ∧
  ("ab" = "" →
   analyze 4 "ab" "S" ab_table
   = Raise (SyntaxError InputNotConsumed) ab_table).
Proof.
  assert ("$" ∉ chars "ab") as H.
  { apply (bool_decide_eq_false_1 ("$" ∈ chars "ab")). vm_compute.
    reflexivity. }
  split; [exact H|].
  exact (analyze_needs_end_marker 4 "ab" "S" ab_table H).
Defined.

(** C10 as stated fails: on the table whose cell (A, a) holds [A], the
    input [a] has no ['$'], and [analyze] neither returns nor raises
    [SyntaxError], however long it runs. *)
Lemma analyze_cyclic_table :
  ("$" ∉ chars "a") ∧
  ¬ ∃ fuel e s,
      analyze fuel "a" "A" cyclic_table = Raise (SyntaxError e) s.
Proof.
  split.
  - apply (bool_decide_eq_false_1 ("$" ∈ chars "a")). vm_compute.
    reflexivity.
  - intros (fuel & e & s & H). unfold analyze, bind in H.
    rewrite cyclic_loop in H; done.
Qed.

(** ** Table construction *)

Lemma join_chars s : join (chars s) = s.
Proof. induction s as [|a s IH]; [done|]. unfold join in *. simpl. by rewrite IH. Qed.

Lemma assign_None cs : assign cs None = None.
Proof. by destruct cs as [|[[??]?]?]. Qed.

Lemma assign_app cs1 cs2 table :
  assign (cs1 ++ cs2) table = assign cs2 (assign cs1 table).
Proof.
  revert table. induction cs1 as [|[[h t] b] cs1 IH]; intros table; simpl.
  - done.
  - destruct table as [tb|]; [|by rewrite assign_None].
    destruct (cell_get tb h t); [by rewrite assign_None|]. apply IH.
Qed.

Lemma empty_table_ok g : table_ok g (empty_table g).
Proof.
  split; [done|]. split; [done|]. intros h Hh. simpl.
  exists (gset_to_gmap None (follow_universe g)). split.
  - apply lookup_gset_to_gmap_Some. by rewrite elem_of_list_to_set.
  - apply dom_gset_to_gmap.
Qed.

Lemma empty_table_get g h t : cell_get (empty_table g) h t = None.
Proof.
  unfold cell_get. simpl.
  destruct (gset_to_gmap _ _ !! h) as [row|] eqn:Hr; [|done].
  apply lookup_gset_to_gmap_Some in Hr as [_ <-].
  destruct (gset_to_gmap _ _ !! t) as [v|] eqn:Hv; [|done].
  by apply lookup_gset_to_gmap_Some in Hv as [_ <-].
Qed.

Lemma set_cell_ok g tb h t b :
  table_ok g tb → t ∈ follow_universe g → table_ok g (set_cell h t b tb).
Proof.
  intros (Ht & Hn & Hrows) Hcol. split; [done|]. split; [done|].
  intros h' Hh'. simpl. destruct (Hrows h' Hh') as (row' & Hr' & Hd').
  destruct (cells tb !! h) as [row|] eqn:Hr; [|eauto].
  destruct (decide (h = h')) as [->|Hne].
  - rewrite lookup_insert_eq. eexists. split; [done|].
    rewrite dom_insert_L. rewrite Hr in Hr'. inversion Hr'; subst.
    set_solver.
  - rewrite lookup_insert_ne by done. eauto.
Qed.


Lemma set_cell_get_ne tb h t b h' t' :
  (h', t') ≠ (h, t) →
  cell_get (set_cell h t b tb) h' t' = cell_get tb h' t'.
Proof.
  intros Hne. unfold cell_get, set_cell. simpl.
  destruct (cells tb !! h) as [row|] eqn:Hr; [|done].
  destruct (decide (h = h')) as [->|Hh].
  - rewrite lookup_insert_eq, Hr.
    rewrite lookup_insert_ne; [done|]. congruence.
  - by rewrite lookup_insert_ne.
Qed.

(** [add_cell] on a table of the grammar: the three [ValueError] checks
    pass, and the cell is written unless it is already filled. *)
Lemma add_cell_spec g tb h t b :
  table_ok g tb → h ∈ non_terminals g → t ∈ follow_universe g →
  (∀ x, x ∈ chars b → x ∈ body_symbols g) →
  add_cell h t b tb =
  match cell_get tb h t with
  | Some _ => Raise (RepeatedCellError h t) tb
  | None => Ok tt (set_cell h t b tb)
  end.
Proof.
  intros (Ht & Hn & Hrows) Hh Hcol Hb. unfold add_cell, bind, get, raise, put.
  rewrite Ht, Hn.
  rewrite decide_False by (rewrite elem_of_list_to_set; tauto).
  rewrite decide_False by tauto.
  assert (forallb (λ x, bool_decide
            (x ∈ follow_universe g ∪ list_to_set (non_terminals g)))
            (chars b) = true) as ->.
  { apply forallb_forall. intros x Hx%list_elem_of_In. apply bool_decide_eq_true.
    specialize (Hb x Hx). unfold follow_universe, used_terminals.
    destruct (decide (x ∈ non_terminals g)); set_solver. }
  simpl. destruct (Hrows h Hh) as (row & Hr & Hd). unfold cell_get.
  rewrite Hr.
  assert (t ∈ dom row) as [v Hv]%elem_of_dom by (by rewrite Hd).
  rewrite Hv. by destruct v.
Qed.

Lemma add_cells_spec g tb h ts b :
  table_ok g tb → h ∈ non_terminals g →
  (∀ t, t ∈ ts → t ∈ follow_universe g) →
  (∀ x, x ∈ chars b → x ∈ body_symbols g) →
  add_cells h ts b tb = inr (assign ((λ t, (h, t, b)) <$> ts) (Some tb)) ∧
  ∀ tb', assign ((λ t, (h, t, b)) <$> ts) (Some tb) = Some tb' →
         table_ok g tb'.
Proof.
  intros Hok Hh Hts Hb. revert tb Hok.
  induction ts as [|t ts IH]; intros tb Hok; simpl.
  - split; [done|]. by intros tb' [= <-].
  - rewrite (add_cell_spec g tb h t b) by (auto; apply Hts; by left).
    destruct (cell_get tb h t); [done|].
    apply IH.
    + intros t' Ht'. apply Hts. by right.
    + apply set_cell_ok; [done|]. apply Hts. by left.
Qed.




Lemma scan_cached_full g (c : cache) seq fs :
  first_full g c → valid_seq g seq →
  ∃ r, scan_cached g c seq fs = Some (inr r).
Proof.
  intros Hfull. revert fs. induction seq as [|symbol rest IH]; intros fs Hv;
    simpl; [by eauto|].
  destruct (decide (symbol ∈ terminals g)); [by eauto|].
  destruct (decide (symbol ∈ non_terminals g)) as [Hnt|Hnt].
  - pose proof (Hfull symbol Hnt) as Hd. apply elem_of_dom in Hd as [v Hc].
    rewrite Hc. destruct (decide ("" ∉ v)); [by eauto|].
    destruct rest as [|s rest]; [by eauto|]. apply IH.
    intros x Hx. apply Hv. by right.
  - destruct (Hv symbol); [by left|done..].
Qed.

Lemma first_cached_full g (c : cache) seq :
  first_full g c → valid_seq g seq →
  ∃ r, first_cached g c seq = Some (inr r).
Proof.
  intros Hfull Hv. destruct seq; [by eexists|]. by apply scan_cached_full.
Qed.

Lemma compute_first_cached g fuel seq st r :
  0 < fuel → first_cached g (first_cache st) seq = Some (inr r) →
  compute_first g fuel seq st = Ok r st.
Proof.
  intros Hf Hc. destruct fuel as [|n]; [lia|].
  unfold compute_first, on_first_cache.
  rewrite (first_of_cached g n _ _ _ Hc). by destruct st.
Qed.

Section TableSpec.
Variables (g : Grammar) (st : caches) (fuel : nat).
Hypothesis g_valid : valid g.
Hypothesis st_complete : caches_complete g st.
Hypothesis fuel_pos : 0 < fuel.

Lemma prod_cells_keys head prods prod h t b :
  (head, prods) ∈ productions g → prod ∈ prods →
  (h, t, b) ∈ prod_cells g st head prod →
  h = head ∧ b = prod ∧ h ∈ non_terminals g ∧ t ∈ follow_universe g.
Proof.
  intros Hhp Hp. destruct st_complete as (Hfull & Hwf & Hinv & _).
  assert (head ∈ non_terminals g) as Hhead.
  { apply (valid_keys g g_valid). apply list_elem_of_fmap.
    by exists (head, prods). }
  unfold prod_cells.
  destruct (first_cached g (first_cache st) (chars prod))
    as [[e|fa]|] eqn:Hfa; [intros H; inversion H| |intros H; inversion H].
  intros [Hin|Hin]%elem_of_app.
  - apply list_elem_of_fmap in Hin as (t' & [= -> -> ->] & Ht).
    do 3 (split; [done|]).
    apply elem_of_elements, elem_of_difference in Ht as [Ht Hne].
    destruct (first_cached_bound g _ _ _ g_valid Hwf
                (λ x Hx, elem_of_body_symbols g head prods prod x Hhp Hp Hx)
                Hfa t' Ht) as [->|Hu]; [set_solver|].
    unfold follow_universe. set_solver.
  - destruct (decide ("" ∈ fa)); [|inversion Hin].
    apply list_elem_of_fmap in Hin as (t' & [= -> -> ->] & Ht).
    do 3 (split; [done|]). apply elem_of_elements in Ht.
    destruct (follow_inv_lookup g _ st head Hinv Hhead) as (s & Hs & Hsu).
    rewrite Hs in Ht. by apply Hsu.
Qed.

Lemma table_prod_spec head prods prod table :
  (head, prods) ∈ productions g → prod ∈ prods →
  table_ok_opt g table →
  table_prod g fuel head prod table st =
    Ok (assign (prod_cells g st head prod) table) st ∧
  table_ok_opt g (assign (prod_cells g st head prod) table).
Proof.
  intros Hhp Hp Hok. pose proof st_complete as (Hfull & Hwf & Hinv & _).
  assert (head ∈ non_terminals g) as Hhead.
  { apply (valid_keys g g_valid). apply list_elem_of_fmap.
    by exists (head, prods). }
  assert (∀ x, x ∈ chars prod → x ∈ body_symbols g) as Hbody.
  { intros x Hx. by eapply elem_of_body_symbols. }
  destruct table as [tb|].
  2:{ simpl. rewrite assign_None. split; [done|]. by intros tb. }
  specialize (Hok tb eq_refl).
  pose proof (prod_cells_keys head prods prod) as Hkeys.
  unfold prod_cells in *. unfold table_prod.
  destruct (first_cached_full g (first_cache st) (chars prod) Hfull)
    as [fa Hfa].
  { intros x Hx. by eapply (valid_bodies g g_valid). }
  rewrite Hfa in *. unfold bind.
  rewrite (compute_first_cached g fuel _ st fa fuel_pos Hfa).
  rewrite join_chars.
  destruct (add_cells_spec g tb head (elements (fa ∖ {[""]})) prod Hok Hhead)
    as [Ha1 Hok1]; [|done|].
  { intros t Ht. eapply (Hkeys head t prod); [done..|].
    apply elem_of_app. left. apply list_elem_of_fmap. eauto. }
  rewrite Ha1. simpl. unfold ret at 1. rewrite assign_app.
  destruct (assign _ (Some tb)) as [tb1|] eqn:H1.
  2:{ rewrite assign_None. split; [done|]. by intros tb'. }
  specialize (Hok1 tb1 eq_refl).
  destruct (decide ("" ∈ fa)) as [Hnull|Hnull].
  2:{ simpl. split; [done|]. by intros tb' [= <-]. }
  unfold get. destruct (follow_inv_lookup g _ st head Hinv Hhead)
    as (s & Hs & Hsu).
  rewrite Hs. simpl.
  destruct (add_cells_spec g tb1 head (elements s) prod Hok1 Hhead)
    as [Ha2 Hok2]; [|done|].
  { intros t Ht. apply Hsu. by apply elem_of_elements. }
  rewrite Ha2. simpl. split; [done|]. intros tb'. apply Hok2.
Qed.

Lemma table_prods_spec head prods prods' table :
  (head, prods) ∈ productions g → prods' ⊆ prods →
  table_ok_opt g table →
  for_fold prods' (λ prod table, table_prod g fuel head prod table)
    table st =
    Ok (assign (prod ← prods'; prod_cells g st head prod) table) st ∧
  table_ok_opt g (assign (prod ← prods'; prod_cells g st head prod) table).
Proof.
  intros Hhp. revert table.
  induction prods' as [|prod prods' IH]; intros table Hsub Hok; simpl.
  - done.
  - destruct (table_prod_spec head prods prod table) as [Hp Hok1];
      [done|set_solver|done|].
    unfold bind. rewrite Hp. rewrite assign_app. apply IH; [set_solver|done].
Qed.

Lemma table_fill_spec items table :
  items ⊆ productions g → table_ok_opt g table →
  for_fold items
    (λ '(head, prods) table,
       for_fold prods (λ prod table, table_prod g fuel head prod table)
         table)
    table st =
    Ok (assign ('(head, prods) ← items; prod ← prods;
                prod_cells g st head prod) table) st.
Proof.
  revert table.
  induction items as [|[head prods] items IH]; intros table Hsub Hok; simpl.
  - done.
  - destruct (table_prods_spec head prods prods table) as [Hp Hok1];
      [set_solver|done..|].
    unfold bind. rewrite Hp. rewrite assign_app. apply IH; [set_solver|done].
Qed.

Lemma cell_assignments_keys h t b :
  (h, t, b) ∈ cell_assignments g st →
  h ∈ non_terminals g ∧ t ∈ follow_universe g.
Proof.
  unfold cell_assignments.
  intros ([head prods] & Hin & Hhp)%list_elem_of_bind.
  apply list_elem_of_bind in Hin as (prod & Hin & Hp).
  by destruct (prod_cells_keys head prods prod h t b Hhp Hp Hin)
    as (_ & _ & ? & ?).
Qed.
End TableSpec.

Lemma ensure_follow_cons g fuel nt l st :
  ensure_follow g fuel (nt :: l) st =
  match compute_follow g fuel nt st with
  | Ok _ st' => ensure_follow g fuel l st'
  | Raise e st' => Raise e st'
  | OutOfFuel => OutOfFuel
  end.
Proof.
  unfold ensure_follow. cbn [for_each]. unfold bind.
  by destruct (compute_follow g fuel nt st).
Qed.

Lemma ensure_follow_spec g fuel l st :
  valid g → enough_fuel g ≤ fuel →
  (∀ nt, nt ∈ l → nt ∈ non_terminals g) →
  first_wf g (first_cache st) →
  ∃ st', ensure_follow g fuel l st = Ok tt st' ∧
         first_wf g (first_cache st') ∧
         (l ≠ [] →
          caches_complete g st' ∧
          follow_loop g fuel (follow_start g st') = Ok tt st').
Proof.
  intros Hv Hf. revert st. induction l as [|nt l IH]; intros st Hl Hwf.
  - exists st. done.
  - rewrite ensure_follow_cons.
    destruct (compute_follow_spec g fuel nt st Hv Hf Hwf)
      as (st1 & Hfull & Hwf1 & _ & _ & H).
    rewrite decide_True in H by (apply Hl; by left).
    destruct H as (r & Hr & _ & Hinv & Hloop & Hfix & _).
    rewrite Hr.
    destruct (IH st1) as (st' & He & Hwf' & Hc); [|done|].
    { intros x Hx. apply Hl. by right. }
    rewrite He.
    exists st'. split; [done|]. split; [done|]. intros _.
    destruct l as [|nt' l]; [|by apply Hc].
    inversion He; subst. done.
Qed.

Lemma compute_follow_complete g fuel st head :
  valid g → 0 < fuel → caches_complete g st →
  follow_loop g fuel (follow_start g st) = Ok tt st →
  head ∈ non_terminals g →
  ∃ s, follow_cache st !! head = Some s ∧
       compute_follow g fuel head st = Ok s st.
Proof.
  intros Hv Hf (Hfull & Hwf & Hinv & _) Hloop Hhead.
  destruct (follow_inv_lookup g _ st head Hinv Hhead) as (s & Hs & _).
  exists s. split; [done|].
  rewrite compute_follow_unfold by done.
  rewrite ensure_first_full; [|done|by auto].
  rewrite decide_False by (by intros ?).
  unfold follow_rest. rewrite decide_False by (by intros ?).
  unfold bind, get. by rewrite Hloop, Hs.
Qed.

Lemma init_empty_table g :
  "$" ∉ non_terminals g →
  LL1Table_init (list_to_set (non_terminals g))
    ((list_to_set (body_symbols g) ∖ list_to_set (non_terminals g))
     ∪ {["$"]})
  = inr (empty_table g).
Proof.
  intros Hd. unfold LL1Table_init. rewrite decide_False; [done|].
  intros Hne. apply Hne. apply set_eq. intros x.
  rewrite elem_of_intersection, elem_of_union, elem_of_difference,
    elem_of_singleton, !elem_of_list_to_set.
  split; [|set_solver]. intros [[[_ ?]| ->] ?]; done.
Qed.

(** When ['$'] is declared as a non-terminal, the constructor of the table
    refuses the column set and [get_ll1_table] ends with its
    [ValueError]. *)
Lemma init_table_marker_clash g :
  "$" ∈ non_terminals g →
  LL1Table_init (list_to_set (non_terminals g))
    ((list_to_set (body_symbols g) ∖ list_to_set (non_terminals g))
     ∪ {["$"]})
  = inl (ValueError TerminalsOverlap).
Proof.
  intros Hd. unfold LL1Table_init. rewrite decide_True; [done|].
  intros He. assert ("$" ∈ (∅ : gset string)) as H; [|set_solver].
  rewrite <- He. set_solver.
Qed.





(** [get_ll1_table] computes the caches and then fills the cells in
    order. *)
Lemma get_ll1_table_assign g fuel st :
  valid g → "$" ∉ non_terminals g →
  first_wf g (first_cache st) → enough_fuel g ≤ fuel →
  ∃ st',
    caches_complete g st' ∧
    follow_loop g fuel (follow_start g st') = Ok tt st' ∧
    get_ll1_table g fuel st =
      Ok (assign (cell_assignments g st') (Some (empty_table g))) st'.
Proof.
  intros Hv Hd Hwf Hf.
  assert (0 < fuel) as Hpos by (unfold enough_fuel in Hf; lia).
  destruct (ensure_follow_spec g fuel (non_terminals g) st Hv Hf)
    as (st' & He & Hwf' & Hc); [done..|].
  destruct Hc as [Hc Hloop].
  { intros Hnil. pose proof (valid_axiom g Hv) as Ha. rewrite Hnil in Ha.
    inversion Ha. }
  exists st'. split; [done|]. split; [done|].
  unfold get_ll1_table. unfold bind at 1.
  fold (ensure_follow g fuel (non_terminals g)). rewrite He.
  rewrite init_empty_table by done.
  apply (table_fill_spec g st' fuel Hv Hc Hpos); [done|].
  intros tb [= <-]. apply empty_table_ok.
Qed.

(** The first loop of [get_ll1_table] changes nothing in a state that it
    has left before. *)
Lemma ensure_follow_complete g fuel l st :
  valid g → 0 < fuel → caches_complete g st →
  follow_loop g fuel (follow_start g st) = Ok tt st →
  (∀ nt, nt ∈ l → nt ∈ non_terminals g) →
  ensure_follow g fuel l st = Ok tt st.
Proof.
  intros Hv Hf Hc Hloop. induction l as [|nt l IH]; intros Hl; [done|].
  rewrite ensure_follow_cons.
  destruct (compute_follow_complete g fuel st nt Hv Hf Hc Hloop)
    as (s & _ & ->); [apply Hl; by left|].
  apply IH. intros x Hx. apply Hl. by right.
Qed.

(** On a valid grammar the first loop of [get_ll1_table] always completes. *)
Lemma ensure_follow_all g fuel st :
  valid g → first_wf g (first_cache st) → enough_fuel g ≤ fuel →
  ∃ st', ensure_follow g fuel (non_terminals g) st = Ok tt st' ∧
         caches_complete g st' ∧
         follow_loop g fuel (follow_start g st') = Ok tt st'.
Proof.
  intros Hv Hwf Hf.
  destruct (ensure_follow_spec g fuel (non_terminals g) st Hv Hf)
    as (st' & He & Hwf' & Hc); [done..|].
  destruct Hc as [Hc Hloop].
  { intros Hnil. pose proof (valid_axiom g Hv) as Ha. rewrite Hnil in Ha.
    inversion Ha. }
  by exists st'.
Qed.

(** After the first loop: the [ValueError] of the constructor of the table
    when ['$'] is a non-terminal, the cell assignments otherwise. *)
Lemma get_ll1_table_clash g fuel st st' :
  "$" ∈ non_terminals g →
  ensure_follow g fuel (non_terminals g) st = Ok tt st' →
  get_ll1_table g fuel st = Raise (ValueError TerminalsOverlap) st'.
Proof.
  intros Hd He. unfold get_ll1_table. unfold bind at 1.
  fold (ensure_follow g fuel (non_terminals g)). rewrite He.
  by rewrite init_table_marker_clash.
Qed.

Lemma get_ll1_table_filled g fuel st st' :
  valid g → "$" ∉ non_terminals g → 0 < fuel →
  ensure_follow g fuel (non_terminals g) st = Ok tt st' →
  caches_complete g st' →
  get_ll1_table g fuel st =
    Ok (assign (cell_assignments g st') (Some (empty_table g))) st'.
Proof.
  intros Hv Hd Hpos He Hc. unfold get_ll1_table. unfold bind at 1.
  fold (ensure_follow g fuel (non_terminals g)). rewrite He.
  rewrite init_empty_table by done.
  apply (table_fill_spec g st' fuel Hv Hc Hpos); [done|].
  intros tb [= <-]. apply empty_table_ok.
Qed.




(** * Further properties of the code *)

(** ** Derivations *)

Lemma derives_mono (rule rule' : string → string → Prop) ss xs :
  (∀ A b, rule A b → rule' A b) → derives rule ss xs → derives rule' ss xs.
Proof.
  intros Hsub. induction 1 as [|pre A b post _ IH Hr].
  - constructor.
  - apply (derives_step _ _ pre A b post); [done|by apply Hsub].
Qed.

Lemma derives_trans rule a b c :
  derives rule a b → derives rule b c → derives rule a c.
Proof.
  intros Hab Hbc. induction Hbc as [|pre A body post _ IH Hr]; [done|].
  by apply (derives_step _ _ pre A body post).
Qed.

Lemma derives_ctx rule pre post a b :
  derives rule a b → derives rule (pre ++ a ++ post) (pre ++ b ++ post).
Proof.
  induction 1 as [|p A body q _ IH Hr]; [constructor|].
  replace (pre ++ (p ++ chars body ++ q) ++ post)
    with ((pre ++ p) ++ chars body ++ (q ++ post))
    by (by rewrite <- !app_assoc).
  apply (derives_step _ _ (pre ++ p) A body (q ++ post)); [|done].
  replace ((pre ++ p) ++ A :: q ++ post)
    with (pre ++ (p ++ A :: q) ++ post); [done|].
  by rewrite <- !app_assoc.
Qed.

Lemma derives_rule (rule : string → string → Prop) A b :
  rule A b → derives rule [A] (chars b).
Proof.
  intros Hr. pose proof (derives_step rule [A] [] A b [] (derives_refl _ _) Hr)
    as H. simpl in H. by rewrite app_nil_r in H.
Qed.

Lemma derives_cons_l rule x a b :
  derives rule a b → derives rule (x :: a) (x :: b).
Proof.
  intros H. pose proof (derives_ctx rule [x] [] a b H) as H'.
  by rewrite !app_nil_r in H'.
Qed.

Lemma derives_app_r rule a b post :
  derives rule a b → derives rule (a ++ post) (b ++ post).
Proof. intros H. exact (derives_ctx rule [] post a b H). Qed.

(** ** [compute_first] *)

Lemma scan_cached_inl g (c : cache) seq fs e :
  scan_cached g c seq fs = Some (inl e) →
  ∃ s, e = ValueError (NeitherTerminalNorNonTerminal s) ∧ s ∈ seq ∧
       (s ∉ terminals g) ∧ (s ∉ non_terminals g).
Proof.
  revert fs. induction seq as [|symbol rest IH]; intros fs; simpl; [done|].
  destruct (decide (symbol ∈ terminals g)); [done|].
  destruct (decide (symbol ∈ non_terminals g)).
  - destruct (c !! symbol) as [v|]; [|done].
    destruct (decide ("" ∉ v)); [done|].
    destruct rest as [|s rest]; [done|].
    intros (x & ? & ? & ?)%IH. exists x. split; [done|]. split; [by right|done].
  - intros [= <-]. exists symbol. split; [done|]. split; [by left|done].
Qed.

(** X1: [compute_first] always comes to an end, also on left-recursive
    grammars: the cache entry of a non-terminal is created before its
    bodies are visited, so the recursion is never deeper than the number of
    non-terminals.  It returns when every symbol of the sentence is
    declared, and the only exception it raises is the [ValueError] for a
    symbol of the sentence that is neither terminal nor non-terminal. *)
Theorem compute_first_terminates g fuel sentence st :
  valid g → length (non_terminals g) < fuel →
  compute_first g fuel sentence st ≠ OutOfFuel ∧
  (valid_seq g sentence →
   ∃ r st', compute_first g fuel sentence st = Ok r st') ∧
  (∀ e st', compute_first g fuel sentence st = Raise e st' →
     ∃ s, e = ValueError (NeitherTerminalNorNonTerminal s) ∧
          s ∈ sentence ∧ (s ∉ terminals g) ∧ (s ∉ non_terminals g)).
Proof.
  intros Hv Hf. unfold compute_first, on_first_cache.
  pose proof (first_spec g Hv fuel sentence (first_cache st)) as Hs.
  pose proof (first_terminates g fuel sentence (first_cache st) Hv Hf) as Ht.
  destruct (_first g fuel sentence (first_cache st)) as [r c'|e c'|];
    [| |done].
  - split; [done|]. split; [by eauto|]. intros e st' [=].
  - destruct Hs as [_ Hc]. destruct sentence as [|s0 sentence]; [done|].
    apply scan_cached_inl in Hc as (s & -> & Hin & Hnt & Hnn).
    split; [done|]. split.
    + intros Hval. destruct (Hval s Hin); done.
    + intros e st' [= <- <-]. eauto.
Qed.

Lemma compute_first_terminates_witness :
  compute_first ab_grammar 3 ["S"; "x"] (fresh ab_grammar) ≠ OutOfFuel ∧
  (valid_seq ab_grammar ["S"; "x"] →
   ∃ r st', compute_first ab_grammar 3 ["S"; "x"] (fresh ab_grammar)
            = Ok r st') ∧
  (∀ e st',
     compute_first ab_grammar 3 ["S"; "x"] (fresh ab_grammar) = Raise e st' →
     ∃ s, e = ValueError (NeitherTerminalNorNonTerminal s) ∧
          s ∈ ["S"; "x"] ∧ (s ∉ terminals ab_grammar) ∧
          (s ∉ non_terminals ab_grammar)).
Proof.
  apply (compute_first_terminates ab_grammar 3 ["S"; "x"] (fresh ab_grammar)).
  - apply init_valid. vm_compute. reflexivity.
  - vm_compute. lia.
Defined.

(** X2: Memoization is stable: a call of [compute_first], whether it returns
    or raises, leaves the FOLLOW cache alone and never changes a FIRST set
    that was already cached; it only adds entries. *)
Theorem compute_first_extends_cache g fuel sentence st st' :
  valid g →
  state_of (compute_first g fuel sentence st) = Some st' →
  follow_cache st' = follow_cache st ∧
  ∀ nt fs, first_cache st !! nt = Some fs → first_cache st' !! nt = Some fs.
Proof.
  intros Hv. unfold compute_first, on_first_cache.
  pose proof (first_spec g Hv fuel sentence (first_cache st)) as Hs.
  destruct (_first g fuel sentence (first_cache st)) as [r c'|e c'|];
    [| |done]; intros [= <-]; simpl; destruct Hs as [Hsub _];
    (split; [done|]); intros nt fs Hnt; by eapply lookup_weaken.
Qed.

Lemma compute_first_extends_cache_witness :
  let st' := {| first_cache := {["S" := {["a"]}]};
                follow_cache := follow_cache (fresh ab_grammar) |} in
  state_of (compute_first ab_grammar 3 ["S"] (fresh ab_grammar)) = Some st' ∧
  (follow_cache st' = follow_cache (fresh ab_grammar) ∧
   ∀ nt fs, first_cache (fresh ab_grammar) !! nt = Some fs →
            first_cache st' !! nt = Some fs).
Proof.
  intros st'.
  assert (state_of (compute_first ab_grammar 3 ["S"] (fresh ab_grammar))
          = Some st') as H by (vm_compute; reflexivity).
  split; [exact H|].
  apply (compute_first_extends_cache ab_grammar 3 ["S"] (fresh ab_grammar) st');
    [|exact H].
  apply init_valid. vm_compute. reflexivity.
Defined.

Lemma chars_nonempty s x : x ∈ chars s → x ≠ "".
Proof.
  induction s as [|a s IH]; simpl; [by intros H; inversion H|].
  intros [->|H]%elem_of_cons; [done|by apply IH].
Qed.

Lemma used_terminals_nonempty g : "" ∉ used_terminals g.
Proof.
  intros [Hb _]%elem_of_difference. rewrite elem_of_list_to_set in Hb.
  apply elem_of_body_symbols_inv in Hb as (nt & prods & r & _ & _ & Hx).
  by apply chars_nonempty in Hx.
Qed.

(** X3: A FIRST set holds terminals and ε only, never a non-terminal: every
    element of the set that [compute_first] returns is ε, or a terminal
    that occurs in a production body, or a terminal of the sentence
    itself; and the cache keeps holding only ε and terminals of the
    bodies. *)
Theorem compute_first_contents g fuel sentence st r st' :
  valid g → first_wf g (first_cache st) →
  compute_first g fuel sentence st = Ok r st' →
  first_wf g (first_cache st') ∧
  ∀ x, x ∈ r →
    x = "" ∨
    (x ∈ terminals g ∧ (x ∉ non_terminals g) ∧
     (x ∈ body_symbols g ∨ x ∈ sentence)).
Proof.
  intros Hv Hwf. unfold compute_first, on_first_cache.
  pose proof (first_spec g Hv fuel sentence (first_cache st)) as Hs.
  pose proof (first_wf_spec g Hv fuel sentence (first_cache st) Hwf) as Hw.
  destruct (_first g fuel sentence (first_cache st)) as [r' c'|e c'|];
    [|done..].
  intros [= <- <-]. simpl. split; [done|]. destruct Hs as [_ Hc].
  intros x Hx. destruct sentence as [|s0 sentence]; simpl in Hc.
  { inversion Hc; subst. left. set_solver. }
  destruct (scan_cached_bound g c' (s0 :: sentence) ∅ r' Hw Hc x Hx)
    as [?|[?|[Hu|[Hin Ht]]]]; [set_solver|by left| |].
  - right. pose proof (used_terminals_terminals g x Hv Hu) as Ht.
    apply elem_of_difference in Hu as [Hb Hn].
    rewrite elem_of_list_to_set in Hb, Hn. auto.
  - right. split; [done|]. split; [|by right].
    by apply (valid_disjoint g Hv).
Qed.

Lemma compute_first_contents_witness :
  let st' := {| first_cache := {["S" := {["a"]}]};
                follow_cache := follow_cache (fresh ab_grammar) |} in
  first_wf ab_grammar (first_cache st') ∧
  ∀ x, x ∈ ({["a"]} : gset string) →
    x = "" ∨
    (x ∈ terminals ab_grammar ∧ (x ∉ non_terminals ab_grammar) ∧
     (x ∈ body_symbols ab_grammar ∨ x ∈ ["S"])).
Proof.
  intros st'.
  apply (compute_first_contents ab_grammar 3 ["S"] (fresh ab_grammar)).
  - apply init_valid. vm_compute. reflexivity.
  - apply first_wf_check. vm_compute. reflexivity.
  - vm_compute. reflexivity.
Defined.

Lemma scan_cached_nullable g (c : cache) seq acc r :
  "" ∉ terminals g → "" ∉ acc → seq ≠ [] →
  scan_cached g c seq acc = Some (inr r) →
  ("" ∈ r ↔ ∀ s, s ∈ seq → nullable_in g c s).
Proof.
  intros Heps. revert acc. induction seq as [|symbol rest IH];
    intros acc Hacc Hne; [done|]. simpl.
  destruct (decide (symbol ∈ terminals g)) as [Ht|Ht].
  { intros [= <-]. split.
    - intros [?|Hx%elem_of_singleton]%elem_of_union; [done|]. by subst.
    - intros H. destruct (H symbol) as [Hn _]; [by left|done]. }
  destruct (decide (symbol ∈ non_terminals g)); [|done].
  destruct (c !! symbol) as [v|] eqn:Hc; [|done].
  assert ("" ∉ acc ∪ v ∖ {[""]}) as Hacc' by set_solver.
  destruct (decide ("" ∉ v)) as [Hnull|Hnull].
  { intros [= <-]. split; [done|]. intros H.
    destruct (H symbol) as [_ (fs & Hfs & Hin)]; [by left|]. congruence. }
  apply dec_stable in Hnull.
  assert (nullable_in g c symbol) as Hsym by (split; eauto).
  destruct rest as [|s rest].
  { intros [= <-]. split; [|set_solver].
    intros _ x Hx%list_elem_of_singleton. by subst. }
  intros Hr. rewrite (IH _ Hacc' ltac:(done) Hr). split.
  - intros H x [->|Hx]%elem_of_cons; [done|by apply H].
  - intros H x Hx. apply H. by right.
Qed.

(** X4: ε is in the FIRST set of a sentence exactly when every symbol of the
    sentence is a non-terminal whose cached FIRST set has ε (so always for
    the empty sentence, never when a terminal occurs). *)
Theorem compute_first_nullable g fuel sentence st r st' :
  valid g → "" ∉ terminals g →
  compute_first g fuel sentence st = Ok r st' →
  ("" ∈ r ↔ ∀ s, s ∈ sentence → nullable_in g (first_cache st') s).
Proof.
  intros Hv Heps. unfold compute_first, on_first_cache.
  pose proof (first_spec g Hv fuel sentence (first_cache st)) as Hs.
  destruct (_first g fuel sentence (first_cache st)) as [r' c'|e c'|];
    [|done..].
  intros [= <- <-]. simpl. destruct Hs as [_ Hc].
  destruct sentence as [|s0 sentence].
  - simpl in Hc. inversion Hc; subst. split; [|set_solver].
    intros _ s Hs. inversion Hs.
  - by apply (scan_cached_nullable g c' (s0 :: sentence) ∅ r').
Qed.

Lemma compute_first_nullable_witness :
  let st' := {| first_cache := {["S" := {["a"]}]};
                follow_cache := follow_cache (fresh ab_grammar) |} in
  "" ∈ ({["a"]} : gset string) ↔
  ∀ s, s ∈ ["S"] → nullable_in ab_grammar (first_cache st') s.
Proof.
  intros st'.
  apply (compute_first_nullable ab_grammar 3 ["S"] (fresh ab_grammar)).
  - apply init_valid. vm_compute. reflexivity.
  - apply (bool_decide_eq_false_1 ("" ∈ terminals ab_grammar)).
    vm_compute. reflexivity.
  - vm_compute. reflexivity.
Defined.

Lemma scan_cached_acc g (c : cache) seq acc :
  scan_cached g c seq acc =
  match scan_cached g c seq ∅ with
  | Some (inr r) => Some (inr (acc ∪ r))
  | o => o
  end.
Proof.
  revert acc. induction seq as [|symbol rest IH]; intros acc; simpl.
  - f_equal. f_equal. set_solver.
  - destruct (decide (symbol ∈ terminals g)).
    { f_equal. f_equal. set_solver. }
    destruct (decide (symbol ∈ non_terminals g)); [|done].
    destruct (c !! symbol) as [v|]; [|done].
    destruct (decide ("" ∉ v)); [f_equal; f_equal; set_solver|].
    destruct rest as [|s rest]; [f_equal; f_equal; set_solver|].
    rewrite (IH (acc ∪ v ∖ {[""]})), (IH (∅ ∪ v ∖ {[""]})).
    destruct (scan_cached g c (s :: rest) ∅) as [[e0|r0]|]; [done| |done].
    f_equal. f_equal. set_solver.
Qed.

Lemma scan_cached_app g (c : cache) alpha beta acc ra fb :
  "" ∉ terminals g → "" ∉ acc → alpha ≠ [] →
  scan_cached g c alpha acc = Some (inr ra) →
  first_cached g c beta = Some (inr fb) →
  scan_cached g c (alpha ++ beta) acc =
  Some (inr (if decide ("" ∈ ra) then ra ∖ {[""]} ∪ fb else ra)).
Proof.
  intros Heps. revert acc ra.
  induction alpha as [|symbol rest IH]; intros acc ra Hacc Hne; [done|].
  simpl. destruct (decide (symbol ∈ terminals g)) as [Ht|Ht].
  { intros [= <-] _. rewrite decide_False; [done|].
    intros [?|Hx%elem_of_singleton]%elem_of_union; [done|]. by subst. }
  destruct (decide (symbol ∈ non_terminals g)); [|done].
  destruct (c !! symbol) as [v|] eqn:Hc; [|done].
  assert ("" ∉ acc ∪ v ∖ {[""]}) as Hacc' by set_solver.
  destruct (decide ("" ∉ v)) as [Hnull|Hnull].
  { intros [= <-] _. by rewrite decide_False. }
  destruct rest as [|s rest].
  - intros [= <-] Hb. rewrite decide_True by set_solver. simpl.
    destruct beta as [|b beta].
    + simpl in Hb. inversion Hb; subst. f_equal. f_equal. set_solver.
    + unfold first_cached in Hb. rewrite scan_cached_acc, Hb.
      f_equal. f_equal. set_solver.
  - intros Hr Hb. simpl. by apply (IH _ ra Hacc').
Qed.

Lemma valid_seq_check g seq :
  bool_decide (Forall (λ s, s ∈ non_terminals g ∨ s ∈ terminals g) seq) = true →
  valid_seq g seq.
Proof.
  intros H%bool_decide_eq_true s Hs. by eapply Forall_forall in H.
Qed.

(** X5: FIRST of a concatenation, on a valid grammar in which the empty
    string is not declared as a terminal, for two sentences of declared
    symbols: once the FIRST set of every non-terminal is cached,
    [compute_first] returns on both and on their concatenation without
    changing the state, and FIRST(αβ) is FIRST(α) when ε is not in
    FIRST(α), and FIRST(α) without ε together with FIRST(β) when it is. *)
Theorem compute_first_app g fuel alpha beta st :
  valid g → "" ∉ terminals g → 0 < fuel →
  first_full g (first_cache st) →
  valid_seq g alpha → valid_seq g beta →
  ∃ fa fb,
    compute_first g fuel alpha st = Ok fa st ∧
    compute_first g fuel beta st = Ok fb st ∧
    compute_first g fuel (alpha ++ beta) st =
      Ok (if decide ("" ∈ fa) then fa ∖ {[""]} ∪ fb else fa) st.
Proof.
  intros Hv Heps Hf Hfull Ha Hb.
  destruct (first_cached_full g (first_cache st) alpha Hfull Ha) as [fa Hfa].
  destruct (first_cached_full g (first_cache st) beta Hfull Hb) as [fb Hfb].
  exists fa, fb. split; [by apply compute_first_cached|].
  split; [by apply compute_first_cached|].
  apply compute_first_cached; [done|].
  destruct alpha as [|a alpha].
  - simpl in *. inversion Hfa; subst. rewrite decide_True by set_solver.
    rewrite Hfb. f_equal. f_equal. set_solver.
  - change (first_cached g (first_cache st) ((a :: alpha) ++ beta))
      with (scan_cached g (first_cache st) ((a :: alpha) ++ beta) ∅).
    by apply scan_cached_app.
Qed.

Lemma compute_first_app_witness :
  ∃ fa fb,
    compute_first ab_grammar 1 ["S"] ab_start = Ok fa ab_start ∧
    compute_first ab_grammar 1 ["B"] ab_start = Ok fb ab_start ∧
    compute_first ab_grammar 1 (["S"] ++ ["B"]) ab_start =
      Ok (if decide ("" ∈ fa) then fa ∖ {[""]} ∪ fb else fa) ab_start.
Proof.
  apply (compute_first_app ab_grammar 1 ["S"] ["B"] ab_start).
  - apply init_valid. vm_compute. reflexivity.
  - apply (bool_decide_eq_false_1 ("" ∈ terminals ab_grammar)).
    vm_compute. reflexivity.
  - lia.
  - apply first_full_check. vm_compute. reflexivity.
  - apply valid_seq_check. vm_compute. reflexivity.
  - apply valid_seq_check. vm_compute. reflexivity.
Defined.

Lemma first_of_trans g a b x :
  derives (grammar_rule g) a b → first_of g b x → first_of g a x.
Proof.
  unfold first_of. intros Hab. destruct (decide (x = "")).
  - by apply derives_trans.
  - intros [rest Hr]. exists rest. by eapply derives_trans.
Qed.

(** FIRST of the head symbol is in FIRST of the sequence, apart from ε. *)
Lemma first_of_head g nt rest x :
  x ≠ "" → first_of g [nt] x → first_of g (nt :: rest) x.
Proof.
  unfold first_of. intros Hne. rewrite !decide_False by done.
  intros [r Hr]. exists (r ++ rest).
  exact (derives_app_r _ [nt] (x :: r) rest Hr).
Qed.

(** FIRST of the rest is in FIRST of the sequence when the head symbol
    is nullable. *)
Lemma first_of_skip g nt rest x :
  first_of g [nt] "" → first_of g rest x → first_of g (nt :: rest) x.
Proof.
  intros Hnull. apply first_of_trans.
  unfold first_of in Hnull. rewrite decide_True in Hnull by done.
  exact (derives_app_r _ [nt] [] rest Hnull).
Qed.

Lemma derives_nonempty rule ss xs :
  (∀ x, x ∈ ss → x ≠ "") → derives rule ss xs → ∀ x, x ∈ xs → x ≠ "".
Proof.
  intros Hss. induction 1 as [|pre A b post _ IH Hr]; [done|].
  intros x [Hx|[Hx|Hx]%elem_of_app]%elem_of_app.
  - apply IH. apply elem_of_app. by left.
  - by eapply chars_nonempty.
  - apply IH. apply elem_of_app. right. by right.
Qed.

(** In a production body the empty string does not occur as a symbol. *)
Lemma first_of_sentence_body g seq x :
  (∀ y, y ∈ seq → y ≠ "") → first_of_sentence g seq x → first_of g seq x.
Proof.
  intros Hseq [H|(_ & _ & rest & Hd)]; [done|]. exfalso.
  apply (derives_nonempty _ _ _ Hseq Hd ""); [by left|done].
Qed.

Lemma first_of_sentence_skip g nt rest x :
  first_of g [nt] "" → first_of_sentence g rest x →
  first_of_sentence g (nt :: rest) x.
Proof.
  intros Hnull [H|(Ht & -> & r & Hd)]; [left; by apply first_of_skip|].
  right. do 2 (split; [done|]). exists r.
  unfold first_of in Hnull. rewrite decide_True in Hnull by done.
  eapply derives_trans; [|exact Hd].
  exact (derives_app_r _ [nt] [] rest Hnull).
Qed.

Lemma first_sound_empty g : first_sound g ∅.
Proof. intros nt fs x H. by rewrite lookup_empty in H. Qed.

Lemma first_sound_insert g (c : cache) k s :
  first_sound g c → (∀ x, x ∈ s → first_of g [k] x) →
  first_sound g (<[k := s]> c).
Proof.
  intros Hc Hs nt fs x. destruct (decide (k = nt)) as [->|Hne].
  - rewrite lookup_insert_eq. intros [= <-]. apply Hs.
  - rewrite lookup_insert_ne by done. apply Hc.
Qed.

Lemma scan_cached_sound g (c : cache) seq acc r :
  first_sound g c → seq ≠ [] →
  scan_cached g c seq acc = Some (inr r) →
  ∀ x, x ∈ r → x ∈ acc ∨ first_of_sentence g seq x.
Proof.
  intros Hc. revert acc.
  induction seq as [|symbol rest IH]; intros acc Hne; [done|]. simpl.
  destruct (decide (symbol ∈ terminals g)) as [Ht|Ht].
  { intros [= <-] x [Hx|Hx]%elem_of_union; [by left|right].
    apply elem_of_singleton in Hx as ->.
    destruct (decide (symbol = "")) as [->|Hs].
    - right. do 2 (split; [done|]). exists rest. constructor.
    - left. unfold first_of. rewrite decide_False by done.
      exists rest. constructor. }
  destruct (decide (symbol ∈ non_terminals g)); [|done].
  destruct (c !! symbol) as [fs|] eqn:Hfs; [|done].
  assert (∀ x, x ∈ fs ∖ {[""]} → first_of_sentence g (symbol :: rest) x)
    as Hhead.
  { intros x [Hx Hn]%elem_of_difference. left. apply first_of_head.
    - intros ->. apply Hn. by apply elem_of_singleton.
    - by eapply Hc. }
  destruct (decide ("" ∉ fs)) as [Hnn|Hnull].
  { intros [= <-] x [Hx|Hx]%elem_of_union; [by left|right; by apply Hhead]. }
  assert (first_of g [symbol] "") as Hskip.
  { eapply Hc; [done|]. by destruct (decide ("" ∈ fs)). }
  destruct rest as [|s rest].
  { intros [= <-] x [[Hx|Hx]%elem_of_union|Hx]%elem_of_union.
    - by left.
    - right. by apply Hhead.
    - right. left. by apply elem_of_singleton in Hx as ->. }
  intros Hr x Hx.
  destruct (IH (acc ∪ fs ∖ {[""]}) ltac:(done) Hr x Hx) as [Hin|Hrest].
  - apply elem_of_union in Hin as [?|?]; [by left|right; by apply Hhead].
  - right. by apply first_of_sentence_skip.
Qed.

Lemma first_cached_sound g (c : cache) seq r :
  first_sound g c →
  first_cached g c seq = Some (inr r) →
  ∀ x, x ∈ r → first_of_sentence g seq x.
Proof.
  intros Hc. destruct seq as [|s seq]; simpl.
  - intros [= <-] x ->%elem_of_singleton. left. unfold first_of.
    rewrite decide_True by done. constructor.
  - intros Hr x Hx.
    destruct (scan_cached_sound g c (s :: seq) ∅ r Hc ltac:(done) Hr x Hx)
      as [Hin|H]; [set_solver|done].
Qed.

Section FirstSound.
Variable g : Grammar.
Hypothesis g_valid : valid g.

Lemma fill_sound rec symbol prods (c : cache) :
  rec_sound g rec → first_sound g c →
  (∀ p, p ∈ prods → grammar_rule g symbol p) →
  match fill rec symbol prods c with
  | Ok _ c' | Raise _ c' => first_sound g c'
  | OutOfFuel => True
  end.
Proof.
  intros Hrec. revert c.
  induction prods as [|p prods IH]; intros c Hc Hb; simpl; [done|].
  unfold bind, get.
  specialize (Hrec (chars p) c Hc).
  destruct (rec (chars p) c) as [r c1|e c1|]; [|done..].
  destruct Hrec as [Hc1 Hr].
  destruct (c1 !! symbol) as [old|] eqn:Hold; [|done].
  unfold put. apply IH.
  - apply first_sound_insert; [done|].
    intros x [Hx|Hx]%elem_of_union; [by eapply Hc1|].
    apply (first_of_trans g _ (chars p)).
    + apply derives_rule, Hb. by left.
    + apply first_of_sentence_body; [|by apply Hr].
      intros y. apply chars_nonempty.
  - intros p' Hp'. apply Hb. by right.
Qed.

Lemma scan_sound rec seq fs (c : cache) :
  rec_sound g rec → first_sound g c →
  match scan g rec seq fs c with
  | Ok _ c' | Raise _ c' => first_sound g c'
  | OutOfFuel => True
  end.
Proof.
  intros Hrec. revert fs c.
  induction seq as [|symbol rest IH]; intros fs c Hc; simpl; [done|].
  destruct (decide (symbol ∈ terminals g)); [done|].
  destruct (decide (symbol ∈ non_terminals g)); [|done].
  unfold bind, get.
  assert (match (if decide (symbol ∈ dom c) then ret tt
                 else bind (put (<[symbol := ∅]> c))
                        (λ _, match getitem (productions g) symbol with
                              | None => raise (KeyError symbol)
                              | Some prods => fill rec symbol prods
                              end)) c with
          | Ok _ c1 | Raise _ c1 => first_sound g c1
          | OutOfFuel => True
          end) as Hfill.
  { destruct (decide (symbol ∈ dom c)); [done|]. unfold bind, put.
    assert (first_sound g (<[symbol := ∅]> c)) as Hc1.
    { apply first_sound_insert; [done|]. set_solver. }
    destruct (getitem (productions g) symbol) as [prods|] eqn:Hp; [|done].
    apply getitem_Some in Hp. apply fill_sound; [done..|].
    intros p Hin. by exists prods. }
  unfold bind in Hfill.
  match type of Hfill with
  | match ?t with _ => _ end => destruct t as [[] c1| |]; [|done..]
  end.
  destruct (c1 !! symbol) as [v|]; [|done].
  destruct (decide ("" ∉ v)); [done|].
  destruct rest as [|s rest]; [done|]. by apply IH.
Qed.

Lemma first_sound_spec fuel : rec_sound g (_first g fuel).
Proof.
  induction fuel as [|n IH]; intros seq c Hc; simpl; [done|].
  pose proof (first_spec g g_valid (S n) seq c) as Hs. simpl in Hs.
  destruct seq as [|s seq].
  { unfold ret. split; [done|]. intros x ->%elem_of_singleton.
    left. unfold first_of. rewrite decide_True by done. constructor. }
  pose proof (scan_sound (_first g n) (s :: seq) ∅ c IH Hc) as Hsound.
  destruct (scan g (_first g n) (s :: seq) ∅ c) as [r c1|e c1|]; [|done..].
  split; [done|]. destruct Hs as [_ Hs].
  exact (first_cached_sound g c1 (s :: seq) r Hsound Hs).
Qed.
End FirstSound.

(** X6: [compute_first] is sound with respect to derivations.  Starting
    from a cache whose entries are all justified (the empty cache of a new
    grammar is), the cache stays justified: a cached ε means that the
    non-terminal derives the empty word, a cached terminal that it derives
    a sentential form starting with it.  Every element of the returned
    set is justified in the same way by the sentence; only when the empty
    string is itself declared as a terminal, an empty string in the result
    can also stand for that terminal at the head of a derived form. *)
Theorem compute_first_sound g fuel sentence st r st' :
  valid g → first_sound g (first_cache st) →
  compute_first g fuel sentence st = Ok r st' →
  first_sound g (first_cache st') ∧
  (∀ x, x ∈ r → first_of_sentence g sentence x) ∧
  ("" ∉ terminals g → ∀ x, x ∈ r → first_of g sentence x).
Proof.
  intros Hv Hc. unfold compute_first, on_first_cache.
  pose proof (first_sound_spec g Hv fuel sentence (first_cache st) Hc) as H.
  destruct (_first g fuel sentence (first_cache st)) as [r1 c1| |]; [|done..].
  intros [= <- <-]. destruct H as [Hc1 Hr]. do 2 (split; [done|]).
  intros He x Hx. by destruct (Hr x Hx) as [H|(Ht & _)].
Qed.

Lemma compute_first_sound_witness :
  let st' := {| first_cache := {["S" := {["a"]}]};
                follow_cache := follow_cache (fresh ab_grammar) |} in
  first_sound ab_grammar (first_cache st') ∧
  (∀ x, x ∈ ({["a"]} : gset string) →
        first_of_sentence ab_grammar ["S"; "B"] x) ∧
  ("" ∉ terminals ab_grammar →
   ∀ x, x ∈ ({["a"]} : gset string) → first_of ab_grammar ["S"; "B"] x).
Proof.
  intros st'.
  apply (compute_first_sound ab_grammar 3 ["S"; "B"] (fresh ab_grammar)
           {["a"]} st').
  - apply init_valid. vm_compute. reflexivity.
  - apply first_sound_empty.
  - vm_compute. reflexivity.
Defined.

(** ** [compute_follow] *)

(** X7: [compute_follow] checks its argument only after the FIRST set of every
    non-terminal has been computed, and before the FOLLOW cache is rebuilt:
    on a symbol that is not a non-terminal it raises [ValueError], with
    every FIRST set cached and the FOLLOW cache as it was. *)
Theorem compute_follow_rejects g fuel symbol st :
  valid g → first_wf g (first_cache st) → enough_fuel g ≤ fuel →
  symbol ∉ non_terminals g →
  ∃ st',
    compute_follow g fuel symbol st =
      Raise (ValueError (NotANonTerminal symbol)) st' ∧
    follow_cache st' = follow_cache st ∧
    first_full g (first_cache st') ∧
    ∀ nt fs, first_cache st !! nt = Some fs → first_cache st' !! nt = Some fs.
Proof.
  intros Hv Hwf Hf Hs.
  destruct (compute_follow_spec g fuel symbol st Hv Hf Hwf)
    as (st1 & Hfull & _ & Hsub & _ & H).
  rewrite decide_False in H by done. destruct H as [Hfc Hr].
  exists st1. do 3 (split; [done|]). intros nt fs Hnt.
  by eapply lookup_weaken.
Qed.

Lemma compute_follow_rejects_witness :
  ∃ st',
    compute_follow ab_grammar 12 "a" (fresh ab_grammar) =
      Raise (ValueError (NotANonTerminal "a")) st' ∧
    follow_cache st' = follow_cache (fresh ab_grammar) ∧
    first_full ab_grammar (first_cache st') ∧
    ∀ nt fs, first_cache (fresh ab_grammar) !! nt = Some fs →
             first_cache st' !! nt = Some fs.
Proof.
  apply (compute_follow_rejects ab_grammar 12 "a" (fresh ab_grammar)).
  - apply init_valid. vm_compute. reflexivity.
  - apply first_wf_check. vm_compute. reflexivity.
  - vm_compute. lia.
  - apply (bool_decide_eq_false_1 ("a" ∈ non_terminals ab_grammar)).
    vm_compute. reflexivity.
Defined.

(** X8: A FOLLOW set holds ['$'] and terminals of the production bodies only:
    never ε, never a non-terminal (unless ['$'] is declared as one).  This
    holds for the set returned and for every set of the cache. *)
Theorem compute_follow_contents g fuel symbol st r st' :
  valid g → first_wf g (first_cache st) → enough_fuel g ≤ fuel →
  compute_follow g fuel symbol st = Ok r st' →
  follow_cache st' !! symbol = Some r ∧
  ∀ nt s x, follow_cache st' !! nt = Some s → x ∈ s →
    x ≠ "" ∧
    (x = "$" ∨
     (x ∈ terminals g ∧ (x ∉ non_terminals g) ∧ x ∈ body_symbols g)).
Proof.
  intros Hv Hwf Hf Hr.
  destruct (compute_follow_spec g fuel symbol st Hv Hf Hwf)
    as (st1 & _ & _ & _ & _ & H).
  destruct (decide (symbol ∈ non_terminals g)).
  2:{ destruct H as [_ H]. congruence. }
  destruct H as (r' & Hr' & Hc & (_ & _ & Hb) & _).
  rewrite Hr in Hr'. inversion Hr'; subst r' st1. split; [done|].
  intros nt s x Hs Hx.
  assert ((nt, x) ∈ follow_bound g) as [_ Hu]%elem_of_follow_bound.
  { apply Hb. apply elem_of_pairs. eauto. }
  apply elem_of_union in Hu as [Hu|Hu%elem_of_singleton].
  - split.
    + intros ->. by apply (used_terminals_nonempty g).
    + right. pose proof (used_terminals_terminals g x Hv Hu) as Ht.
      apply elem_of_difference in Hu as [Hbody Hn].
      rewrite elem_of_list_to_set in Hbody, Hn. auto.
  - subst x. split; [done|by left].
Qed.

Lemma compute_follow_contents_witness :
  let st' := {| first_cache := {["S" := {["a"]}; "B" := {["b"]}]};
                follow_cache := {["S" := {["$"]}; "B" := {["$"]}]} |} in
  follow_cache st' !! "B" = Some {["$"]} ∧
  ∀ nt s x, follow_cache st' !! nt = Some s → x ∈ s →
    x ≠ "" ∧
    (x = "$" ∨
     (x ∈ terminals ab_grammar ∧ (x ∉ non_terminals ab_grammar) ∧
      x ∈ body_symbols ab_grammar)).
Proof.
  intros st'.
  apply (compute_follow_contents ab_grammar 12 "B" (fresh ab_grammar)).
  - apply init_valid. vm_compute. reflexivity.
  - apply first_wf_check. vm_compute. reflexivity.
  - vm_compute. lia.
  - vm_compute. reflexivity.
Defined.

(** X9: One call computes every FOLLOW set: after a call of [compute_follow]
    that returned, a call for any non-terminal returns the set that is
    already in the cache and leaves both caches as they are. *)
Theorem compute_follow_all_at_once g fuel symbol st r st' :
  valid g → first_wf g (first_cache st) → enough_fuel g ≤ fuel →
  compute_follow g fuel symbol st = Ok r st' →
  ∀ nt, nt ∈ non_terminals g →
    ∃ s, follow_cache st' !! nt = Some s ∧
         compute_follow g fuel nt st' = Ok s st'.
Proof.
  intros Hv Hwf Hf Hr nt Hnt.
  destruct (compute_follow_spec g fuel symbol st Hv Hf Hwf)
    as (st1 & Hfull & Hwf1 & _ & _ & H).
  destruct (decide (symbol ∈ non_terminals g)).
  2:{ destruct H as [_ H]. congruence. }
  destruct H as (r' & Hr' & Hc & Hinv & Hloop & Hfix & _).
  rewrite Hr in Hr'. inversion Hr'; subst r' st1.
  apply compute_follow_complete; [done| |done..].
  unfold enough_fuel in Hf. lia.
Qed.

Lemma compute_follow_all_at_once_witness :
  let st' := {| first_cache := {["S" := {["a"]}; "B" := {["b"]}]};
                follow_cache := {["S" := {["$"]}; "B" := {["$"]}]} |} in
  ∃ s, follow_cache st' !! "S" = Some s ∧
       compute_follow ab_grammar 12 "S" st' = Ok s st'.
Proof.
  intros st'.
  apply (compute_follow_all_at_once ab_grammar 12 "B" (fresh ab_grammar)
           {["$"]} st').
  - apply init_valid. vm_compute. reflexivity.
  - apply first_wf_check. vm_compute. reflexivity.
  - vm_compute. lia.
  - vm_compute. reflexivity.
  - vm_compute. set_solver.
Defined.

Lemma first_omega_loop_frame g omega acc st r st' :
  first_omega_loop g omega acc st = Ok r st' → st' = st.
Proof.
  revert acc. induction omega as [|sym omega IH]; intros acc; simpl.
  - by intros [= _ <-].
  - destruct (decide (sym ∈ non_terminals g)); [|by intros [= _ <-]].
    unfold bind, get. destruct (first_cache st !! sym) as [fs|]; [|done].
    destruct (decide ("" ∉ fs)); [by intros [= _ <-]|]. apply IH.
Qed.

(** A piece of a pass that reports no change has changed nothing, and the
    FOLLOW rules hold where it looked. *)
Lemma follow_at_false g head A omega changed st st' :
  follow_at g head A omega changed st = Ok false st' →
  changed = false ∧ st' = st ∧ closed_at g st head A omega.
Proof.
  unfold follow_at, closed_at.
  destruct (decide (A ∉ non_terminals g)) as [Hn|Hn].
  { intros [= -> <-]. done. }
  unfold bind at 1.
  destruct (first_omega_loop g omega ∅ st) as [fo s1| |] eqn:Hfo; [|done..].
  pose proof (first_omega_loop_frame _ _ _ _ _ _ Hfo) as ->.
  unfold bind at 1, get at 1.
  destruct (follow_cache st !! A) as [fA|] eqn:HfA; [|done].
  unfold bind at 1.
  destruct (decide (fo ∖ {[""]} ⊆ fA)) as [Hsub|Hsub].
  2:{ unfold bind, put, ret. simpl.
      destruct (decide ("" ∈ fo)); [|done].
      unfold get. simpl.
      destruct (<[A:=fA ∪ fo ∖ {[""]}]> (follow_cache st) !! head); [|done].
      destruct (<[A:=fA ∪ fo ∖ {[""]}]> (follow_cache st) !! A); [|done].
      by case_decide. }
  unfold ret at 1.
  destruct (decide ("" ∈ fo)) as [Heps|Heps].
  2:{ intros [= -> <-]. do 2 (split; [done|]). intros _.
      exists fo, fA. done. }
  unfold bind, get.
  destruct (follow_cache st !! head) as [fH|] eqn:HfH; [|done].
  rewrite HfA.
  destruct (decide (fH ⊆ fA)) as [Hsub2|Hsub2]; [|done].
  intros [= -> <-]. do 2 (split; [done|]). intros _.
  exists fo, fA. do 3 (split; [done|]). intros _. eauto.
Qed.

Lemma follow_prod_false g head prod changed st st' :
  follow_prod g head prod changed st = Ok false st' →
  changed = false ∧ st' = st ∧
  ∀ alpha A omega, prod = alpha ++ A :: omega → closed_at g st head A omega.
Proof.
  revert changed st. induction prod as [|A omega IH]; intros changed st; simpl.
  - intros [= -> <-]. do 2 (split; [done|]).
    intros alpha A omega H. by destruct alpha.
  - unfold bind.
    destruct (follow_at g head A omega changed st) as [ch1 st1| |] eqn:Hat;
      [|done..].
    intros (-> & -> & Hrest)%IH.
    apply follow_at_false in Hat as (-> & -> & Hhere).
    do 2 (split; [done|]). intros alpha A' omega' Heq.
    destruct alpha as [|a alpha]; simpl in Heq.
    + by inversion Heq; subst.
    + inversion Heq; subst. by eapply Hrest.
Qed.

Lemma for_fold_false {A} (P : A → caches → Prop) (l : list A)
    (body : A → bool → M caches bool) changed st st' :
  (∀ x changed st st', body x changed st = Ok false st' →
     changed = false ∧ st' = st ∧ P x st) →
  for_fold l body changed st = Ok false st' →
  changed = false ∧ st' = st ∧ ∀ x, x ∈ l → P x st.
Proof.
  intros Hbody. revert changed st.
  induction l as [|x l IH]; intros changed st; simpl.
  - intros [= -> <-]. do 2 (split; [done|]). intros x Hx. inversion Hx.
  - unfold bind. destruct (body x changed st) as [ch1 st1| |] eqn:Hx;
      [|done..].
    intros (-> & -> & Hrest)%IH. apply Hbody in Hx as (-> & -> & Hhere).
    do 2 (split; [done|]).
    intros y [->|Hy]%elem_of_cons; [done|by apply Hrest].
Qed.

Lemma follow_pass_false g st st' :
  follow_pass g st = Ok false st' →
  st' = st ∧
  ∀ head prods prod alpha A omega,
    (head, prods) ∈ productions g → prod ∈ prods →
    chars prod = alpha ++ A :: omega →
    closed_at g st head A omega.
Proof.
  unfold follow_pass. intros H.
  apply (for_fold_false
           (λ '(head, prods) st,
              ∀ prod alpha A omega, prod ∈ prods →
                chars prod = alpha ++ A :: omega →
                closed_at g st head A omega)) in H.
  - destruct H as (_ & -> & H). split; [done|].
    intros head prods prod alpha A omega Hhp. by apply (H (head, prods)).
  - intros [head prods] ch1 st1 st2 H1.
    apply (for_fold_false
             (λ prod st,
                ∀ alpha A omega, chars prod = alpha ++ A :: omega →
                  closed_at g st head A omega)) in H1.
    + destruct H1 as (-> & -> & H1). do 2 (split; [done|]).
      intros prod alpha A omega Hp. by apply H1.
    + intros prod ch2 st3 st4 H2. by apply follow_prod_false in H2.
Qed.

(** FIRST*(ω) of [compute_follow] is FIRST(ω) of [compute_first] when the
    symbols of ω are declared and every non-terminal is cached. *)
Lemma first_omega_loop_cached g omega acc st :
  valid g → first_full g (first_cache st) → valid_seq g omega →
  ∃ r, first_omega_loop g omega acc st = Ok r st ∧
       match omega with
       | [] => r = acc ∪ {[""]}
       | _ => scan_cached g (first_cache st) omega acc = Some (inr r)
       end.
Proof.
  intros Hv Hfull. revert acc.
  induction omega as [|sym omega IH]; intros acc Hval; simpl.
  - by eexists.
  - assert (valid_seq g omega) as Hval'.
    { intros x Hx. apply Hval. by right. }
    destruct (decide (sym ∈ non_terminals g)) as [Hnt|Hnt].
    + rewrite decide_False by (intros Ht; by apply (valid_disjoint g Hv sym)).
      unfold bind, get.
      pose proof (Hfull sym Hnt) as Hd. apply elem_of_dom in Hd as [fs Hfs].
      rewrite Hfs. destruct (decide ("" ∉ fs)); [by eexists|].
      destruct (IH (acc ∪ fs ∖ {[""]}) Hval') as (r & Hr & Hm).
      exists r. split; [done|]. destruct omega; [by subst|done].
    + destruct (Hval sym) as [?|Ht]; [by left|done|].
      rewrite decide_True by done. by eexists.
Qed.

(** X10: The sets that [compute_follow] leaves in the cache satisfy the FOLLOW
    rules: for every occurrence of a non-terminal [A] in a body of [head],
    followed by ω, FOLLOW(A) contains FIRST(ω) without ε, and contains
    FOLLOW(head) when ε is in FIRST(ω); FIRST and FOLLOW being what
    [compute_first] and [compute_follow] return in that state. *)
Theorem compute_follow_closed g fuel symbol st r st' :
  valid g → first_wf g (first_cache st) → enough_fuel g ≤ fuel →
  compute_follow g fuel symbol st = Ok r st' →
  ∀ head prods prod alpha A omega,
    (head, prods) ∈ productions g → prod ∈ prods →
    chars prod = alpha ++ A :: omega → A ∈ non_terminals g →
    ∃ first_omega follow_A follow_head,
      compute_first g fuel omega st' = Ok first_omega st' ∧
      compute_follow g fuel A st' = Ok follow_A st' ∧
      compute_follow g fuel head st' = Ok follow_head st' ∧
      first_omega ∖ {[""]} ⊆ follow_A ∧
      ("" ∈ first_omega → follow_head ⊆ follow_A).
Proof.
  intros Hv Hwf Hf Hr head prods prod alpha A omega Hhp Hp Hsplit HA.
  assert (0 < fuel) as Hpos by (unfold enough_fuel in Hf; lia).
  destruct (compute_follow_spec g fuel symbol st Hv Hf Hwf)
    as (st1 & Hfull & Hwf1 & _ & _ & H).
  destruct (decide (symbol ∈ non_terminals g)).
  2:{ destruct H as [_ H]. congruence. }
  destruct H as (r' & Hr' & Hc & Hinv & Hloop & Hfix & _).
  rewrite Hr in Hr'. inversion Hr'; subst r' st1.
  assert (caches_complete g st') as Hcomp by done.
  assert (head ∈ non_terminals g) as Hhead.
  { apply (valid_keys g Hv). apply list_elem_of_fmap. by exists (head, prods). }
  assert (valid_seq g omega) as Hval.
  { intros x Hx. apply (valid_bodies g Hv head prods prod x Hhp Hp).
    rewrite Hsplit. apply elem_of_app. right. by right. }
  apply follow_pass_false in Hfix as [_ Hclosed].
  destruct (Hclosed head prods prod alpha A omega Hhp Hp Hsplit HA)
    as (fo & fA & Hfo & HfA & Hsub & Heps).
  destruct (first_omega_loop_cached g omega ∅ st' Hv Hfull Hval)
    as (fo' & Hfo' & Hm).
  rewrite Hfo in Hfo'. inversion Hfo'; subst fo'.
  destruct (compute_follow_complete g fuel st' A Hv Hpos Hcomp Hloop HA)
    as (fA' & HfA' & HcA).
  destruct (compute_follow_complete g fuel st' head Hv Hpos Hcomp Hloop Hhead)
    as (fH & HfH & HcH).
  rewrite HfA in HfA'. inversion HfA'; subst fA'.
  exists fo, fA, fH. split.
  { apply compute_first_cached; [done|]. destruct omega as [|o omega].
    - subst fo. simpl. by rewrite (left_id_L ∅ (∪)).
    - done. }
  do 3 (split; [done|]). intros He.
  destruct (Heps He) as (fH' & HfH' & Hsub').
  rewrite HfH in HfH'. by inversion HfH'; subst fH'.
Qed.

Lemma compute_follow_closed_witness :
  let st' := {| first_cache := {["S" := {["a"]}; "B" := {["b"]}]};
                follow_cache := {["S" := {["$"]}; "B" := {["$"]}]} |} in
  ∃ first_omega follow_A follow_head,
    compute_first ab_grammar 12 [] st' = Ok first_omega st' ∧
    compute_follow ab_grammar 12 "B" st' = Ok follow_A st' ∧
    compute_follow ab_grammar 12 "S" st' = Ok follow_head st' ∧
    first_omega ∖ {[""]} ⊆ follow_A ∧
    ("" ∈ first_omega → follow_head ⊆ follow_A).
Proof.
  intros st'.
  refine (compute_follow_closed ab_grammar 12 "B" (fresh ab_grammar) {["$"]}
            st' _ _ _ _ "S" ["aB"] "aB" ["a"] "B" [] _ _ _ _).
  - apply init_valid. vm_compute. reflexivity.
  - apply first_wf_check. vm_compute. reflexivity.
  - vm_compute. lia.
  - vm_compute. reflexivity.
  - by left.
  - by left.
  - reflexivity.
  - vm_compute. set_solver.
Defined.

Lemma compute_first_reset g fuel s f st :
  compute_first g fuel s (set_follow_cache f st) =
  match compute_first g fuel s st with
  | Ok r st' => Ok r (set_follow_cache f st')
  | Raise e st' => Raise e (set_follow_cache f st')
  | OutOfFuel => OutOfFuel
  end.
Proof.
  unfold compute_first, on_first_cache. simpl.
  by destruct (_first g fuel s (first_cache st)).
Qed.

Lemma ensure_first_reset g fuel l f st :
  ensure_first g fuel l (set_follow_cache f st) =
  match ensure_first g fuel l st with
  | Ok r st' => Ok r (set_follow_cache f st')
  | Raise e st' => Raise e (set_follow_cache f st')
  | OutOfFuel => OutOfFuel
  end.
Proof.
  revert st. induction l as [|nt l IH]; intros st; [done|].
  rewrite !ensure_first_cons, compute_first_reset.
  destruct (compute_first g fuel [nt] st) as [r st1| |]; [|done..].
  apply IH.
Qed.

Lemma ensure_first_no_raise g fuel l st e st' :
  valid g → (∀ nt, nt ∈ l → nt ∈ non_terminals g) →
  ensure_first g fuel l st ≠ Raise e st'.
Proof.
  intros Hv. revert st. induction l as [|nt l IH]; intros st Hl; [done|].
  rewrite ensure_first_cons.
  destruct (compute_first g fuel [nt] st) as [r st1|e1 st1|] eqn:Hc;
    [|exfalso|done].
  - apply IH. intros x Hx. apply Hl. by right.
  - unfold compute_first, on_first_cache in Hc.
    pose proof (first_spec g Hv fuel [nt] (first_cache st)) as Hs.
    destruct (_first g fuel [nt] (first_cache st)) as [|e2 c2|]; [done| |done].
    destruct Hs as [_ Hs]. apply scan_cached_invalid in Hs. apply Hs.
    intros x Hx%list_elem_of_singleton. subst x. left. apply Hl. by left.
Qed.

(** X11: [compute_follow] recomputes the FOLLOW sets on every call: on a
    non-terminal, what it returns and the state it leaves do not depend
    on the FOLLOW cache it finds. *)
Theorem compute_follow_recomputes g fuel symbol st f :
  valid g → symbol ∈ non_terminals g →
  compute_follow g fuel symbol (set_follow_cache f st) =
  compute_follow g fuel symbol st.
Proof.
  intros Hv Hs. rewrite !compute_follow_unfold by done.
  rewrite ensure_first_reset.
  pose proof (ensure_first_no_raise g fuel (non_terminals g) st) as Hnr.
  destruct (ensure_first g fuel (non_terminals g) st) as [r st1|e st1|];
    [|by destruct (Hnr e st1 Hv)|done].
  by rewrite !decide_False by (by intros ?).
Qed.

Lemma compute_follow_recomputes_witness :
  compute_follow ab_grammar 12 "S"
    (set_follow_cache {["S" := {["b"]}]} (fresh ab_grammar)) =
  compute_follow ab_grammar 12 "S" (fresh ab_grammar).
Proof.
  apply (compute_follow_recomputes ab_grammar 12 "S" (fresh ab_grammar)).
  - apply init_valid. vm_compute. reflexivity.
  - vm_compute. set_solver.
Defined.

Lemma on_first_sound g fuel sentence st :
  valid g → first_sound g (first_cache st) →
  match compute_first g fuel sentence st with
  | Ok r st' =>
      first_sound g (first_cache st') ∧ follow_cache st' = follow_cache st ∧
      ∀ x, x ∈ r → first_of_sentence g sentence x
  | Raise _ st' =>
      first_sound g (first_cache st') ∧ follow_cache st' = follow_cache st
  | OutOfFuel => True
  end.
Proof.
  intros Hv Hc. unfold compute_first, on_first_cache.
  pose proof (first_sound_spec g Hv fuel sentence (first_cache st) Hc) as H.
  destruct (_first g fuel sentence (first_cache st)) as [r1 c1|e1 c1|];
    simpl; tauto.
Qed.

Lemma ensure_first_sound g fuel l st st' :
  valid g → first_sound g (first_cache st) →
  ensure_first g fuel l st = Ok tt st' →
  first_sound g (first_cache st') ∧ follow_cache st' = follow_cache st.
Proof.
  intros Hv. revert st. induction l as [|nt l IH]; intros st Hc.
  - by intros [= <-].
  - rewrite ensure_first_cons.
    pose proof (on_first_sound g fuel [nt] st Hv Hc) as H.
    destruct (compute_first g fuel [nt] st) as [r st1| |]; [|done..].
    destruct H as (Hc1 & Hf1 & _). intros Hl.
    destruct (IH st1 Hc1 Hl) as [? ?]. split; [done|]. congruence.
Qed.

Lemma first_omega_sound g omega acc st r st' :
  first_sound g (first_cache st) → (∀ x, x ∈ omega → x ≠ "") →
  first_omega_loop g omega acc st = Ok r st' →
  ∀ x, x ∈ r → x ∈ acc ∨ first_of g omega x.
Proof.
  intros Hc. revert acc.
  induction omega as [|sym omega IH]; intros acc Hne; simpl.
  - intros [= <- _] x [Hx|Hx]%elem_of_union; [by left|right].
    apply elem_of_singleton in Hx as ->. unfold first_of.
    rewrite decide_True by done. constructor.
  - assert (∀ x, x ∈ omega → x ≠ "") as Hne'.
    { intros x Hx. apply Hne. by right. }
    destruct (decide (sym ∈ non_terminals g)) as [Hnt|Hnt].
    + unfold bind, get.
      destruct (first_cache st !! sym) as [fs|] eqn:Hfs; [|done].
      assert (∀ x, x ∈ fs ∖ {[""]} → first_of g (sym :: omega) x) as Hhead.
      { intros x [Hx Hn]%elem_of_difference. apply first_of_head.
        - intros ->. apply Hn. by apply elem_of_singleton.
        - by eapply Hc. }
      destruct (decide ("" ∉ fs)) as [Hnn|Hnull].
      { intros [= <- _] x [Hx|Hx]%elem_of_union;
          [by left|right; by apply Hhead]. }
      assert (first_of g [sym] "") as Hskip.
      { eapply Hc; [done|]. by destruct (decide ("" ∈ fs)). }
      intros Hr x Hx.
      destruct (IH (acc ∪ fs ∖ {[""]}) Hne' Hr x Hx) as [Hin|Hrest].
      * apply elem_of_union in Hin as [?|?]; [by left|right; by apply Hhead].
      * right. by apply first_of_skip.
    + intros [= <- _] x [Hx|Hx]%elem_of_union; [by left|right].
      apply elem_of_singleton in Hx as ->. unfold first_of.
      rewrite decide_False by (apply Hne; by left).
      exists omega. constructor.
Qed.

(** The first FOLLOW rule is justified. *)
Lemma follow_of_first g head prod alpha A omega x :
  head ∈ non_terminals g → grammar_rule g head prod →
  chars prod = alpha ++ A :: omega →
  x ≠ "" → first_of g omega x → follow_of g A x.
Proof.
  intros Hh Hrule Hsplit Hne Hx. unfold first_of in Hx.
  rewrite decide_False in Hx by done. destruct Hx as [rest Hrest].
  right. exists head, alpha, rest. split; [done|].
  eapply derives_trans; [by apply derives_rule|]. rewrite Hsplit.
  pose proof (derives_ctx (grammar_rule g) (alpha ++ [A]) [] _ _ Hrest) as H.
  by rewrite !app_nil_r, <- !app_assoc in H.
Qed.

(** The second FOLLOW rule is justified. *)
Lemma follow_of_inherit g head prod alpha A omega x :
  grammar_rule g head prod → chars prod = alpha ++ A :: omega →
  first_of g omega "" → follow_of g head x → follow_of g A x.
Proof.
  intros Hrule Hsplit Hnull Hx. unfold first_of in Hnull.
  rewrite decide_True in Hnull by done.
  assert (derives (grammar_rule g) [head] (alpha ++ [A])) as Hhead.
  { eapply derives_trans; [by apply derives_rule|]. rewrite Hsplit.
    pose proof (derives_ctx (grammar_rule g) (alpha ++ [A]) [] _ _ Hnull) as H.
    by rewrite !app_nil_r, <- !app_assoc in H. }
  destruct Hx as [[-> [pre Hpre]]|(h & pre & post & Hh & Hd)].
  - left. split; [done|]. exists (pre ++ alpha). rewrite <- app_assoc.
    eapply derives_trans; [done|].
    pose proof (derives_ctx (grammar_rule g) pre [] _ _ Hhead) as H.
    by rewrite !app_nil_r in H.
  - right. exists h, (pre ++ alpha), post. split; [done|].
    rewrite <- app_assoc. eapply derives_trans; [done|].
    pose proof (derives_ctx (grammar_rule g) pre (x :: post) _ _ Hhead) as H.
    simpl in H. by rewrite <- !app_assoc in H.
Qed.

Lemma caches_sound_insert g st A fA X :
  caches_sound g st → follow_cache st !! A = Some fA →
  (∀ x, x ∈ X → follow_of g A x) →
  caches_sound g (set_follow_cache (<[A := fA ∪ X]> (follow_cache st)) st).
Proof.
  intros [Hfirst Hfollow] HfA HX. split; [done|]. simpl.
  intros B fs x. destruct (decide (A = B)) as [<-|Hne].
  - rewrite lookup_insert_eq. intros [= <-] [Hx|Hx]%elem_of_union;
      [by eapply Hfollow|by apply HX].
  - rewrite lookup_insert_ne by done. apply Hfollow.
Qed.

Lemma follow_at_sound g head prod alpha A omega changed st changed' st' :
  head ∈ non_terminals g → grammar_rule g head prod →
  chars prod = alpha ++ A :: omega →
  caches_sound g st →
  follow_at g head A omega changed st = Ok changed' st' →
  caches_sound g st'.
Proof.
  intros Hh Hrule Hsplit Hs. unfold follow_at.
  destruct (decide (A ∉ non_terminals g)); [by intros [= _ <-]|].
  unfold bind at 1.
  destruct (first_omega_loop g omega ∅ st) as [fo s1| |] eqn:Hfo; [|done..].
  pose proof (first_omega_loop_frame _ _ _ _ _ _ Hfo) as ->.
  assert (∀ x, x ∈ fo → first_of g omega x) as Hfirst.
  { intros x Hx.
    destruct (first_omega_sound g omega ∅ st fo st (proj1 Hs)) with (x := x)
      as [Hin|H]; [|done|done|set_solver|done].
    intros y Hy. apply (chars_nonempty prod). rewrite Hsplit.
    apply elem_of_app. right. by right. }
  unfold bind at 1, get at 1.
  destruct (follow_cache st !! A) as [fA|] eqn:HfA; [|done].
  unfold bind at 1.
  assert (∃ ch1 st1,
    (if decide (fo ∖ {[""]} ⊆ fA) then ret changed
     else put (set_follow_cache (<[A := fA ∪ fo ∖ {[""]}]> (follow_cache st))
                 st) ;;; ret true) st = Ok ch1 st1 ∧ caches_sound g st1)
    as (ch1 & st1 & -> & Hs1).
  { destruct (decide (fo ∖ {[""]} ⊆ fA)); [by eexists _, _|].
    eexists _, _. split; [done|]. apply caches_sound_insert; [done..|].
    intros x [Hx Hn]%elem_of_difference.
    eapply follow_of_first; [done..| |by apply Hfirst].
    intros ->. apply Hn. by apply elem_of_singleton. }
  destruct (decide ("" ∈ fo)) as [Hnull|]; [|by intros [= _ <-]].
  unfold bind, get.
  destruct (follow_cache st1 !! head) as [fH|] eqn:HfH; [|done].
  destruct (follow_cache st1 !! A) as [fA1|] eqn:HfA1; [|done].
  destruct (decide (fH ⊆ fA1)); [by intros [= _ <-]|].
  intros [= _ <-]. apply caches_sound_insert; [done..|].
  intros x Hx. eapply follow_of_inherit; [done..|by apply Hfirst|].
  by eapply (proj2 Hs1).
Qed.

Lemma follow_prod_sound g head prod alpha rest changed st changed' st' :
  head ∈ non_terminals g → grammar_rule g head prod →
  chars prod = alpha ++ rest →
  caches_sound g st →
  follow_prod g head rest changed st = Ok changed' st' →
  caches_sound g st'.
Proof.
  intros Hh Hrule. revert alpha changed st.
  induction rest as [|A omega IH]; intros alpha changed st Hsplit Hs; simpl.
  - by intros [= _ <-].
  - unfold bind.
    destruct (follow_at g head A omega changed st) as [ch1 st1| |] eqn:Hat;
      [|done..].
    apply (IH (alpha ++ [A])); [by rewrite <- app_assoc|].
    by eapply follow_at_sound.
Qed.

Lemma for_fold_inv {A B} (P : caches → Prop) (l : list A)
    (body : A → B → M caches B) b st b' st' :
  (∀ x b st b' st', x ∈ l → P st → body x b st = Ok b' st' → P st') →
  P st → for_fold l body b st = Ok b' st' → P st'.
Proof.
  revert b st. induction l as [|x l IH]; intros b st Hbody HP; simpl.
  - by intros [= _ <-].
  - unfold bind. destruct (body x b st) as [b1 st1| |] eqn:Hx; [|done..].
    apply IH.
    + intros y ? ? ? ? Hy. apply Hbody. by right.
    + eapply Hbody; [by left|done..].
Qed.

Lemma follow_pass_sound g st changed st' :
  valid g → caches_sound g st →
  follow_pass g st = Ok changed st' → caches_sound g st'.
Proof.
  intros Hv. unfold follow_pass. apply for_fold_inv.
  intros [head prods] b s1 b' s1' Hhp.
  apply for_fold_inv. intros prod b2 s2 b2' s2' Hp.
  apply (follow_prod_sound g head prod []); [|by exists prods|done].
  apply (valid_keys g Hv). apply list_elem_of_fmap. by exists (head, prods).
Qed.

Lemma follow_loop_sound g fuel st st' :
  valid g → caches_sound g st →
  follow_loop g fuel st = Ok tt st' → caches_sound g st'.
Proof.
  intros Hv. revert st. induction fuel as [|fuel IH]; intros st Hs; [done|].
  simpl. unfold bind.
  destruct (follow_pass g st) as [ch st1| |] eqn:Hp; [|done..].
  pose proof (follow_pass_sound g st ch st1 Hv Hs Hp) as Hs1.
  destruct ch; [by apply IH|by intros [= <-]].
Qed.

Lemma follow_start_sound g st :
  first_sound g (first_cache st) → caches_sound g (follow_start g st).
Proof.
  intros Hc. split; [done|]. simpl. intros A fs x.
  destruct (decide (axiom g = A)) as [<-|Hne].
  - rewrite lookup_insert_eq. intros [= <-] Hx.
    assert (x = "$") as -> by set_solver.
    left. split; [done|]. exists []. constructor.
  - rewrite lookup_insert_ne by done. unfold dict_fromkeys.
    intros [_ <-]%lookup_gset_to_gmap_Some. set_solver.
Qed.

Lemma derives_declared g ss xs :
  valid g → valid_seq g ss → derives (grammar_rule g) ss xs → valid_seq g xs.
Proof.
  intros Hv Hss. induction 1 as [|pre A b post _ IH (prods & Hhp & Hb)];
    [done|].
  intros x [Hx|[Hx|Hx]%elem_of_app]%elem_of_app.
  - apply IH. apply elem_of_app. by left.
  - by eapply (valid_bodies g Hv).
  - apply IH. apply elem_of_app. right. by right.
Qed.

(** X12: [compute_follow] is sound with respect to derivations.  On a
    grammar whose FIRST cache is justified by derivations, every element
    [x] of every FOLLOW set that a returning call leaves in the cache, and
    so of the set returned, is justified in one of two ways: [x] comes
    right after the symbol in a sentential form derived from some
    non-terminal, or [x] is ['$'] and the symbol ends a sentential form
    derived from the axiom.  When ['$'] is not a symbol of the grammar,
    ['$'] in FOLLOW(A) therefore always means that [A] ends a sentential
    form derived from the axiom. *)
Theorem compute_follow_sound g fuel symbol st r st' :
  valid g → first_sound g (first_cache st) →
  compute_follow g fuel symbol st = Ok r st' →
  caches_sound g st' ∧
  (∀ x, x ∈ r → follow_of g symbol x) ∧
  ("$" ∉ terminals g → "$" ∉ non_terminals g →
   ∀ A fs, follow_cache st' !! A = Some fs → "$" ∈ fs →
           ∃ pre, derives (grammar_rule g) [axiom g] (pre ++ [A])).
Proof.
  intros Hv Hc. rewrite compute_follow_unfold by done.
  destruct (ensure_first g fuel (non_terminals g) st) as [[] st1| |] eqn:Hen;
    [|done..].
  destruct (ensure_first_sound g fuel _ st st1 Hv Hc Hen) as [Hc1 _].
  destruct (decide (symbol ∉ non_terminals g)); [done|].
  unfold follow_rest. rewrite decide_False by done. unfold bind.
  destruct (follow_loop g fuel (follow_start g st1)) as [[] st2| |] eqn:Hl;
    [|done..].
  pose proof (follow_loop_sound g fuel _ st2 Hv
                (follow_start_sound g st1 Hc1) Hl) as Hs2.
  unfold get. destruct (follow_cache st2 !! symbol) as [fs|] eqn:Hfs; [|done].
  intros [= <- <-]. split; [done|].
  split; [intros x Hx; by eapply (proj2 Hs2)|].
  intros Ht Hn A fA HfA Hd.
  destruct (proj2 Hs2 A fA "$" HfA Hd) as [[_ Hpre]|(h & pre & post & Hh & Hder)];
    [done|]. exfalso.
  assert (valid_seq g (pre ++ A :: "$" :: post)) as Hval.
  { apply (derives_declared g [h]); [done| |done].
    intros x Hx%list_elem_of_singleton. subst x. by left. }
  destruct (Hval "$"); [|done..].
  apply elem_of_app. right. right. by left.
Qed.

Lemma compute_follow_sound_witness :
  let st' := {| first_cache := {["S" := {["a"]}; "B" := {["b"]}]};
                follow_cache := {["S" := {["$"]}; "B" := {["$"]}]} |} in
  caches_sound ab_grammar st' ∧
  (∀ x, x ∈ ({["$"]} : gset string) → follow_of ab_grammar "B" x) ∧
  ("$" ∉ terminals ab_grammar → "$" ∉ non_terminals ab_grammar →
   ∀ A fs, follow_cache st' !! A = Some fs → "$" ∈ fs →
           ∃ pre, derives (grammar_rule ab_grammar) [axiom ab_grammar]
                    (pre ++ [A])).
Proof.
  intros st'.
  apply (compute_follow_sound ab_grammar 12 "B" (fresh ab_grammar)
           {["$"]} st').
  - apply init_valid. vm_compute. reflexivity.
  - apply first_sound_empty.
  - vm_compute. reflexivity.
Defined.

(** ** [LL1Table]: the constructor and [add_cell] *)

Lemma cell_get_Some self h t b :
  cell_get self h t = Some b ↔
  ∃ row, cells self !! h = Some row ∧ row !! t = Some (Some b).
Proof.
  unfold cell_get. split.
  - destruct (cells self !! h) as [row|]; [|done].
    destruct (row !! t) as [v|] eqn:Hv; [|done]. intros ->. eauto.
  - intros (row & -> & ->). done.
Qed.

Lemma body_declared_forallb self b :
  forallb (λ x, bool_decide
                  (x ∈ table_terminals self ∪ table_non_terminals self))
    (chars b) = true ↔ body_declared self b.
Proof.
  rewrite forallb_forall. unfold body_declared. split.
  - intros H x Hx. apply list_elem_of_In in Hx. specialize (H x Hx).
    by apply bool_decide_eq_true in H.
  - intros H x Hx. apply bool_decide_eq_true. apply H.
    by apply list_elem_of_In.
Qed.

Lemma new_table_empty nts ts h t :
  cell_get {| table_terminals := ts; table_non_terminals := nts;
              cells := gset_to_gmap (gset_to_gmap None ts) nts |} h t = None.
Proof.
  unfold cell_get. simpl.
  destruct (gset_to_gmap _ nts !! h) as [row|] eqn:Hr; [|done].
  apply lookup_gset_to_gmap_Some in Hr as [_ <-].
  destruct (gset_to_gmap _ ts !! t) as [v|] eqn:Hv; [|done].
  by apply lookup_gset_to_gmap_Some in Hv as [_ <-].
Qed.

Lemma new_table_inv nts ts :
  ts ∩ nts = ∅ →
  table_inv {| table_terminals := ts; table_non_terminals := nts;
               cells := gset_to_gmap (gset_to_gmap None ts) nts |}.
Proof.
  intros Hd. split; simpl.
  - done.
  - apply dom_gset_to_gmap.
  - intros h row [_ <-]%lookup_gset_to_gmap_Some. apply dom_gset_to_gmap.
  - intros h t b x Hc. by rewrite new_table_empty in Hc.
Qed.

(** X13: The constructor of the table refuses exactly the pairs of sets that
    share a symbol; the table it builds has the two sets as given, the
    shape of [table_inv], and every cell empty. *)
Theorem LL1Table_init_outcomes nts ts :
  match LL1Table_init nts ts with
  | inl e => e = ValueError TerminalsOverlap ∧ ∃ s, s ∈ ts ∧ s ∈ nts
  | inr self =>
      (∀ s, s ∈ ts → s ∉ nts) ∧
      table_terminals self = ts ∧ table_non_terminals self = nts ∧
      table_inv self ∧
      ∀ non_terminal terminal, cell_get self non_terminal terminal = None
  end.
Proof.
  unfold LL1Table_init. destruct (decide (ts ∩ nts ≠ ∅)) as [Hne|He].
  - split; [done|]. apply set_choose_L in Hne as [s Hs]. exists s.
    set_solver.
  - assert (ts ∩ nts = ∅) as Hd.
    { destruct (decide (ts ∩ nts = ∅)); [done|by destruct He]. }
    split; [set_solver|]. do 2 (split; [done|]).
    split; [by apply new_table_inv|]. intros h t. apply new_table_empty.
Qed.

Lemma set_cell_inv self h t b :
  table_inv self → t ∈ table_terminals self → body_declared self b →
  table_inv (set_cell h t b self).
Proof.
  intros [Hd Hrows Hcols Hbodies] Ht Hb.
  split; simpl; [done| | |].
  - destruct (cells self !! h) as [row|] eqn:Hr; [|done].
    rewrite dom_insert_L. apply elem_of_dom_2 in Hr. set_solver.
  - intros h' row'. destruct (cells self !! h) as [row|] eqn:Hr; [|by eauto].
    destruct (decide (h = h')) as [<-|Hne].
    + rewrite lookup_insert_eq. intros [= <-]. rewrite dom_insert_L.
      rewrite (Hcols h row Hr). set_solver.
    + rewrite lookup_insert_ne by done. eauto.
  - intros h' t' b' x Hc Hx.
    destruct (decide ((h', t') = (h, t))) as [[= -> ->]|Hne].
    + assert (b' = b) as ->; [|by apply Hb].
      apply cell_get_Some in Hc as (row' & Hr' & Hv). simpl in Hr'.
      destruct (cells self !! h) as [row|] eqn:Hr.
      * rewrite lookup_insert_eq in Hr'. inversion Hr'; subst row'.
        rewrite lookup_insert_eq in Hv. congruence.
      * rewrite Hr in Hr'. done.
    + rewrite set_cell_get_ne in Hc by done. by eapply Hbodies.
Qed.

(** X14: What [add_cell] does when it returns: the row and the column are
    symbols of the table, the body is made of symbols of the table, the
    cell was empty and now holds the body; every other cell, the two sets
    of symbols and the shape of the table are as before. *)
Theorem add_cell_returns self non_terminal terminal cell_body self' :
  table_inv self →
  add_cell non_terminal terminal cell_body self = Ok tt self' →
  non_terminal ∈ table_non_terminals self ∧
  terminal ∈ table_terminals self ∧
  body_declared self cell_body ∧
  cell_get self non_terminal terminal = None ∧
  cell_get self' non_terminal terminal = Some cell_body ∧
  (∀ h t, (h, t) ≠ (non_terminal, terminal) →
          cell_get self' h t = cell_get self h t) ∧
  table_terminals self' = table_terminals self ∧
  table_non_terminals self' = table_non_terminals self ∧
  table_inv self'.
Proof.
  intros Hinv. unfold add_cell, bind, get, raise, put.
  destruct (decide (non_terminal ∉ table_non_terminals self)) as [|Hh];
    [done|].
  destruct (decide (terminal ∉ table_terminals self)) as [|Ht]; [done|].
  destruct (forallb _ (chars cell_body)) eqn:Hb; [|done]. simpl.
  apply body_declared_forallb in Hb.
  destruct (cells self !! non_terminal) as [row|] eqn:Hr; [|done].
  destruct (row !! terminal) as [[b'|]|] eqn:Hv; [done| |done].
  intros [= <-].
  assert (non_terminal ∈ table_non_terminals self) as Hh'.
  { by destruct (decide (non_terminal ∈ table_non_terminals self)). }
  assert (terminal ∈ table_terminals self) as Ht'.
  { by destruct (decide (terminal ∈ table_terminals self)). }
  do 3 (split; [done|]). split.
  { unfold cell_get. by rewrite Hr, Hv. }
  split.
  { unfold cell_get, set_cell. simpl. rewrite Hr.
    by rewrite !lookup_insert_eq. }
  split; [intros h t Hne; by apply set_cell_get_ne|].
  do 2 (split; [done|]). by apply set_cell_inv.
Qed.

Lemma add_cell_returns_witness :
  "B" ∈ table_non_terminals (empty_table ab_grammar) ∧
  "b" ∈ table_terminals (empty_table ab_grammar) ∧
  body_declared (empty_table ab_grammar) "b" ∧
  cell_get (empty_table ab_grammar) "B" "b" = None ∧
  cell_get (set_cell "B" "b" "b" (empty_table ab_grammar)) "B" "b"
    = Some "b" ∧
  (∀ h t, (h, t) ≠ ("B", "b") →
          cell_get (set_cell "B" "b" "b" (empty_table ab_grammar)) h t
          = cell_get (empty_table ab_grammar) h t) ∧
  table_terminals (set_cell "B" "b" "b" (empty_table ab_grammar))
    = table_terminals (empty_table ab_grammar) ∧
  table_non_terminals (set_cell "B" "b" "b" (empty_table ab_grammar))
    = table_non_terminals (empty_table ab_grammar) ∧
  table_inv (set_cell "B" "b" "b" (empty_table ab_grammar)).
Proof.
  apply (add_cell_returns (empty_table ab_grammar) "B" "b" "b").
  - apply new_table_inv. vm_compute. reflexivity.
  - vm_compute. reflexivity.
Defined.

Lemma ab_table_inv : table_inv ab_table.
Proof.
  unfold ab_table.
  apply set_cell_inv; [apply set_cell_inv; [apply new_table_inv|..]|..];
    try (apply body_declared_forallb); vm_compute; reflexivity.
Qed.

(** X15: What [add_cell] does when it raises: the table is left as it was, and
    the exception tells which check failed first: the row, then the
    column, then the symbols of the body, and only then whether the cell
    is filled.  On a table of the shape of [table_inv] the two dict
    look-ups never fail. *)
Theorem add_cell_raises self non_terminal terminal cell_body e self' :
  table_inv self →
  add_cell non_terminal terminal cell_body self = Raise e self' →
  self' = self ∧
  ((e = ValueError CellRowUnknown ∧
    non_terminal ∉ table_non_terminals self)
   ∨ (e = ValueError CellColumnUnknown ∧
      non_terminal ∈ table_non_terminals self ∧
      terminal ∉ table_terminals self)
   ∨ (e = ValueError CellBodyUnknown ∧
      non_terminal ∈ table_non_terminals self ∧
      terminal ∈ table_terminals self ∧
      ¬ body_declared self cell_body)
   ∨ (e = RepeatedCellError non_terminal terminal ∧
      body_declared self cell_body ∧
      ∃ b, cell_get self non_terminal terminal = Some b)).
Proof.
  intros [Hd Hrows Hcols Hbodies]. unfold add_cell, bind, get, raise, put.
  destruct (decide (non_terminal ∉ table_non_terminals self)) as [Hh|Hh].
  { intros [= <- <-]. split; [done|]. by left. }
  assert (non_terminal ∈ table_non_terminals self) as Hh'.
  { by destruct (decide (non_terminal ∈ table_non_terminals self)). }
  destruct (decide (terminal ∉ table_terminals self)) as [Ht|Ht].
  { intros [= <- <-]. split; [done|]. right. by left. }
  assert (terminal ∈ table_terminals self) as Ht'.
  { by destruct (decide (terminal ∈ table_terminals self)). }
  destruct (forallb _ (chars cell_body)) eqn:Hb; simpl.
  2:{ intros [= <- <-]. split; [done|]. right. right. left.
      do 3 (split; [done|]). intros Hdecl%body_declared_forallb.
      congruence. }
  apply body_declared_forallb in Hb.
  rewrite <- Hrows in Hh'. apply elem_of_dom in Hh' as [row Hr]. rewrite Hr.
  pose proof (Hcols _ _ Hr) as Hdom. rewrite <- Hdom in Ht'.
  apply elem_of_dom in Ht' as [v Hv]. rewrite Hv.
  destruct v as [b'|]; [|done].
  intros [= <- <-]. split; [done|]. do 3 right. do 2 (split; [done|]).
  exists b'. unfold cell_get. by rewrite Hr, Hv.
Qed.

Lemma add_cell_raises_witness :
  ab_table = ab_table ∧
  ((RepeatedCellError "S" "a" = ValueError CellRowUnknown ∧
    "S" ∉ table_non_terminals ab_table)
   ∨ (RepeatedCellError "S" "a" = ValueError CellColumnUnknown ∧
      "S" ∈ table_non_terminals ab_table ∧
      "a" ∉ table_terminals ab_table)
   ∨ (RepeatedCellError "S" "a" = ValueError CellBodyUnknown ∧
      "S" ∈ table_non_terminals ab_table ∧
      "a" ∈ table_terminals ab_table ∧
      ¬ body_declared ab_table "b")
   ∨ (RepeatedCellError "S" "a" = RepeatedCellError "S" "a" ∧
      body_declared ab_table "b" ∧
      ∃ b, cell_get ab_table "S" "a" = Some b)).
Proof.
  apply (add_cell_raises ab_table "S" "a" "b").
  - apply ab_table_inv.
  - vm_compute. reflexivity.
Defined.

(** X16: [add_cell] never overwrites: a cell that holds a body holds the same
    body after any call of [add_cell], whether it returns or raises. *)
Theorem add_cell_keeps_filled_cells self h t b non_terminal terminal
    cell_body self' :
  cell_get self h t = Some b →
  state_of (add_cell non_terminal terminal cell_body self) = Some self' →
  cell_get self' h t = Some b.
Proof.
  intros Hc. unfold add_cell, bind, get, raise, put.
  destruct (decide (non_terminal ∉ table_non_terminals self));
    [by intros [= <-]|].
  destruct (decide (terminal ∉ table_terminals self)); [by intros [= <-]|].
  destruct (negb _); [by intros [= <-]|].
  destruct (cells self !! non_terminal) as [row|] eqn:Hr; [|by intros [= <-]].
  destruct (row !! terminal) as [[b'|]|] eqn:Hv; try (by intros [= <-]).
  simpl. intros [= <-]. rewrite set_cell_get_ne; [done|].
  intros [= -> ->]. unfold cell_get in Hc. rewrite Hr, Hv in Hc. done.
Qed.

Lemma add_cell_keeps_filled_cells_witness :
  cell_get (set_cell "B" "a" "b" ab_table) "S" "a" = Some "aB".
Proof.
  apply (add_cell_keeps_filled_cells ab_table "S" "a" "aB" "B" "a" "b").
  - vm_compute. reflexivity.
  - vm_compute. reflexivity.
Defined.

(** ** [get_ll1_table] and [is_ll1] *)

(** X17: [get_ll1_table] leaves the grammar in a state in which a second call
    changes nothing more and ends as the first one: the same table, [None]
    again, or the same exception; and so does [is_ll1]. *)
Theorem get_ll1_table_idempotent g fuel st :
  valid g → first_wf g (first_cache st) → enough_fuel g ≤ fuel →
  ∃ st', state_of (get_ll1_table g fuel st) = Some st' ∧
         get_ll1_table g fuel st' = get_ll1_table g fuel st ∧
         is_ll1 g fuel st' = is_ll1 g fuel st.
Proof.
  intros Hv Hwf Hf.
  assert (0 < fuel) as Hpos by (unfold enough_fuel in Hf; lia).
  destruct (ensure_follow_all g fuel st Hv Hwf Hf) as (st' & He & Hc & Hloop).
  pose proof (ensure_follow_complete g fuel (non_terminals g) st' Hv Hpos Hc
                Hloop (λ _ H, H)) as He'.
  exists st'.
  assert (state_of (get_ll1_table g fuel st) = Some st' ∧
          get_ll1_table g fuel st' = get_ll1_table g fuel st) as [H1 H2].
  { destruct (decide ("$" ∈ non_terminals g)) as [Hd|Hd].
    - by rewrite (get_ll1_table_clash g fuel st st'),
        (get_ll1_table_clash g fuel st' st').
    - by rewrite (get_ll1_table_filled g fuel st st'),
        (get_ll1_table_filled g fuel st' st'). }
  do 2 (split; [done|]). unfold is_ll1, bind. by rewrite H2.
Qed.

Lemma get_ll1_table_idempotent_witness :
  ∃ st', state_of (get_ll1_table ab_grammar 12 (fresh ab_grammar)) = Some st' ∧
         get_ll1_table ab_grammar 12 st' =
           get_ll1_table ab_grammar 12 (fresh ab_grammar) ∧
         is_ll1 ab_grammar 12 st' = is_ll1 ab_grammar 12 (fresh ab_grammar).
Proof.
  apply (get_ll1_table_idempotent ab_grammar 12 (fresh ab_grammar)).
  - apply init_valid. vm_compute. reflexivity.
  - apply first_wf_check. vm_compute. reflexivity.
  - vm_compute. lia.
Defined.

(** X18: The constructor of [Grammar] does not reserve ['$'].  On a grammar
    that declares it as a non-terminal, [get_ll1_table] computes FIRST and
    FOLLOW and then fails in the constructor of the table, whose column
    ['$'] is also a row: the [ValueError] reaches the caller, and
    [is_ll1] raises it too instead of answering. *)
Theorem get_ll1_table_marker_non_terminal g fuel st :
  valid g → "$" ∈ non_terminals g →
  first_wf g (first_cache st) → enough_fuel g ≤ fuel →
  ∃ st', caches_complete g st' ∧
         get_ll1_table g fuel st = Raise (ValueError TerminalsOverlap) st' ∧
         is_ll1 g fuel st = Raise (ValueError TerminalsOverlap) st'.
Proof.
  intros Hv Hd Hwf Hf.
  destruct (ensure_follow_all g fuel st Hv Hwf Hf) as (st' & He & Hc & Hloop).
  exists st'. split; [done|].
  pose proof (get_ll1_table_clash g fuel st st' Hd He) as H.
  split; [done|]. unfold is_ll1, bind. by rewrite H.
Qed.

Lemma get_ll1_table_marker_non_terminal_witness :
  is_inr (Grammar_init {["a"]} ["S"; "$"] [("S", ["a"]); ("$", ["a"])] "S")
    = true ∧
  ∃ st', caches_complete marker_grammar st' ∧
         get_ll1_table marker_grammar 12 (fresh marker_grammar)
           = Raise (ValueError TerminalsOverlap) st' ∧
         is_ll1 marker_grammar 12 (fresh marker_grammar)
           = Raise (ValueError TerminalsOverlap) st'.
Proof.
  split; [vm_compute; reflexivity|].
  apply (get_ll1_table_marker_non_terminal marker_grammar 12
           (fresh marker_grammar)).
  - apply init_valid. vm_compute. reflexivity.
  - vm_compute. set_solver.
  - apply first_wf_check. vm_compute. reflexivity.
  - vm_compute. lia.
Defined.

Lemma set_cell_get_Some tb h t b h' t' b' :
  cell_get (set_cell h t b tb) h' t' = Some b' →
  (h', t', b') = (h, t, b) ∨ cell_get tb h' t' = Some b'.
Proof.
  destruct (decide ((h', t') = (h, t))) as [[= -> ->]|Hne].
  - unfold cell_get, set_cell. simpl.
    destruct (cells tb !! h) as [row|] eqn:Hr.
    + rewrite !lookup_insert_eq. intros [= ->]. by left.
    + rewrite Hr. done.
  - rewrite set_cell_get_ne by done. by right.
Qed.

Lemma assign_cells cs tb tb' h t b :
  assign cs (Some tb) = Some tb' → cell_get tb' h t = Some b →
  (h, t, b) ∈ cs ∨ cell_get tb h t = Some b.
Proof.
  revert tb. induction cs as [|[[h0 t0] b0] cs IH]; intros tb; simpl.
  - intros [= <-]. by right.
  - destruct (cell_get tb h0 t0); [done|]. intros Ha Hc.
    destruct (IH _ Ha Hc) as [Hin|Hset]; [left; by right|].
    apply set_cell_get_Some in Hset as [->|Hold]; [left; by left|by right].
Qed.

Lemma assign_terminals cs tb tb' :
  assign cs (Some tb) = Some tb' →
  table_terminals tb' = table_terminals tb.
Proof.
  revert tb. induction cs as [|[[h0 t0] b0] cs IH]; intros tb; simpl.
  - by intros [= <-].
  - destruct (cell_get tb h0 t0); [done|]. intros Ha.
    by rewrite (IH _ Ha).
Qed.

Lemma cell_assignments_rule g st h t b :
  (h, t, b) ∈ cell_assignments g st → grammar_rule g h b.
Proof.
  unfold cell_assignments.
  intros ([head prods] & Hin & Hhp)%list_elem_of_bind.
  apply list_elem_of_bind in Hin as (prod & Hin & Hp).
  unfold prod_cells in Hin.
  destruct (first_cached g (first_cache st) (chars prod)) as [[e|fa]|];
    [inversion Hin| |inversion Hin].
  assert ((h, t, b) ∈ (λ t0, (head, t0, prod)) <$> elements (fa ∖ {[""]}) ∨
          (h, t, b) ∈ (λ t0, (head, t0, prod))
                        <$> elements (default ∅ (follow_cache st !! head)))
    as [Hin'|Hin'].
  { apply elem_of_app in Hin as [?|Hin]; [by left|].
    destruct (decide ("" ∈ fa)); [by right|inversion Hin]. }
  all: apply list_elem_of_fmap in Hin' as (t' & [= -> -> ->] & _);
    by exists prods.
Qed.

Lemma assign_inv cs tb tb' :
  table_inv tb →
  (∀ h t b, (h, t, b) ∈ cs →
     t ∈ table_terminals tb ∧ body_declared tb b) →
  assign cs (Some tb) = Some tb' →
  table_inv tb' ∧ table_terminals tb' = table_terminals tb ∧
  table_non_terminals tb' = table_non_terminals tb.
Proof.
  revert tb. induction cs as [|[[h t] b] cs IH]; intros tb Hinv Hcs; simpl.
  - by intros [= <-].
  - destruct (cell_get tb h t); [done|]. intros Ha.
    destruct (Hcs h t b) as [Ht Hb]; [by left|].
    destruct (IH (set_cell h t b tb)) as (? & ? & ?); [| |done|done].
    + by apply set_cell_inv.
    + intros h' t' b' Hin. apply (Hcs h' t' b'). by right.
Qed.

Lemma empty_table_inv g : "$" ∉ non_terminals g → table_inv (empty_table g).
Proof.
  intros Hd. apply new_table_inv. apply set_eq. intros x.
  unfold follow_universe, used_terminals.
  rewrite elem_of_intersection, elem_of_union, elem_of_difference,
    elem_of_singleton, !elem_of_list_to_set.
  split; [|set_solver]. intros [[[_ ?]| ->] ?]; done.
Qed.

(** X19: The table that [get_ll1_table] returns has the non-terminals as rows
    and the terminals of the bodies and ['$'] as columns, has the shape
    that [add_cell] keeps, and holds in a filled cell of row [h] only a
    body of a production of [h], in a column of the table. *)
Theorem get_ll1_table_shape g fuel st table st' :
  valid g → "$" ∉ non_terminals g →
  first_wf g (first_cache st) → enough_fuel g ≤ fuel →
  get_ll1_table g fuel st = Ok (Some table) st' →
  table_non_terminals table = list_to_set (non_terminals g) ∧
  table_terminals table = follow_universe g ∧
  table_inv table ∧
  ∀ h t b, cell_get table h t = Some b →
           grammar_rule g h b ∧ t ∈ follow_universe g.
Proof.
  intros Hv Hd Hwf Hf Htable.
  assert (0 < fuel) as Hpos by (unfold enough_fuel in Hf; lia).
  destruct (ensure_follow_all g fuel st Hv Hwf Hf) as (st1 & He & Hc & _).
  rewrite (get_ll1_table_filled g fuel st st1 Hv Hd Hpos He Hc) in Htable.
  inversion Htable as [[Ha Hst]]. clear Htable.
  assert (∀ h t b, (h, t, b) ∈ cell_assignments g st1 →
            t ∈ table_terminals (empty_table g) ∧
            body_declared (empty_table g) b) as Hcs.
  { intros h t b Hin.
    assert (h ∈ non_terminals g ∧ t ∈ follow_universe g) as [_ Hcol].
    { by eapply cell_assignments_keys. }
    split; [done|].
    destruct (cell_assignments_rule g st1 h t b Hin) as (prods & Hhp & Hb).
    intros x Hx. simpl.
    assert (x ∈ body_symbols g) as Hbody by (by eapply elem_of_body_symbols).
    unfold follow_universe, used_terminals.
    destruct (decide (x ∈ non_terminals g)); set_solver. }
  destruct (assign_inv _ _ _ (empty_table_inv g Hd) Hcs Ha)
    as (Hinv & Ht & Hn).
  do 3 (split; [done|]). intros h t b Hcell.
  destruct (assign_cells _ _ _ _ _ _ Ha Hcell) as [Hin|Hempty].
  - split; [by eapply cell_assignments_rule|].
    assert (h ∈ non_terminals g ∧ t ∈ follow_universe g) as [_ Hcol].
    { by eapply cell_assignments_keys. }
    done.
  - by rewrite empty_table_get in Hempty.
Qed.

Lemma get_ll1_table_shape_witness :
  table_non_terminals ab_table = list_to_set (non_terminals ab_grammar) ∧
  table_terminals ab_table = follow_universe ab_grammar ∧
  table_inv ab_table ∧
  ∀ h t b, cell_get ab_table h t = Some b →
           grammar_rule ab_grammar h b ∧ t ∈ follow_universe ab_grammar.
Proof.
  apply (get_ll1_table_shape ab_grammar 12 (fresh ab_grammar) ab_table
           {| first_cache := {["S" := {["a"]}; "B" := {["b"]}]};
              follow_cache := {["S" := {["$"]}; "B" := {["$"]}]} |}).
  - apply init_valid. vm_compute. reflexivity.
  - vm_compute. set_solver.
  - apply first_wf_check. vm_compute. reflexivity.
  - vm_compute. lia.
  - vm_compute. reflexivity.
Defined.

(** ** [LL1Table.analyze] *)

Lemma analyze_loop_unfold fuel input l self :
  analyze_loop fuel input l self =
  if decide (i l < length input) then
    match fuel with
    | 0 => OutOfFuel
    | S fuel' =>
        match analyze_step input l self with
        | Ok l' s' => analyze_loop fuel' input l' s'
        | Raise e s' => Raise e s'
        | OutOfFuel => OutOfFuel
        end
    end
  else Ok l self.
Proof. destruct fuel; simpl; case_decide; done. Qed.

Lemma analyze_terminal_step input start self stack0 trees n rest st :
  start ∈ table_terminals self ∨ start = "$" →
  analyze_step input
    {| stack := stack0 ++ [start]; tree_stack := trees ++ [n]; i := rest;
       store := st |} self =
  match input !! rest with
  | None => Raise IndexError self
  | Some currentSymbol =>
      if decide (start = currentSymbol) then
        Ok {| stack := stack0; tree_stack := trees; i := rest + 1;
              store := st |} self
      else Raise (SyntaxError (UnexpectedSymbol currentSymbol start)) self
  end.
Proof.
  intros Hs. unfold analyze_step, bind, get, ret, raise. simpl.
  rewrite !last_snoc, !removelast_last.
  destruct (input !! rest); [|done].
  rewrite decide_True by done. by case_decide.
Qed.

Lemma analyze_terminal_Ok fuel input start self t s :
  start ∈ table_terminals self ∨ start = "$" →
  analyze fuel input start self = Ok t s →
  chars input = [start; "$"] ∧ t = Node start [].
Proof.
  intros Hs. unfold analyze, bind.
  rewrite analyze_loop_unfold.
  destruct (chars input) as [|c1 cs] eqn:Hin; [done|].
  rewrite decide_True by (simpl; lia).
  destruct fuel as [|fuel]; [done|].
  rewrite (analyze_terminal_step _ start self ["$"] [0] 1 0 _ Hs).
  cbn [lookup list_lookup].
  destruct (decide (start = c1)) as [<-|]; [|done].
  rewrite analyze_loop_unfold. cbn [i].
  destruct cs as [|c2 cs]; [done|].
  rewrite decide_True by (simpl; lia).
  destruct fuel as [|fuel]; [done|].
  rewrite (analyze_terminal_step _ "$" self [] [] 0 1 _ (or_intror eq_refl)).
  cbn [lookup list_lookup Nat.add].
  destruct (decide ("$" = c2)) as [<-|]; [|done].
  rewrite analyze_loop_unfold. cbn [i Nat.add].
  destruct cs as [|c3 cs].
  - rewrite decide_False by (simpl; lia). cbn [stack tree_stack store].
    rewrite decide_False by (by intros ?).
    simpl. unfold ret. by intros [= <- <-].
  - rewrite decide_True by (simpl; lia). destruct fuel as [|fuel]; [done|].
    done.
Qed.

Lemma analyze_terminal_start_Ok fuel input start self :
  start ∈ table_terminals self ∨ start = "$" →
  chars input = [start; "$"] → 2 ≤ fuel →
  analyze fuel input start self = Ok (Node start []) self.
Proof.
  intros Hs Hin Hf. unfold analyze, bind. rewrite Hin.
  destruct fuel as [|[|fuel]]; [lia..|].
  rewrite analyze_loop_unfold. rewrite decide_True by (simpl; lia).
  rewrite (analyze_terminal_step _ start self ["$"] [0] 1 0 _ Hs).
  cbn [lookup list_lookup]. rewrite decide_True by done.
  rewrite analyze_loop_unfold. cbn [i]. rewrite decide_True by (simpl; lia).
  rewrite (analyze_terminal_step _ "$" self [] [] 0 1 _ (or_intror eq_refl)).
  cbn [lookup list_lookup Nat.add]. rewrite decide_True by done.
  rewrite analyze_loop_unfold. cbn [i Nat.add].
  rewrite decide_False by (simpl; lia). cbn [stack tree_stack store].
  rewrite decide_False by (by intros ?). done.
Qed.

(** X20: Started on a symbol that it handles as a terminal, [analyze] accepts
    one input only, the symbol followed by ['$'], and returns the bare
    node [ParseTree(start)]: both stacks are empty at the end, and the
    last line builds a new node. *)
Theorem analyze_terminal_start fuel input start self :
  start ∈ table_terminals self ∨ start = "$" →
  (∀ t s, analyze fuel input start self = Ok t s →
          chars input = [start; "$"] ∧ t = Node start [] ∧ s = self) ∧
  (chars input = [start; "$"] → 2 ≤ fuel →
   analyze fuel input start self = Ok (Node start []) self).
Proof.
  intros Hs. split.
  - intros t s H. destruct (analyze_terminal_Ok _ _ _ _ _ _ Hs H) as [-> ->].
    do 2 (split; [done|]). eapply analyze_frame. by rewrite H.
  - by apply analyze_terminal_start_Ok.
Qed.

Lemma analyze_terminal_start_witness :
  (∀ t s, analyze 2 "a$" "a" ab_table = Ok t s →
          chars "a$" = ["a"; "$"] ∧ t = Node "a" [] ∧ s = ab_table) ∧
  (chars "a$" = ["a"; "$"] → 2 ≤ 2 →
   analyze 2 "a$" "a" ab_table = Ok (Node "a" []) ab_table).
Proof.
  apply (analyze_terminal_start 2 "a$" "a" ab_table).
  left. vm_compute. reflexivity.
Defined.

(** X21: Whatever the table, the input and the start symbol, a tree that
    [analyze] returns is a bare node without children: the node of the
    end-marker when [start] is expanded as a non-terminal, the node of
    [start] when [start] is matched as a terminal. *)
Theorem analyze_returns_bare_node fuel input start self t s :
  analyze fuel input start self = Ok t s →
  (t = Node "$" [] ∧ ¬ (start ∈ table_terminals self ∨ start = "$"))
  ∨ (t = Node start [] ∧ chars input = [start; "$"] ∧
     (start ∈ table_terminals self ∨ start = "$")).
Proof.
  intros H.
  destruct (decide (start ∈ table_terminals self ∨ start = "$")) as [Hs|Hs].
  - right. by destruct (analyze_terminal_Ok _ _ _ _ _ _ Hs H) as [-> ->].
  - left. split; [|done].
    eapply analyze_returns_marker_node; [| |exact H]; tauto.
Qed.

Lemma analyze_returns_bare_node_witness :
  (Node "$" [] = Node "$" [] ∧
   ¬ ("S" ∈ table_terminals ab_table ∨ "S" = "$"))
  ∨ (Node "$" [] = Node "S" [] ∧ chars "ab$" = ["S"; "$"] ∧
     ("S" ∈ table_terminals ab_table ∨ "S" = "$")).
Proof.
  apply (analyze_returns_bare_node 5 "ab$" "S" ab_table (Node "$" [])
           ab_table).
  vm_compute. reflexivity.
Defined.

Lemma nodes_cover_stack_step input self l l' s :
  nodes_cover_stack l → analyze_step input l self = Ok l' s →
  nodes_cover_stack l'.
Proof.
  unfold nodes_cover_stack. intros Hlen Hstep.
  apply analyze_step_Ok in Hstep
    as (top & cur & sym & Htop & Hcur & Hsym & Hcase).
  apply last_Some in Htop as [s0 Hs0]. apply last_Some in Hcur as [t0 Ht0].
  rewrite Hs0, Ht0, !length_app in Hlen. simpl in Hlen.
  rewrite Hs0, Ht0, !removelast_last in Hcase.
  destruct Hcase as [(_ & _ & -> & -> & _)|(_ & prod & _ & -> & -> & _)].
  - lia.
  - rewrite !length_app, length_seq. simpl. lia.
Qed.

(** X22: [analyze] raises nothing but its [SyntaxError]: [tree_stack.pop()]
    and [input_list[i]] never fail, because the stack of nodes is never
    shorter than the symbol stack and the loop tests [i]; and the table is
    left as it was. *)
Theorem analyze_raises_SyntaxError fuel input start self e s :
  analyze fuel input start self = Raise e s →
  s = self ∧ ∃ se, e = SyntaxError se.
Proof.
  intros H. split; [eapply analyze_frame; by rewrite H|].
  revert H. unfold analyze, bind.
  set (l0 := {| stack := ["$"; start] |}).
  assert (nodes_cover_stack l0) as H0 by (unfold nodes_cover_stack; simpl; lia).
  destruct (analyze_loop fuel (chars input) l0 self) as [l s1|e1 s1|] eqn:Hl;
    [| |done].
  - case_decide; [intros [= <- <-]; eauto|].
    by destruct (tree_of _ _ _).
  - intros [= <- <-].
    eapply (analyze_loop_Raise nodes_cover_stack) in Hl
      as (l1 & Hlen & Hi & Hstep);
      [|intros; by eapply nodes_cover_stack_step|done].
    apply analyze_step_Raise in Hstep as [[se ->]|[_ [[Hne Ht]|Hge]]].
    + by eexists.
    + unfold nodes_cover_stack in Hlen. rewrite Ht in Hlen.
      destruct (stack l1); [done|simpl in Hlen; lia].
    + lia.
Qed.

Lemma analyze_raises_SyntaxError_witness :
  ab_table = ab_table ∧
  ∃ se, SyntaxError (NoRule "B" "a") = SyntaxError se.
Proof.
  apply (analyze_raises_SyntaxError 5 "aa$" "S" ab_table).
  vm_compute. reflexivity.
Defined.

Lemma sound_inv_step self start input l l' s :
  sound_inv self start input l → i l < length input →
  analyze_step input l self = Ok l' s → sound_inv self start input l'.
Proof.
  intros (Hle & Hread & Hstack) Hi Hstep.
  apply analyze_step_Ok in Hstep
    as (top & cur & sym & Htop & Hcur & Hsym & Hcase).
  destruct Hstack as [(rest & Hst & Hder)|[Hst _]].
  2:{ by rewrite Hst in Htop. }
  apply last_Some in Htop as [s0 Hs0].
  rewrite Hs0, removelast_last in Hcase.
  assert (∀ x, x ∈ take (i l + 1) input → x = sym ∨ x ∈ take (i l) input)
    as Hnext.
  { intros x. rewrite Nat.add_1_r, (take_S_r _ _ sym) by done.
    rewrite elem_of_app, list_elem_of_singleton. tauto. }
  destruct (decide (rest = [])) as [->|Hne].
  - assert (s0 = [] ∧ top = "$") as [-> ->].
    { rewrite Hst in Hs0. destruct s0 as [|x [|y s0]]; simpl in Hs0;
        by inversion Hs0. }
    destruct Hcase as [(Ht & <- & Hs & _ & Hi' & _)|(Hnt & _)]; [|tauto].
    split; [rewrite Hi'; lia|]. split.
    { rewrite Hi'. intros x [->|Hx]%Hnext; by auto. }
    right. split; [done|]. exists (take (i l) input). split.
    + by rewrite Hi', Nat.add_1_r, (take_S_r _ _ "$").
    + simpl in Hder. by rewrite app_nil_r in Hder.
  - assert (∃ r0, rest = r0 ++ [top] ∧ s0 = "$" :: r0) as (r0 & -> & ->).
    { rewrite Hst in Hs0. destruct s0 as [|x s0]; simpl in Hs0.
      - inversion Hs0; subst. done.
      - inversion Hs0; subst. eauto. }
    rewrite reverse_snoc in Hder.
    destruct Hcase as [(Ht & <- & Hs & _ & Hi' & _)
                      |(Hnt & prod & Hcell & Hs & _ & Hi' & _)].
    + split; [rewrite Hi'; lia|]. split.
      { rewrite Hi'. intros x [->|Hx]%Hnext; by auto. }
      left. exists r0. split; [done|].
      rewrite Hi', Nat.add_1_r, (take_S_r _ _ top) by done.
      by rewrite <- app_assoc.
    + split; [rewrite Hi'; lia|]. split; [by rewrite Hi'|].
      left. exists (r0 ++ reverse (chars prod)). split; [by rewrite Hs|].
      rewrite Hi', reverse_app, reverse_involutive.
      apply (derives_step _ _ _ top prod); [done|]. split; [done|]. eauto.
Qed.

Lemma analyze_sound_table fuel input start self t s :
  analyze fuel input start self = Ok t s →
  ∃ w, chars input = w ++ ["$"] ∧
       (∀ x, x ∈ w → x ∈ table_terminals self ∨ x = "$") ∧
       derives (table_rule self) [start] w.
Proof.
  unfold analyze, bind.
  set (l0 := {| stack := ["$"; start] |}).
  assert (sound_inv self start (chars input) l0) as H0.
  { split; [simpl; lia|]. split; [intros x Hx; inversion Hx|].
    left. exists [start]. split; [done|]. constructor. }
  destruct (analyze_loop fuel (chars input) l0 self) as [l s1| |] eqn:Hl;
    [|done..].
  eapply (analyze_loop_Ok (sound_inv self start (chars input))) in Hl
    as [(Hle & Hread & Hstack) Hge];
    [|intros; by eapply sound_inv_step|done].
  case_decide as Hst; [done|]. intros _.
  destruct Hstack as [(rest & Hrest & _)|(_ & w & Hw & Hder)].
  { by rewrite Hrest in Hst. }
  rewrite take_ge in Hw, Hread by done.
  exists w. split; [done|]. split; [|done].
  intros x Hx. apply Hread. rewrite Hw. apply elem_of_app. by left.
Qed.

(** X23: [analyze] accepts only what the table derives: when it returns, the
    input is a word [w] followed by ['$'], every symbol of [w] was matched
    as a terminal, and [w] is derived from [start] by the rules that the
    cells hold.  In particular an accepted input ends with ['$']. *)
Theorem analyze_accepts_derived fuel input start self t s :
  analyze fuel input start self = Ok t s →
  ∃ w, chars input = w ++ ["$"] ∧
       (∀ x, x ∈ w → x ∈ table_terminals self ∨ x = "$") ∧
       derives (table_rule self) [start] w.
Proof. apply analyze_sound_table. Qed.

Lemma analyze_accepts_derived_witness :
  ∃ w, chars "ab$" = w ++ ["$"] ∧
       (∀ x, x ∈ w → x ∈ table_terminals ab_table ∨ x = "$") ∧
       derives (table_rule ab_table) ["S"] w.
Proof.
  apply (analyze_accepts_derived 5 "ab$" "S" ab_table (Node "$" [])
           ab_table).
  vm_compute. reflexivity.
Defined.

Lemma elem_of_removelast {A} (l : list A) x : x ∈ removelast l → x ∈ l.
Proof.
  destruct (last l) as [y|] eqn:Hl.
  - apply last_Some in Hl as [l' ->]. rewrite removelast_last.
    intros ?. apply elem_of_app. by left.
  - apply last_None in Hl as ->. done.
Qed.

Lemma stack_declared_step input self l l' s :
  table_inv self → stack_declared self l →
  analyze_step input l self = Ok l' s → stack_declared self l'.
Proof.
  intros Hinv Hst Hstep.
  apply analyze_step_Ok in Hstep
    as (top & cur & sym & Htop & Hcur & Hsym & Hcase).
  destruct Hcase as [(_ & _ & Hs & _)|(_ & prod & Hcell & Hs & _)];
    intros x; rewrite Hs.
  - intros Hx%elem_of_removelast. by apply Hst.
  - intros [Hx%elem_of_removelast|Hx]%elem_of_app.
    + by apply Hst.
    + rewrite elem_of_reverse in Hx.
      left. exact (inv_bodies self Hinv top sym prod x Hcell Hx).
Qed.

Lemma analyze_step_invalid input l self top s :
  analyze_step input l self = Raise (SyntaxError (InvalidStackSymbol top)) s →
  top ∈ stack l ∧ top ≠ "$" ∧
  top ∉ table_terminals self ∪ table_non_terminals self.
Proof.
  unfold analyze_step, bind, get, ret, raise.
  destruct (last (stack l)) as [stackTop|] eqn:Hs; [|done].
  destruct (last (tree_stack l)) as [current|]; [|done].
  destruct (input !! i l) as [cur|]; [|done].
  destruct (decide (stackTop ∈ table_terminals self ∨ stackTop = "$"))
    as [|Hnt]; [by case_decide|].
  destruct (decide (stackTop ∈ table_non_terminals self)) as [|Hn].
  { destruct (cell_get self stackTop cur); [|done]. by case_match. }
  intros [= <- <-]. apply last_Some in Hs as [s0 ->].
  split; [apply elem_of_app; right; by left|]. split; [tauto|].
  set_solver.
Qed.

(** X24: On a table of the shape that the constructor builds and [add_cell]
    keeps, started on a symbol of the table, [analyze] never finds an
    unknown symbol on its stack: the error [Invalid symbol ... on stack]
    is not raised, because [add_cell] lets only bodies made of symbols of
    the table into the cells. *)
Theorem analyze_no_invalid_symbol fuel input start self e s :
  table_inv self →
  start ∈ table_terminals self ∪ table_non_terminals self ∨ start = "$" →
  analyze fuel input start self = Raise e s →
  ∀ top, e ≠ SyntaxError (InvalidStackSymbol top).
Proof.
  intros Hinv Hstart. unfold analyze, bind.
  set (l0 := {| stack := ["$"; start] |}).
  assert (stack_declared self l0) as H0.
  { intros x [->|Hx]%elem_of_cons; [by right|].
    by apply list_elem_of_singleton in Hx as ->. }
  destruct (analyze_loop fuel (chars input) l0 self) as [l s1|e1 s1|] eqn:Hl;
    [| |done].
  - case_decide; [by intros [= <- <-] top|].
    by destruct (tree_of _ _ _).
  - intros [= <- <-] top ->.
    eapply (analyze_loop_Raise (stack_declared self)) in Hl
      as (l1 & Hdecl & _ & Hstep);
      [|intros; by eapply stack_declared_step|done].
    apply analyze_step_invalid in Hstep as (Hin & Hne & Hnot).
    by destruct (Hdecl top Hin).
Qed.

Lemma analyze_no_invalid_symbol_witness :
  analyze 5 "aa$" "S" ab_table = Raise (SyntaxError (NoRule "B" "a")) ab_table ∧
  SyntaxError (NoRule "B" "a") ≠ SyntaxError (InvalidStackSymbol "S").
Proof.
  split; [vm_compute; reflexivity|].
  apply (analyze_no_invalid_symbol 5 "aa$" "S" ab_table _ ab_table).
  - apply ab_table_inv.
  - left. vm_compute. set_solver.
  - vm_compute. reflexivity.
Defined.

(** X25: The parser built from a grammar accepts only sentences of the
    grammar: when [get_ll1_table] returns a table and [analyze] on that
    table returns, the input is a word [w] followed by ['$'], [w] is made
    of terminals that occur in the bodies (or ['$']), and [w] is derived
    from [start] with the productions of the grammar. *)
Theorem ll1_parser_sound g fuel st table st' fuel' input start t s :
  valid g → "$" ∉ non_terminals g →
  first_wf g (first_cache st) → enough_fuel g ≤ fuel →
  get_ll1_table g fuel st = Ok (Some table) st' →
  analyze fuel' input start table = Ok t s →
  ∃ w, chars input = w ++ ["$"] ∧
       (∀ x, x ∈ w → x ∈ follow_universe g) ∧
       derives (grammar_rule g) [start] w.
Proof.
  intros Hv Hd Hwf Hf Htable Hrun.
  assert (0 < fuel) as Hpos by (unfold enough_fuel in Hf; lia).
  destruct (ensure_follow_all g fuel st Hv Hwf Hf) as (st1 & He & Hc & _).
  rewrite (get_ll1_table_filled g fuel st st1 Hv Hd Hpos He Hc) in Htable.
  inversion Htable as [[Ha Hst]]. clear Htable.
  destruct (analyze_sound_table _ _ _ _ _ _ Hrun) as (w & Hw & Hterm & Hder).
  exists w. split; [done|]. split.
  - intros x Hx. rewrite (assign_terminals _ _ _ Ha) in Hterm.
    destruct (Hterm x Hx) as [?| ->]; [done|].
    unfold follow_universe. set_solver.
  - eapply derives_mono; [|exact Hder].
    intros A b (_ & t0 & Hcell).
    destruct (assign_cells _ _ _ _ _ _ Ha Hcell) as [Hin|Hempty].
    + by eapply cell_assignments_rule.
    + by rewrite empty_table_get in Hempty.
Qed.

Lemma ll1_parser_sound_witness :
  ∃ w, chars "ab$" = w ++ ["$"] ∧
       (∀ x, x ∈ w → x ∈ follow_universe ab_grammar) ∧
       derives (grammar_rule ab_grammar) ["S"] w.
Proof.
  apply (ll1_parser_sound ab_grammar 12 (fresh ab_grammar) ab_table
           {| first_cache := {["S" := {["a"]}; "B" := {["b"]}]};
              follow_cache := {["S" := {["$"]}; "B" := {["$"]}]} |}
           5 "ab$" "S" (Node "$" []) ab_table).
  - apply init_valid. vm_compute. reflexivity.
  - vm_compute. set_solver.
  - apply first_wf_check. vm_compute. reflexivity.
  - vm_compute. lia.
  - vm_compute. reflexivity.
  - vm_compute. reflexivity.
Defined.

(** ** [ParseTree.__eq__] *)

Lemma ParseTree_children_ind (P : ParseTree → Prop) :
  (∀ root children, Forall P children → P (Node root children)) →
  ∀ t, P t.
Proof.
  intros H. fix IH 1. intros [root children]. apply H.
  induction children as [|c cs IHcs]; constructor; [apply IH|exact IHcs].
Qed.

Lemma ParseTree_eq_unfold root children root' children' :
  ParseTree_eq (Node root children) (Node root' children') =
  bool_decide (root = root')
  && (length children =? length children')
  && forallb (λ p, ParseTree_eq p.1 p.2) (zip children children').
Proof.
  simpl. f_equal. revert children'.
  induction children as [|x xs IH]; intros [|y ys]; simpl; try done.
  by rewrite IH.
Qed.

(** X26: [ParseTree.__eq__] is structural equality: it answers [True] exactly
    when the two trees have the same root and, child by child, equal
    subtrees; it is the conjunction that the source writes, with [all]
    over [zip]. *)
Theorem ParseTree_eq_structural self other :
  (ParseTree_eq self other = true ↔ self = other) ∧
  ParseTree_eq self other =
    (let 'Node root children := self in
     let 'Node root' children' := other in
     bool_decide (root = root')
     && (length children =? length children')
     && forallb (λ p, ParseTree_eq p.1 p.2) (zip children children')).
Proof.
  split; [|destruct self, other; apply ParseTree_eq_unfold].
  revert other.
  induction self as [root children IH] using ParseTree_children_ind.
  intros [root' children']. rewrite ParseTree_eq_unfold.
  rewrite !andb_true_iff, bool_decide_eq_true, Nat.eqb_eq.
  split.
  - intros [[-> Hlen] Hall]. f_equal.
    revert children' Hlen Hall.
    induction IH as [|x xs Hx _ IHxs]; intros [|y ys] Hlen Hall;
      simpl in *; try done.
    apply andb_true_iff in Hall as [Hxy Hrest].
    f_equal; [by apply Hx|]. apply IHxs; [lia|done].
  - intros [= -> <-]. split; [done|].
    induction IH as [|x xs Hx _ IHxs]; simpl; [done|].
    apply andb_true_iff. split; [by apply Hx|done].
Qed.
